(** * Convex multi-commodity flow: the engine and the path discovery

    A shallow embedding of [modelos.py], [funciones.py], of the path
    discovery and the generators of [fat_tree_topology.py] and
    [ring_topology.py], and of the loops of the two simulators that build
    the commodities.

    Conventions of the embedding.
    - Python floats are the rationals [Q] with exact arithmetic; [==] is the
      value equality of two floats.  A division raises [ZeroDivisionError]
      when its divisor is zero, as in Python.
    - Python ints that name nodes or index lists are [Z]; path ordinals,
      produced by [enumerate(..., start=1)], and hop distances are [nat].
    - A Python [dict] is an association list in insertion order, whose keys
      are compared with the [__eq__] of the key class ([py_eqb]); writing to
      a key that is present replaces the value in place.  The order matters:
      [min(d, key=d.get)] returns the first minimal key in that order.
    - An exception is a value of [excepcion].  A function that only computes
      returns a [resultado]; a procedure that assigns to [Path.trafico]
      returns an [efecto], which carries the objects as they are when the
      procedure returns or raises.
    - The commodities of a list, and the paths of a commodity, are distinct
      objects.  The [print] calls are left out, and the depth of the Python
      call stack is not bounded.
    - The [while] loop and the recursion of the path discovery take a
      [fuel]; the functions that call them give enough of it, which is
      proved, and return [None] only if it ran out.
    - The random generator is a stream of integers, of which each call of
      [random.randint] reads the next one. *)

From Stdlib Require Import List ZArith QArith Qabs Qminmax Lia Lqa Bool.
From Stdlib Require Import Permutation Sorted Setoid Morphisms.
Import ListNotations.

(** ** Exceptions and results *)

Inductive excepcion : Type :=
| ValueError
| ZeroDivisionError
| KeyError
| IndexError.

Inductive resultado (A : Type) : Type :=
| Ok (a : A)
| Raise (e : excepcion).

Arguments Ok {A} a.
Arguments Raise {A} e.

Definition bind {A B : Type} (m : resultado A) (f : A -> resultado B) : resultado B :=
  match m with
  | Ok a => f a
  | Raise e => Raise e
  end.

Notation "x <- m ;; k" := (bind m (fun x => k))
  (at level 61, m at next level, right associativity).

(** The outcome of a procedure that mutates objects of type [S]: the objects
    at the normal return, or the exception with the objects at the raise. *)
Inductive efecto (S : Type) : Type :=
| Fin (s : S)
| Aborta (e : excepcion) (s : S).

Arguments Fin {S} s.
Arguments Aborta {S} e s.

Definition estado {S : Type} (r : efecto S) : S :=
  match r with
  | Fin s => s
  | Aborta _ s => s
  end.

(** ** Python primitives *)

Definition py_div (a b : Q) : resultado Q :=
  if Qeq_bool b 0 then Raise ZeroDivisionError else Ok (a / b).

Definition Qgt_bool (x y : Q) : bool := negb (Qle_bool x y).

(** The position that [l[i]] names, for a Python int [i]: a negative index
    counts from the end, an index out of range raises [IndexError]. *)
Definition py_pos {A : Type} (l : list A) (i : Z) : resultado nat :=
  let n := Z.of_nat (length l) in
  let j := if (i <? 0)%Z then (n + i)%Z else i in
  if ((j <? 0) || (n <=? j))%Z then Raise IndexError else Ok (Z.to_nat j).

(** [l[i]] *)
Definition py_index {A : Type} (l : list A) (i : Z) : resultado A :=
  j <- py_pos l i ;;
  match nth_error l j with
  | Some a => Ok a
  | None => Raise IndexError
  end.

Fixpoint list_set {A : Type} (l : list A) (n : nat) (f : A -> A) : list A :=
  match l, n with
  | [], _ => []
  | a :: r, O => f a :: r
  | a :: r, S m => a :: list_set r m f
  end.

(** [l[:k]] for a Python int [k]. *)
Definition py_slice_hasta {A : Type} (l : list A) (k : Z) : list A :=
  if (k <? 0)%Z then firstn (length l - Z.to_nat (- k)) l
  else firstn (Z.to_nat k) l.

(** ** Equality of Python objects: [__eq__] *)

Class PyEq (A : Type) : Type := {
  py_eqb : A -> A -> bool;
  py_eqb_refl : forall x, py_eqb x x = true;
  py_eqb_sym : forall x y, py_eqb x y = py_eqb y x;
  py_eqb_trans : forall x y z, py_eqb x y = true -> py_eqb y z = true -> py_eqb x z = true
}.

#[export, refine] Instance PyEq_nat : PyEq nat := {| py_eqb := Nat.eqb |}.
Proof.
  - apply Nat.eqb_refl.
  - apply Nat.eqb_sym.
  - intros x y z H1 H2. apply Nat.eqb_eq in H1, H2. apply Nat.eqb_eq. congruence.
Defined.

#[export, refine] Instance PyEq_Z : PyEq Z := {| py_eqb := Z.eqb |}.
Proof.
  - apply Z.eqb_refl.
  - apply Z.eqb_sym.
  - intros x y z H1 H2. apply Z.eqb_eq in H1, H2. apply Z.eqb_eq. congruence.
Defined.

#[export, refine] Instance PyEq_Q : PyEq Q := {| py_eqb := Qeq_bool |}.
Proof.
  - apply Qeq_bool_refl.
  - apply Qeq_bool_comm.
  - apply Qeq_bool_trans.
Defined.

(** Tuples compare component by component. *)
#[export, refine] Instance PyEq_prod {A B : Type} `{PyEq A} `{PyEq B} : PyEq (A * B) :=
  {| py_eqb := fun x y => py_eqb (fst x) (fst y) && py_eqb (snd x) (snd y) |}.
Proof.
  - intros [a b]; simpl. now rewrite !py_eqb_refl.
  - intros [a b] [c d]; simpl. now rewrite (py_eqb_sym a c), (py_eqb_sym b d).
  - intros [a b] [c d] [e f]; simpl. rewrite !andb_true_iff.
    intros [H1 H2] [H3 H4]; split; eapply py_eqb_trans; eauto.
Defined.

(** ** modelos.py *)

Module Enlace.
Record t : Type := mk { source : Z; target : Z; capacity : Q }.

Definition eqb (a b : t) : bool :=
  (source a =? source b)%Z && (target a =? target b)%Z
  && Qeq_bool (capacity a) (capacity b).
End Enlace.

#[export, refine] Instance PyEq_Enlace : PyEq Enlace.t := {| py_eqb := Enlace.eqb |}.
Proof.
- intros x. unfold Enlace.eqb. now rewrite !Z.eqb_refl, Qeq_bool_refl.
- intros x y. unfold Enlace.eqb.
  now rewrite (Z.eqb_sym (Enlace.source x)), (Z.eqb_sym (Enlace.target x)), Qeq_bool_comm.
- intros x y z. unfold Enlace.eqb. rewrite !andb_true_iff, !Z.eqb_eq.
  intros [[H1 H2] H3] [[H4 H5] H6]. repeat split; try congruence.
  eapply Qeq_bool_trans; eauto.
Defined.

(** The nodes of a link sequence, as [Path.nodos] lists them. *)
Definition nodos_de (enlaces : list Enlace.t) : list Z :=
  match enlaces with
  | [] => []
  | e :: _ => Enlace.source e :: map Enlace.target enlaces
  end.

Module Path.
(** [id] and the back-reference [commodity] are read by [__repr__] only. *)
Record t : Type := mk { enlaces : list Enlace.t; trafico : Q }.

(** [path.trafico = x] *)
Definition con_trafico (x : Q) (p : t) : t := mk (enlaces p) x.

Definition nodos (p : t) : list Z := nodos_de (enlaces p).
End Path.

Module Commodity.
Record t : Type := mk { source : Z; target : Z; requirement : Q; paths : list Path.t }.

Definition eqb (a b : t) : bool :=
  (source a =? source b)%Z && (target a =? target b)%Z
  && Qeq_bool (requirement a) (requirement b).

Definition con_paths (ps : list Path.t) (c : t) : t :=
  mk (source c) (target c) (requirement c) ps.
End Commodity.

#[export, refine] Instance PyEq_Commodity : PyEq Commodity.t := {| py_eqb := Commodity.eqb |}.
Proof.
- intros x. unfold Commodity.eqb. now rewrite !Z.eqb_refl, Qeq_bool_refl.
- intros x y. unfold Commodity.eqb.
  now rewrite (Z.eqb_sym (Commodity.source x)), (Z.eqb_sym (Commodity.target x)), Qeq_bool_comm.
- intros x y z. unfold Commodity.eqb. rewrite !andb_true_iff, !Z.eqb_eq.
  intros [[H1 H2] H3] [[H4 H5] H6]. repeat split; try congruence.
  eapply Qeq_bool_trans; eauto.
Defined.

(** ** Python dicts *)

Section Dict.
Context {K V : Type} `{PyEq K}.

Definition dict : Type := list (K * V).

Fixpoint dict_get (k : K) (d : dict) : option V :=
  match d with
  | [] => None
  | (k0, v) :: r => if py_eqb k0 k then Some v else dict_get k r
  end.

(** [d[k] = v]: the first key equal to [k] keeps its place and its key
    object; a new key goes to the end. *)
Fixpoint dict_set (k : K) (v : V) (d : dict) : dict :=
  match d with
  | [] => [(k, v)]
  | (k0, v0) :: r => if py_eqb k0 k then (k0, v) :: r else (k0, v0) :: dict_set k v r
  end.

(** [d.get(k, x)], and [d[k]] for a [defaultdict] that is only read. *)
Definition dict_get_or (k : K) (x : V) (d : dict) : V :=
  match dict_get k d with
  | Some v => v
  | None => x
  end.

(** [d[k]] *)
Definition dict_item (k : K) (d : dict) : resultado V :=
  match dict_get k d with
  | Some v => Ok v
  | None => Raise KeyError
  end.

Definition claves (d : dict) : list K := map fst d.

(** No two keys of the dict are equal. *)
Fixpoint dict_wf (d : dict) : Prop :=
  match d with
  | [] => True
  | (k, _) :: r => dict_get k r = None /\ dict_wf r
  end.
End Dict.

Arguments dict K V : clear implicits.

(** ** funciones.py: the cost model *)

Local Open Scope Q_scope.

(** The two branches of [f_prima], and [f_prima] itself, which tests
    [total_flow > p * capacity] with [p = 0.99]. *)
Definition f_prima_saturada (capacity : Q) : resultado Q :=
  let p := 0.99 in py_div 1 (capacity * (1 - p) ^ 2).

Definition f_prima_regular (capacity total_flow : Q) : resultado Q :=
  py_div capacity ((capacity - total_flow) ^ 2).

Definition f_prima (capacity total_flow : Q) : resultado Q :=
  let p := 0.99 in
  if Qgt_bool total_flow (p * capacity) then f_prima_saturada capacity
  else f_prima_regular capacity total_flow.

Definition f_double_prima_saturada : resultado Q := Ok 0.

Definition f_double_prima_regular (capacity flujo_total : Q) : resultado Q :=
  py_div (2 * capacity) ((capacity - flujo_total) ^ 3).

Definition f_double_prima (enlace : Enlace.t) (flujo_total : Q) : resultado Q :=
  let p := 0.99 in
  if Qgt_bool flujo_total (p * Enlace.capacity enlace) then f_double_prima_saturada
  else f_double_prima_regular (Enlace.capacity enlace) flujo_total.

(** ** funciones.py: loops *)

(** [for a in l: s = f(s, a)], where [f] may raise. *)
Fixpoint para_cada {A S : Type} (f : S -> A -> resultado S) (l : list A) (s : S)
  : resultado S :=
  match l with
  | [] => Ok s
  | a :: r => s' <- f s a ;; para_cada f r s'
  end.

(** The same loop for a body that mutates [s] and may raise half way. *)
Fixpoint para_cada_ef {A S : Type} (f : S -> A -> efecto S) (l : list A) (s : S)
  : efecto S :=
  match l with
  | [] => Fin s
  | a :: r =>
    match f s a with
    | Fin s' => para_cada_ef f r s'
    | Aborta e s' => Aborta e s'
    end
  end.

(** [for commodity in commodities: f(commodity)], where [f] mutates the
    commodity it is given: the commodities before the one that raises are
    updated, the ones after it are untouched. *)
Fixpoint para_cada_commodity (f : Commodity.t -> efecto Commodity.t)
  (commodities : list Commodity.t) : efecto (list Commodity.t) :=
  match commodities with
  | [] => Fin []
  | c :: r =>
    match f c with
    | Aborta e c' => Aborta e (c' :: r)
    | Fin c' =>
      match para_cada_commodity f r with
      | Fin r' => Fin (c' :: r')
      | Aborta e r' => Aborta e (c' :: r')
      end
    end
  end.

(** [enumerate(l, start)] *)
Fixpoint enumerate {A : Type} (l : list A) (start : nat) : list (nat * A) :=
  match l with
  | [] => []
  | a :: r => (start, a) :: enumerate r (S start)
  end.

(** ** funciones.py: the functions of the engine *)

Definition distribuir_trafico_uniforme (commodity : Commodity.t) : efecto Commodity.t :=
  let num_paths := length (Commodity.paths commodity) in
  if (num_paths =? 0)%nat then Aborta ValueError commodity
  else
    let trafico_unitario :=
      Commodity.requirement commodity / inject_Z (Z.of_nat num_paths) in
    Fin (Commodity.con_paths
           (map (Path.con_trafico trafico_unitario) (Commodity.paths commodity))
           commodity).

(** [flujo_por_enlace[enlace] += path.trafico] on a [defaultdict(float)]. *)
Definition sumar_enlace (trafico : Q) (flujo : dict Enlace.t Q) (enlace : Enlace.t)
  : dict Enlace.t Q :=
  dict_set enlace (dict_get_or enlace 0 flujo + trafico) flujo.

Definition sumar_path (flujo : dict Enlace.t Q) (path : Path.t) : dict Enlace.t Q :=
  fold_left (sumar_enlace (Path.trafico path)) (Path.enlaces path) flujo.

Definition sumar_commodity (flujo : dict Enlace.t Q) (commodity : Commodity.t)
  : dict Enlace.t Q :=
  fold_left sumar_path (Commodity.paths commodity) flujo.

Definition calcular_flujo_por_enlace (commodities : list Commodity.t) : dict Enlace.t Q :=
  fold_left sumar_commodity commodities [].

Definition coste_enlace (flujo_por_enlace : dict Enlace.t Q) (coste_path : Q)
  (enlace : Enlace.t) : resultado Q :=
  flujo <- dict_item enlace flujo_por_enlace ;;
  coste <- f_prima (Enlace.capacity enlace) flujo ;;
  Ok (coste_path + coste).

Definition coste_path (flujo_por_enlace : dict Enlace.t Q)
  (commodity : Commodity.t) (costes_path : dict (Commodity.t * nat) Q)
  (ip : nat * Path.t) : resultado (dict (Commodity.t * nat) Q) :=
  let (i, path) := ip in
  coste <- para_cada (coste_enlace flujo_por_enlace) (Path.enlaces path) 0 ;;
  Ok (dict_set (commodity, i) coste costes_path).

Definition calcular_coste_total_por_path (commodities : list Commodity.t)
  (flujo_por_enlace : dict Enlace.t Q) : resultado (dict (Commodity.t * nat) Q) :=
  para_cada
    (fun costes_path commodity =>
       para_cada (coste_path flujo_por_enlace commodity)
         (enumerate (Commodity.paths commodity) 1) costes_path)
    commodities [].

(** [{path_id: coste for (commodity_iter, path_id), coste in costes.items()
      if commodity_iter == commodity}] *)
Definition costes_del_commodity (costes : dict (Commodity.t * nat) Q)
  (commodity : Commodity.t) : dict nat Q :=
  fold_left
    (fun acc (kv : Commodity.t * nat * Q) =>
       if py_eqb (fst (fst kv)) commodity then dict_set (snd (fst kv)) (snd kv) acc
       else acc)
    costes [].

(** [min(d, key=d.get)]: the first key whose value is minimal; [None] stands
    for the empty dict, which the callers exclude before they call [min]. *)
Fixpoint py_min_desde (mejor : nat * Q) (d : dict nat Q) : nat :=
  match d with
  | [] => fst mejor
  | kv :: r => if Qgt_bool (snd mejor) (snd kv) then py_min_desde kv r
               else py_min_desde mejor r
  end.

Definition py_min (d : dict nat Q) : option nat :=
  match d with
  | [] => None
  | kv :: r => Some (py_min_desde kv r)
  end.

Definition seleccionar_path_minimo_coste (commodities : list Commodity.t)
  (costes_path_anterior : dict (Commodity.t * nat) Q) : dict Commodity.t nat :=
  fold_left
    (fun shortest_paths commodity =>
       let paths_costes := costes_del_commodity costes_path_anterior commodity in
       match py_min paths_costes with
       | Some path_minimo_id => dict_set commodity path_minimo_id shortest_paths
       | None => shortest_paths
       end)
    commodities [].

Definition calculo_del_trafico_para_la_siguiente_iteracion
  (t : nat) (x_kp_actual H_kp d_kp d_kbeta : Q) : resultado Q :=
  paso <- py_div 0.001 H_kp ;;
  let termino_adaptacion := x_kp_actual - paso * (d_kp - d_kbeta) in
  Ok (Qmax 0 termino_adaptacion).

(** [set(l)] for links: one representative of each value.  Python iterates a
    set in hash order; the sums below are in exact arithmetic and read only
    the fields that [__eq__] compares, so neither the order nor the
    representative chosen here shows. *)
Fixpoint py_set (l : list Enlace.t) : list Enlace.t :=
  match l with
  | [] => []
  | e :: r => if existsb (py_eqb e) r then py_set r else e :: py_set r
  end.

Definition symmetric_difference (a b : list Enlace.t) : list Enlace.t :=
  filter (fun e => negb (existsb (py_eqb e) b)) a
  ++ filter (fun e => negb (existsb (py_eqb e) a)) b.

Definition sumar_curvatura (flujo_por_enlace_anterior : dict Enlace.t Q) (H_kp : Q)
  (enlace : Enlace.t) : resultado Q :=
  let flujo := dict_get_or enlace 0 flujo_por_enlace_anterior in
  f_dp <- f_double_prima enlace flujo ;;
  Ok (H_kp + f_dp).

Definition calcular_H_kp (path_actual mejor_path : Path.t)
  (flujo_por_enlace_anterior : dict Enlace.t Q) : resultado Q :=
  let enlaces_actual := py_set (Path.enlaces path_actual) in
  let enlaces_mejor := py_set (Path.enlaces mejor_path) in
  let L_kp := symmetric_difference enlaces_actual enlaces_mejor in
  para_cada (sumar_curvatura flujo_por_enlace_anterior) L_kp 0.

(** ** funciones.py: [funcion_principal] *)

(** The dict [iteraciones] of three lists. *)
Record Iteraciones : Type := mkIteraciones {
  flujo_total : list (dict Enlace.t Q);
  costes_path : list (dict (Commodity.t * nat) Q);
  shortest_paths : list (dict Commodity.t nat)
}.

Definition iteraciones_vacias : Iteraciones := mkIteraciones [] [] [].

Definition append_iteracion (it : Iteraciones) (flujo : dict Enlace.t Q)
  (costes : dict (Commodity.t * nat) Q) (sp : dict Commodity.t nat) : Iteraciones :=
  mkIteraciones (flujo_total it ++ [flujo]) (costes_path it ++ [costes])
    (shortest_paths it ++ [sp]).

(** The new traffic of one path that is not the reference path; the value of
    the expression [calculo_del_trafico_para_la_siguiente_iteracion(...)] of
    the inner loop, its arguments evaluated in the order of the source. *)
Definition nuevo_trafico_de (it : Iteraciones) (i : nat) (paths : list Path.t)
  (path_minimo_id : nat) (d_kbeta : Q) (path_id : nat) (coste_actual : Q)
  : resultado Q :=
  path_actual <- py_index paths (Z.of_nat path_id - 1) ;;
  let x_kp_actual := Path.trafico path_actual in
  mejor_path <- py_index paths (Z.of_nat path_minimo_id - 1) ;;
  flujo_anterior <- py_index (flujo_total it) (Z.of_nat i - 1) ;;
  H_kp <- calcular_H_kp path_actual mejor_path flujo_anterior ;;
  calculo_del_trafico_para_la_siguiente_iteracion i x_kp_actual H_kp coste_actual d_kbeta.

(** The body of [for path_id, coste_actual in costes_commodity.items()]; the
    state is the paths of the commodity and [suma_flujo_otros]. *)
Definition actualizar_path (it : Iteraciones) (i : nat) (path_minimo_id : nat)
  (d_kbeta : Q) (st : list Path.t * Q) (kv : nat * Q) : efecto (list Path.t * Q) :=
  let (paths, suma_flujo_otros) := st in
  let (path_id, coste_actual) := kv in
  if (path_id =? path_minimo_id)%nat then Fin st
  else
    match nuevo_trafico_de it i paths path_minimo_id d_kbeta path_id coste_actual with
    | Raise e => Aborta e st
    | Ok nuevo_trafico =>
      match py_pos paths (Z.of_nat path_id - 1) with
      | Raise e => Aborta e st
      | Ok j => Fin (list_set paths j (Path.con_trafico nuevo_trafico),
                     suma_flujo_otros + nuevo_trafico)
      end
    end.

(** The body of [for commodity in commodities] in the branch [i > 0]. *)
Definition actualizar_commodity (it : Iteraciones) (i : nat) (commodity : Commodity.t)
  : efecto Commodity.t :=
  match py_index (costes_path it) (Z.of_nat i - 1) with
  | Raise e => Aborta e commodity
  | Ok costes_anterior =>
    let costes_commodity := costes_del_commodity costes_anterior commodity in
    match py_min costes_commodity with
    | None => Fin commodity
    | Some path_minimo_id =>
      match dict_item path_minimo_id costes_commodity with
      | Raise e => Aborta e commodity
      | Ok d_kbeta =>
        match para_cada_ef (actualizar_path it i path_minimo_id d_kbeta)
                costes_commodity (Commodity.paths commodity, 0) with
        | Aborta e (paths, _) => Aborta e (Commodity.con_paths paths commodity)
        | Fin (paths, suma_flujo_otros) =>
          let flujo_shortest_path := Commodity.requirement commodity - suma_flujo_otros in
          match py_pos paths (Z.of_nat path_minimo_id - 1) with
          | Raise e => Aborta e (Commodity.con_paths paths commodity)
          | Ok j =>
            Fin (Commodity.con_paths
                   (list_set paths j (Path.con_trafico (Qmax 0 flujo_shortest_path)))
                   commodity)
          end
        end
      end
    end
  end.

(** One pass of [for i in range(200)]; the state is the commodities and the
    ledger [iteraciones]. *)
Definition iteracion (i : nat) (st : list Commodity.t * Iteraciones)
  : efecto (list Commodity.t * Iteraciones) :=
  let (commodities, it) := st in
  match (if (i =? 0)%nat
         then para_cada_commodity distribuir_trafico_uniforme commodities
         else para_cada_commodity (actualizar_commodity it i) commodities) with
  | Aborta e commodities' => Aborta e (commodities', it)
  | Fin commodities' =>
    let flujo := calcular_flujo_por_enlace commodities' in
    match calcular_coste_total_por_path commodities' flujo with
    | Raise e => Aborta e (commodities', it)
    | Ok costes =>
      let sp := seleccionar_path_minimo_coste commodities' costes in
      Fin (commodities', append_iteracion it flujo costes sp)
    end
  end.

Definition bucle (rango : list nat) (st : list Commodity.t * Iteraciones)
  : efecto (list Commodity.t * Iteraciones) :=
  para_cada_ef (fun st i => iteracion i st) rango st.

Definition funcion_principal (commodities : list Commodity.t)
  : efecto (list Commodity.t * Iteraciones) :=
  bucle (seq 0 200) (commodities, iteraciones_vacias).

(** ** fat_tree_topology.py and ring_topology.py: path discovery *)

(** [construir_grafo_adyacencia], the same in both files: a dict from a
    node to the list of [(vecino, enlace)] of the links that leave it. *)
Definition construir_grafo_adyacencia (enlaces : list Enlace.t)
  : dict Z (list (Z * Enlace.t)) :=
  fold_left
    (fun grafo enlace =>
       dict_set (Enlace.source enlace)
         (dict_get_or (Enlace.source enlace) [] grafo
          ++ [(Enlace.target enlace, enlace)])
         grafo)
    enlaces [].

(** The body of [for vecino, _ in grafo[nodo]] of the breadth-first
    traversal; the state is [distancias] and [queue]. *)
Definition visitar_vecino (dist : nat) (st : dict Z nat * list (Z * nat))
  (ve : Z * Enlace.t) : dict Z nat * list (Z * nat) :=
  let (distancias, queue) := st in
  let vecino := fst ve in
  match dict_get vecino distancias with
  | Some _ => st
  | None => (dict_set vecino (S dist) distancias, queue ++ [(vecino, S dist)])
  end.

(** [while queue: ...], one pass of the loop for each unit of [fuel];
    [None] when the fuel runs out before the queue is empty. *)
Fixpoint bfs (fuel : nat) (grafo : dict Z (list (Z * Enlace.t))) (target : Z)
  (distancias : dict Z nat) (queue : list (Z * nat)) : option (dict Z nat) :=
  match queue with
  | [] => Some distancias
  | (nodo, dist) :: queue' =>
    match fuel with
    | O => None
    | S fuel' =>
      if (nodo =? target)%Z then bfs fuel' grafo target distancias queue'
      else
        match dict_get nodo grafo with
        | None => bfs fuel' grafo target distancias queue'
        | Some vecinos =>
          let (distancias', queue'') :=
            fold_left (visitar_vecino dist) vecinos (distancias, queue') in
          bfs fuel' grafo target distancias' queue''
        end
    end
  end.

(** The hop distances from [source], as both functions compute them. *)
Definition calcular_distancias (source target : Z) (enlaces : list Enlace.t)
  : option (dict Z nat) :=
  bfs (S (length enlaces)) (construir_grafo_adyacencia enlaces) target
    [(source, 0%nat)] [(source, 0%nat)].

(** [for vecino, enlace in grafo[nodo_actual]: ...] of the two depth-first
    searches; [None] when a nested call runs out of fuel. *)
Fixpoint recorrer_vecinos {S : Type} (paso : S -> Z * Enlace.t -> option S)
  (vecinos : list (Z * Enlace.t)) (st : S) : option S :=
  match vecinos with
  | [] => Some st
  | ve :: resto =>
    match paso st ve with
    | None => None
    | Some st' => recorrer_vecinos paso resto st'
    end
  end.

(** The inner function [dfs] of [encontrar_k_paths_mas_cortos]; it returns
    [todos_caminos].  [camino_actual] is appended to and popped around the
    recursive call, so the call sees [camino_actual ++ [enlace]] and the
    loop goes on with [camino_actual].  One unit of [fuel] for each nested
    call. *)
Fixpoint dfs_mas_cortos (fuel : nat) (grafo : dict Z (list (Z * Enlace.t))) (target : Z)
  (max_length_to_explore : nat) (nodo_actual : Z) (camino_actual : list Enlace.t)
  (longitud : nat) (todos_caminos : list (list Enlace.t))
  : option (list (list Enlace.t)) :=
  match fuel with
  | O => None
  | S fuel' =>
    if (max_length_to_explore <? longitud)%nat then Some todos_caminos
    else if (nodo_actual =? target)%Z then Some (todos_caminos ++ [camino_actual])
    else
      match dict_get nodo_actual grafo with
      | None => Some todos_caminos
      | Some vecinos =>
        recorrer_vecinos
          (fun todos (ve : Z * Enlace.t) =>
             let (vecino, enlace) := ve in
             if existsb (Z.eqb vecino) (map Enlace.source camino_actual)
             then Some todos
             else dfs_mas_cortos fuel' grafo target max_length_to_explore vecino
                    (camino_actual ++ [enlace]) (S longitud) todos)
          vecinos todos_caminos
      end
  end.

(** [todos_caminos.sort(key=len)]: a stable sort by length. *)
Fixpoint insertar_por_longitud (c : list Enlace.t) (l : list (list Enlace.t))
  : list (list Enlace.t) :=
  match l with
  | [] => [c]
  | x :: r => if (length c <=? length x)%nat then c :: x :: r
              else x :: insertar_por_longitud c r
  end.

Definition ordenar_por_longitud (l : list (list Enlace.t)) : list (list Enlace.t) :=
  fold_right insertar_por_longitud [] l.

Definition encontrar_k_paths_mas_cortos (source target : Z) (enlaces : list Enlace.t)
  (k : Z) : option (list (list Enlace.t)) :=
  if (source =? target)%Z then Some [[]]
  else
    let grafo := construir_grafo_adyacencia enlaces in
    match calcular_distancias source target enlaces with
    | None => None
    | Some distancias =>
      match dict_get target distancias with
      | None => Some []
      | Some dist_min =>
        let max_length_to_explore := (dist_min + 2)%nat in
        match dfs_mas_cortos (max_length_to_explore + 2) grafo target
                max_length_to_explore source [] 0 [] with
        | None => None
        | Some todos_caminos =>
          Some (py_slice_hasta (ordenar_por_longitud todos_caminos) k)
        end
      end
    end.

(** The inner function [dfs] of [encontrar_k_paths_bfs]; it returns
    [todos_caminos] and the set [visitados], which it adds to and removes
    from around the recursive call ([vecino] is in the set when it is
    removed, see [dfs_bfs_validos]).  The test
    [len(todos_caminos) >= k * 3] guards a [return] that is followed by the
    same [return]. *)
Fixpoint dfs_bfs (fuel : nat) (grafo : dict Z (list (Z * Enlace.t))) (target : Z)
  (max_length : Z) (nodo_actual : Z) (camino_actual : list Enlace.t)
  (st : list (list Enlace.t) * list Z) : option (list (list Enlace.t) * list Z) :=
  match fuel with
  | O => None
  | S fuel' =>
    if (max_length <? Z.of_nat (length camino_actual))%Z then Some st
    else if (nodo_actual =? target)%Z then Some (fst st ++ [camino_actual], snd st)
    else
      match dict_get nodo_actual grafo with
      | None => Some st
      | Some vecinos =>
        recorrer_vecinos
          (fun (st : list (list Enlace.t) * list Z) (ve : Z * Enlace.t) =>
             let (vecino, enlace) := ve in
             if existsb (Z.eqb vecino) (snd st) then Some st
             else
               match dfs_bfs fuel' grafo target max_length vecino
                       (camino_actual ++ [enlace]) (fst st, vecino :: snd st) with
               | None => None
               | Some (todos', visitados') =>
                 Some (todos', remove Z.eq_dec vecino visitados')
               end)
          vecinos st
      end
  end.

Definition encontrar_k_paths_bfs (source target : Z) (enlaces : list Enlace.t)
  (k : Z) (max_length : option Z) : option (list (list Enlace.t)) :=
  if (source =? target)%Z then Some [[]]
  else
    let grafo := construir_grafo_adyacencia enlaces in
    match calcular_distancias source target enlaces with
    | None => None
    | Some distancias =>
      match dict_get target distancias with
      | None => Some []
      | Some dist_min =>
        let max_length :=
          match max_length with
          | None => (Z.of_nat dist_min + 3)%Z
          | Some n => n
          end in
        match dfs_bfs (Z.to_nat max_length + 2) grafo target max_length source []
                ([], [source]) with
        | None => None
        | Some (todos_caminos, _) =>
          Some (py_slice_hasta (ordenar_por_longitud todos_caminos) k)
        end
      end
    end.

(** * Example networks and the predicates of the properties *)

(** The reference network of [simulador.py]. *)
Definition e1 := Enlace.mk 1 2 5.
Definition e2 := Enlace.mk 1 4 3.
Definition e3 := Enlace.mk 1 3 4.
Definition e4 := Enlace.mk 2 4 3.
Definition e5 := Enlace.mk 3 4 1.

Definition k1 : Commodity.t :=
  Commodity.mk 1 4 4 [Path.mk [e1; e4] 0; Path.mk [e2] 0; Path.mk [e3; e5] 0].
Definition k2 : Commodity.t :=
  Commodity.mk 2 4 3 [Path.mk [e4] 0; Path.mk [e1; e2] 0; Path.mk [e1; e3; e5] 0].

(** One commodity of requirement 10 over two parallel links of capacity 1
    and 2: after the uniform split both links carry 5, past 99% of their
    capacity. *)
Definition k_saturado : Commodity.t :=
  Commodity.mk 1 2 10 [Path.mk [Enlace.mk 1 2 1] 0; Path.mk [Enlace.mk 1 2 2] 0].

(** Two results are within [tol] of each other. *)
Definition ramas_cercanas (tol : Q) (a b : resultado Q) : Prop :=
  exists x y, a = Ok x /\ b = Ok y /\ Qabs (x - y) <= tol.

(** [c'] is [c] after the uniform split: every path carries
    [requirement / num_paths]. *)
Definition repartido (c c' : Commodity.t) : Prop :=
  Commodity.source c' = Commodity.source c
  /\ Commodity.target c' = Commodity.target c
  /\ Commodity.requirement c' = Commodity.requirement c
  /\ Forall2
       (fun p p' =>
          Path.enlaces p' = Path.enlaces p
          /\ Path.trafico p' =
             Commodity.requirement c / inject_Z (Z.of_nat (length (Commodity.paths c))))
       (Commodity.paths c) (Commodity.paths c').

Definition con_paths_definidos (c : Commodity.t) : Prop := Commodity.paths c <> [].

(** The three collections of the ledger have [n] entries each. *)
Definition entradas (it : Iteraciones) (n : nat) : Prop :=
  length (flujo_total it) = n /\ length (costes_path it) = n
  /\ length (shortest_paths it) = n.

(** Every path of the commodity carries a traffic [>= 0]. *)
Definition trafico_no_negativo (c : Commodity.t) : Prop :=
  Forall (fun p => 0 <= Path.trafico p) (Commodity.paths c).

Definition suma_Q (l : list Q) : Q := fold_right Qplus 0 l.

(** How many times the link [e], compared by value, occurs in the link
    sequence of [p]. *)
Definition ocurrencias (e : Enlace.t) (p : Path.t) : nat :=
  length (filter (fun x => py_eqb x e) (Path.enlaces p)).

Definition contiene (p : Path.t) (e : Enlace.t) : bool :=
  existsb (fun x => py_eqb x e) (Path.enlaces p).

Definition sin_enlaces_repetidos (p : Path.t) : Prop :=
  forall e, (ocurrencias e p <= 1)%nat.

(** The sum of the traffic of every path, across all commodities, once for
    each occurrence of [e] in its link sequence. *)
Definition flujo_con_multiplicidad (cs : list Commodity.t) (e : Enlace.t) : Q :=
  suma_Q (map (fun c =>
                 suma_Q (map (fun p => inject_Z (Z.of_nat (ocurrencias e p)) * Path.trafico p)
                           (Commodity.paths c)))
            cs).

(** The sum of the traffic of every path, across all commodities, whose
    link sequence contains [e]. *)
Definition flujo_de_paths_con (cs : list Commodity.t) (e : Enlace.t) : Q :=
  suma_Q (map (fun c =>
                 suma_Q (map (fun p => if contiene p e then Path.trafico p else 0)
                           (Commodity.paths c)))
            cs).

(** A walk 1 -> 2 -> 1 -> 2 that uses the link 1 -> 2 twice. *)
Definition k_vuelta : Commodity.t :=
  Commodity.mk 1 2 1 [Path.mk [Enlace.mk 1 2 5; Enlace.mk 2 1 5; Enlace.mk 1 2 5] 0].

(** The cost of a path: the sum of [f_prima] along its links. *)
Definition coste_de_path (flujo : dict Enlace.t Q) (p : Path.t) : resultado Q :=
  para_cada (coste_enlace flujo) (Path.enlaces p) 0.

(** Two commodities that are distinct objects and equal by value, the first
    with one path and the second with two. *)
Definition k_gemelo_a : Commodity.t := Commodity.mk 1 4 4 [Path.mk [e2] 0].
Definition k_gemelo_b : Commodity.t :=
  Commodity.mk 1 4 4 [Path.mk [e3; e5] 2; Path.mk [e1; e4] 2].

(** The ordinals of the cost maps of the ledger start at 1, as
    [enumerate(..., start=1)] produces them, and each map is a dict. *)
Definition costes_validos (costes : dict (Commodity.t * nat) Q) : Prop :=
  dict_wf costes /\ Forall (fun kv => (1 <= snd (fst kv))%nat) costes.

Definition ledger_valido (it : Iteraciones) : Prop :=
  Forall costes_validos (costes_path it).

(** The ordinals of the paths that are not the reference path, in the order
    of the loop. *)
Definition no_referencia (costes_commodity : dict nat Q) (path_minimo_id : nat) : list nat :=
  filter (fun path_id => negb (path_id =? path_minimo_id)%nat) (claves costes_commodity).

(** The traffic of the path of ordinal [path_id], [0] if there is none. *)
Definition trafico_en (paths : list Path.t) (path_id : nat) : Q :=
  match nth_error paths (path_id - 1) with
  | Some p => Path.trafico p
  | None => 0
  end.

(** No link value occurs twice in [l]. *)
Definition sin_repetidos (l : list Enlace.t) : Prop :=
  forall e, (length (filter (fun x => py_eqb x e) l) <= 1)%nat.

(** The ordinals of the paths of [c] other than the reference path. *)
Definition otros_paths (c : Commodity.t) (path_minimo_id : nat) : list nat :=
  filter (fun path_id => negb (path_id =? path_minimo_id)%nat)
    (seq 1 (length (Commodity.paths c))).

(** The reference network after the first pass of the loop. *)
Definition ejemplo_estado : list Commodity.t * Iteraciones :=
  estado (bucle (seq 0 1) ([k1; k2], iteraciones_vacias)).

Definition simple (camino : list Enlace.t) : Prop := NoDup (nodos_de camino).

(** [target] can be reached from [source] along links of [enlaces]. *)
Inductive alcanzable (enlaces : list Enlace.t) (source : Z) : Z -> Prop :=
| alcanzable_origen : alcanzable enlaces source source
| alcanzable_paso (e : Enlace.t) :
    alcanzable enlaces source (Enlace.source e) -> In e enlaces ->
    alcanzable enlaces source (Enlace.target e).

Definition ordenado_por_longitud (l : list (list Enlace.t)) : Prop :=
  Sorted (fun a b => (length a <= length b)%nat) l.

Definition sin_bucles (enlaces : list Enlace.t) : Prop :=
  forall e, In e enlaces -> Enlace.source e <> Enlace.target e.

(** The links of the reference network, and a network with a link from a
    node to itself. *)
Definition red_referencia : list Enlace.t := [e1; e2; e3; e4; e5].
Definition red_con_bucle : list Enlace.t := [Enlace.mk 1 1 5; Enlace.mk 1 2 5].

(** Every entry of the adjacency dict comes from a link of [enlaces] that
    leaves the node. *)
Definition grafo_de (enlaces : list Enlace.t) (grafo : dict Z (list (Z * Enlace.t))) : Prop :=
  forall nodo vecinos,
    dict_get nodo grafo = Some vecinos ->
    Forall (fun ve => In (snd ve) enlaces
                      /\ Enlace.source (snd ve) = nodo
                      /\ Enlace.target (snd ve) = fst ve) vecinos.

(** The nodes of [enlaces] that the traversal has not reached yet, each
    counted once per link that enters it. *)
Definition pendientes (enlaces : list Enlace.t) (distancias : dict Z nat) : nat :=
  length (filter (fun e => match dict_get (Enlace.target e) distancias with
                           | Some _ => false
                           | None => true
                           end) enlaces).

(** The nodes that the traversal has recorded or queued can be reached. *)
Definition todos_alcanzables (enlaces : list Enlace.t) (source : Z)
  (distancias : dict Z nat) (queue : list (Z * nat)) : Prop :=
  (forall n, dict_get n distancias <> None -> alcanzable enlaces source n)
  /\ Forall (fun nd => alcanzable enlaces source (fst nd)) queue.

(** [camino] leads from [source] to [nodo]: consecutive links meet. *)
Definition en_camino (source nodo : Z) (camino : list Enlace.t) : Prop :=
  map Enlace.source camino ++ [nodo] = source :: map Enlace.target camino.

(** What both discovery functions promise about their result [r]. *)
Definition descubrimiento (source target : Z) (enlaces : list Enlace.t) (k : Z)
  (r : list (list Enlace.t)) : Prop :=
  (source = target -> r = [[]])
  /\ (r = [[]] -> source = target)
  /\ (~ alcanzable enlaces source target -> r = [])
  /\ ((0 <= k)%Z -> source <> target \/ (1 <= k)%Z -> (Z.of_nat (length r) <= k)%Z)
  /\ ordenado_por_longitud r.

(** * Further predicates *)

(** [c] is a walk from [source] to [nodo] along links of [enlaces]. *)
Definition camino_en (enlaces : list Enlace.t) (source nodo : Z) (c : list Enlace.t)
  : Prop :=
  en_camino source nodo c /\ Forall (fun e => In e enlaces) c.

(** Every recorded distance of [d] is recorded in [d'] too. *)
Definition extiende (d d' : dict Z nat) : Prop :=
  forall v x, dict_get v d = Some x -> dict_get v d' = Some x.

(** The links that leave [v] lead to recorded nodes, at most one hop
    further than [x]. *)
Definition cerrado (enlaces : list Enlace.t) (d : dict Z nat) (v : Z) (x : nat) : Prop :=
  forall e, In e enlaces -> Enlace.source e = v ->
            exists x', dict_get (Enlace.target e) d = Some x' /\ (x' <= S x)%nat.

(** The invariant of the breadth-first traversal that makes the recorded
    distances minimal. *)
Definition bfs_niveles (enlaces : list Enlace.t) (source target : Z)
  (d : dict Z nat) (queue : list (Z * nat)) : Prop :=
  dict_get source d = Some 0%nat
  /\ (forall v x, dict_get v d = Some x ->
                  v = target \/ In v (map fst queue) \/ cerrado enlaces d v x)
  /\ Forall (fun nd => dict_get (fst nd) d = Some (snd nd)) queue
  /\ Sorted (fun a b : Z * nat => (snd a <= snd b)%nat) queue
  /\ (forall v x, dict_get v d = Some x ->
                  match queue with
                  | [] => True
                  | nd :: _ => (x <= S (snd nd))%nat
                  end).

(** The invariant of the breadth-first traversal that gives every recorded
    node a simple walk of the recorded length, through recorded nodes. *)
Definition bfs_caminos (enlaces : list Enlace.t) (source : Z) (d : dict Z nat) : Prop :=
  forall v x, dict_get v d = Some x ->
    exists c, camino_en enlaces source v c
              /\ length c = x
              /\ NoDup (map Enlace.source c ++ [v])
              /\ forall n, In n (map Enlace.source c ++ [v]) -> dict_get n d <> None.

(** What the inner loop of the traversal keeps while it visits the
    neighbours of [v], which was popped with the distance [b]. *)
Definition bfs_visitando (enlaces : list Enlace.t) (source target : Z) (v : Z) (b : nat)
  (st : dict Z nat * list (Z * nat)) : Prop :=
  dict_get source (fst st) = Some 0%nat
  /\ (forall u x, dict_get u (fst st) = Some x ->
                  u = target \/ In u (v :: map fst (snd st))
                  \/ cerrado enlaces (fst st) u x)
  /\ Forall (fun nd => dict_get (fst nd) (fst st) = Some (snd nd)) (snd st)
  /\ dict_get v (fst st) = Some b
  /\ Sorted (fun a c : Z * nat => (snd a <= snd c)%nat) (snd st)
  /\ Forall (fun nd => (b <= snd nd <= S b)%nat) (snd st)
  /\ (forall u x, dict_get u (fst st) = Some x -> (x <= S b)%nat).

(** * Further predicates for the engine *)



(** [c'] is [c] up to the traffic of its paths: the same source, target and
    requirement, and paths with the same link sequences. *)
Definition misma_estructura (c c' : Commodity.t) : Prop :=
  Commodity.source c' = Commodity.source c
  /\ Commodity.target c' = Commodity.target c
  /\ Commodity.requirement c' = Commodity.requirement c
  /\ map Path.enlaces (Commodity.paths c') = map Path.enlaces (Commodity.paths c).





(** The ledger [it'] is the ledger [it] with entries appended, as many to
    each collection. *)
Definition ampliado (it it' : Iteraciones) : Prop :=
  exists f c s,
    flujo_total it' = flujo_total it ++ f
    /\ costes_path it' = costes_path it ++ c
    /\ shortest_paths it' = shortest_paths it ++ s
    /\ length f = length c /\ length c = length s.

(** * simulador_fat_tree.py and simulador_access_network.py *)







(** * ring_topology.py: the generators *)

(** [range(a, b)] *)
Definition py_range (a b : Z) : list Z :=
  map (fun i => (a + Z.of_nat i)%Z) (seq 0 (Z.to_nat (b - a))).

(** [a % b] on Python ints: the result has the sign of [b], as [Z.modulo]
    has, and a zero [b] raises. *)
Definition py_mod (a b : Z) : resultado Z :=
  if (b =? 0)%Z then Raise ZeroDivisionError else Ok (a mod b)%Z.

(** The body of [for i in range(num_nodes)] of [generar_anillo_simple]. *)
Definition enlaces_del_nodo (num_nodes node_offset : Z) (capacity : Q)
  (bidirectional : bool) (enlaces : list Enlace.t) (i : Z) : resultado (list Enlace.t) :=
  let source := (node_offset + i)%Z in
  r <- py_mod (i + 1) num_nodes ;;
  let target := (node_offset + r)%Z in
  let enlaces := enlaces ++ [Enlace.mk source target capacity] in
  Ok (if bidirectional then enlaces ++ [Enlace.mk target source capacity] else enlaces).

Definition generar_anillo_simple (ring_id num_nodes node_offset : Z) (capacity : Q)
  (bidirectional : bool) : resultado (list Enlace.t) :=
  para_cada (enlaces_del_nodo num_nodes node_offset capacity bidirectional)
    (py_range 0 num_nodes) [].

(** The links that leave the [i]-th node of a ring towards its successor,
    and back when the ring is bidirectional. *)
Definition enlaces_de_anillo (num_nodes node_offset : Z) (capacity : Q)
  (bidirectional : bool) (i : Z) : list Enlace.t :=
  let source := (node_offset + i)%Z in
  let target := (node_offset + (i + 1) mod num_nodes)%Z in
  Enlace.mk source target capacity
  :: (if bidirectional then [Enlace.mk target source capacity] else []).

(** The dict [info] that [generar_red_acceso_agregacion] returns. *)
Module InfoRed.
Record t : Type := mk {
  num_access_rings : Z;
  nodes_per_ring : Z;
  total_access_nodes : Z;
  num_agg_nodes : Z;
  access_nodes : list Z;
  agg_nodes : list Z;
  num_enlaces : nat;
  access_capacity : Q;
  uplink_capacity : Q;
  agg_capacity : Q
}.
End InfoRed.

(** Step 1, the body of [for ring_id in range(num_access_rings)]:
    [enlaces.extend(ring_enlaces)]. *)
Definition agregar_anillo (nodes_per_ring : Z) (access_capacity : Q)
  (enlaces : list Enlace.t) (ring_id : Z) : resultado (list Enlace.t) :=
  let node_offset := (ring_id * nodes_per_ring)%Z in
  ring_enlaces <- generar_anillo_simple ring_id nodes_per_ring node_offset
                    access_capacity true ;;
  Ok (enlaces ++ ring_enlaces).

(** Step 2, the body of [for i in range(connections_per_ring)]. *)
Definition conectar_gateway (ring_id gateway_node connections_per_ring num_agg_nodes : Z)
  (agg_nodes : list Z) (uplink_capacity : Q) (enlaces : list Enlace.t) (i : Z)
  : resultado (list Enlace.t) :=
  agg_idx <- py_mod (ring_id * connections_per_ring + i) num_agg_nodes ;;
  agg_node <- py_index agg_nodes agg_idx ;;
  Ok (enlaces ++ [Enlace.mk gateway_node agg_node uplink_capacity;
                  Enlace.mk agg_node gateway_node uplink_capacity]).

(** Step 2, the body of [for ring_id in range(num_access_rings)]. *)
Definition conectar_anillo (nodes_per_ring connections_per_ring num_agg_nodes : Z)
  (agg_nodes : list Z) (uplink_capacity : Q) (enlaces : list Enlace.t) (ring_id : Z)
  : resultado (list Enlace.t) :=
  let gateway_node := (ring_id * nodes_per_ring)%Z in
  para_cada
    (conectar_gateway ring_id gateway_node connections_per_ring num_agg_nodes agg_nodes
       uplink_capacity)
    (py_range 0 connections_per_ring) enlaces.

(** Step 3, the body of [for i, agg_node_i in enumerate(agg_nodes)]; the
    slice [agg_nodes[i+1:]] is [skipn (i + 1)] since [i >= 0]. *)
Definition malla_desde (agg_nodes : list Z) (agg_capacity : Q)
  (enlaces : list Enlace.t) (ia : nat * Z) : list Enlace.t :=
  let (i, agg_node_i) := ia in
  fold_left
    (fun enlaces agg_node_j =>
       enlaces ++ [Enlace.mk agg_node_i agg_node_j agg_capacity;
                   Enlace.mk agg_node_j agg_node_i agg_capacity])
    (skipn (i + 1) agg_nodes) enlaces.

Definition generar_red_acceso_agregacion
  (num_access_rings nodes_per_ring num_agg_nodes : Z)
  (access_capacity uplink_capacity agg_capacity : Q) (connections_per_ring : Z)
  : resultado (list Enlace.t * InfoRed.t) :=
  let total_access_nodes := (num_access_rings * nodes_per_ring)%Z in
  let agg_node_offset := total_access_nodes in
  let access_nodes := py_range 0 total_access_nodes in
  let agg_nodes := py_range agg_node_offset (agg_node_offset + num_agg_nodes) in
  enlaces <- para_cada (agregar_anillo nodes_per_ring access_capacity)
               (py_range 0 num_access_rings) [] ;;
  enlaces <- para_cada
               (conectar_anillo nodes_per_ring connections_per_ring num_agg_nodes
                  agg_nodes uplink_capacity)
               (py_range 0 num_access_rings) enlaces ;;
  let enlaces := fold_left (malla_desde agg_nodes agg_capacity)
                   (enumerate agg_nodes 0) enlaces in
  Ok (enlaces,
      InfoRed.mk num_access_rings nodes_per_ring total_access_nodes num_agg_nodes
        access_nodes agg_nodes (length enlaces)
        access_capacity uplink_capacity agg_capacity).

(** * fat_tree_topology.py: the random pairs *)

(** [random.randint(a, b)].  The state of the generator, which
    [random.seed(seed)] sets, is a stream [azar] of integers and the
    position [n] of the next one; an empty range raises [ValueError]. *)
Definition randint (azar : nat -> Z) (n : nat) (a b : Z) : resultado Z :=
  if (b <? a)%Z then Raise ValueError else Ok (a + azar n mod (b - a + 1))%Z.

(** [while len(pares) < num_flows and intentos < max_intentos: ...] of
    [generar_pares_aleatorios], one pass for each unit of [fuel]; [None]
    when the fuel runs out before the loop is left. *)
Fixpoint generar_pares_bucle (fuel : nat) (azar : nat -> Z)
  (num_hosts num_flows max_intentos : Z) (pares : list (Z * Z)) (intentos : Z) (n : nat)
  : option (resultado (list (Z * Z))) :=
  if ((Z.of_nat (length pares) <? num_flows) && (intentos <? max_intentos))%Z then
    match fuel with
    | O => None
    | S fuel' =>
      match randint azar n 0 (num_hosts - 1) with
      | Raise e => Some (Raise e)
      | Ok source =>
        match randint azar (S n) 0 (num_hosts - 1) with
        | Raise e => Some (Raise e)
        | Ok target =>
          let pares' :=
            if negb (source =? target)%Z && negb (existsb (py_eqb (source, target)) pares)
            then pares ++ [(source, target)]
            else pares in
          generar_pares_bucle fuel' azar num_hosts num_flows max_intentos pares'
            (intentos + 1) (S (S n))
        end
      end
    end
  else Some (Ok pares).

Definition generar_pares_aleatorios (azar : nat -> Z) (num_hosts num_flows : Z)
  : option (resultado (list (Z * Z))) :=
  let max_intentos := (num_flows * 100)%Z in
  generar_pares_bucle (Z.to_nat max_intentos) azar num_hosts num_flows max_intentos
    [] 0 0.

(** What the pairs of [generar_pares_aleatorios] satisfy: no pair twice, at
    most [num_flows] of them, each of two different hosts. *)
Definition pares_validos (num_hosts num_flows : Z) (pares : list (Z * Z)) : Prop :=
  NoDup pares
  /\ (Z.of_nat (length pares) <= Z.max 0 num_flows)%Z
  /\ Forall (fun p => fst p <> snd p
                      /\ (0 <= fst p < num_hosts)%Z /\ (0 <= snd p < num_hosts)%Z) pares.

(** * fat_tree_topology.py: the generator *)

(** [l[a:b]] for Python ints [a] and [b]: a negative index counts from the
    end, and both are clipped to the list. *)
Definition py_slice {A : Type} (l : list A) (a b : Z) : list A :=
  let n := Z.of_nat (length l) in
  let norm := fun x : Z => if (x <? 0)%Z then Z.max 0 (n + x) else Z.min x n in
  firstn (Z.to_nat (norm b - norm a)) (skipn (Z.to_nat (norm a)) l).

(** The dict of [numerar_nodos_fat_tree], each [range] as the list that
    [generar_fat_tree] makes of it. *)
Module NodosFatTree.
Record t : Type := mk { hosts : list Z; edge : list Z; agg : list Z; core : list Z }.
End NodosFatTree.

Definition numerar_nodos_fat_tree (k : Z) : NodosFatTree.t :=
  let num_hosts := (k ^ 3 / 4)%Z in
  let num_edge := (k ^ 2 / 2)%Z in
  let num_agg := (k ^ 2 / 2)%Z in
  let num_core := (k ^ 2 / 4)%Z in
  NodosFatTree.mk
    (py_range 0 num_hosts)
    (py_range num_hosts (num_hosts + num_edge))
    (py_range (num_hosts + num_edge) (num_hosts + num_edge + num_agg))
    (py_range (num_hosts + num_edge + num_agg)
       (num_hosts + num_edge + num_agg + num_core)).

(** The dict [info] that [generar_fat_tree] returns. *)
Module InfoFatTree.
Record t : Type := mk {
  k : Z;
  num_hosts : nat;
  num_edge : nat;
  num_agg : nat;
  num_core : nat;
  num_enlaces : nat;
  nodos : NodosFatTree.t
}.
End InfoFatTree.

(** The two appends of a bidirectional link. *)
Definition agregar_bidireccional (capacity : Q) (a : Z) (enlaces : list Enlace.t) (b : Z)
  : list Enlace.t :=
  enlaces ++ [Enlace.mk a b capacity; Enlace.mk b a capacity].

(** The body of [for j in range(hosts_per_edge)]. *)
Definition conectar_host (hosts : list Z) (host_start_idx edge_sw : Z) (capacity : Q)
  (enlaces : list Enlace.t) (j : Z) : resultado (list Enlace.t) :=
  host <- py_index hosts (host_start_idx + j) ;;
  Ok (enlaces ++ [Enlace.mk host edge_sw capacity; Enlace.mk edge_sw host capacity]).

(** The body of [for i, edge_sw in enumerate(pod_edge_switches)]. *)
Definition conectar_hosts (hosts : list Z) (pod switches_per_pod hosts_per_edge : Z)
  (capacity : Q) (enlaces : list Enlace.t) (ie : nat * Z) : resultado (list Enlace.t) :=
  let (i, edge_sw) := ie in
  let host_start_idx :=
    (pod * switches_per_pod * hosts_per_edge + Z.of_nat i * hosts_per_edge)%Z in
  para_cada (conectar_host hosts host_start_idx edge_sw capacity)
    (py_range 0 hosts_per_edge) enlaces.

(** The body of the first [for pod in range(num_pods)]. *)
Definition enlaces_del_pod (hosts edge_switches agg_switches : list Z)
  (switches_per_pod hosts_per_edge : Z) (capacity : Q)
  (enlaces : list Enlace.t) (pod : Z) : resultado (list Enlace.t) :=
  let edge_start_idx := (pod * switches_per_pod)%Z in
  let edge_end_idx := (edge_start_idx + switches_per_pod)%Z in
  let pod_edge_switches := py_slice edge_switches edge_start_idx edge_end_idx in
  let agg_start_idx := (pod * switches_per_pod)%Z in
  let agg_end_idx := (agg_start_idx + switches_per_pod)%Z in
  let pod_agg_switches := py_slice agg_switches agg_start_idx agg_end_idx in
  enlaces <- para_cada
               (conectar_hosts hosts pod switches_per_pod hosts_per_edge capacity)
               (enumerate pod_edge_switches 0) enlaces ;;
  Ok (fold_left
        (fun enlaces edge_sw =>
           fold_left (agregar_bidireccional capacity edge_sw) pod_agg_switches enlaces)
        pod_edge_switches enlaces).

(** The body of [for j in range(switches_per_pod)] of the second loop. *)
Definition conectar_core (agg_switches core_switches : list Z)
  (agg_start_idx switches_per_pod : Z) (capacity : Q)
  (enlaces : list Enlace.t) (j : Z) : resultado (list Enlace.t) :=
  agg_sw <- py_index agg_switches (agg_start_idx + j) ;;
  let core_start := (j * switches_per_pod)%Z in
  let core_end := (core_start + switches_per_pod)%Z in
  Ok (fold_left (agregar_bidireccional capacity agg_sw)
        (py_slice core_switches core_start core_end) enlaces).

(** The body of the second [for pod in range(num_pods)]. *)
Definition enlaces_al_core (agg_switches core_switches : list Z) (switches_per_pod : Z)
  (capacity : Q) (enlaces : list Enlace.t) (pod : Z) : resultado (list Enlace.t) :=
  let agg_start_idx := (pod * switches_per_pod)%Z in
  para_cada (conectar_core agg_switches core_switches agg_start_idx switches_per_pod
               capacity)
    (py_range 0 switches_per_pod) enlaces.

Definition generar_fat_tree (k : Z) (capacity : Q)
  : resultado (list Enlace.t * InfoFatTree.t) :=
  if negb (k mod 2 =? 0)%Z then Raise ValueError
  else
    let nodos := numerar_nodos_fat_tree k in
    let hosts := NodosFatTree.hosts nodos in
    let edge_switches := NodosFatTree.edge nodos in
    let agg_switches := NodosFatTree.agg nodos in
    let core_switches := NodosFatTree.core nodos in
    let num_pods := k in
    let switches_per_pod := (k / 2)%Z in
    let hosts_per_edge := (k / 2)%Z in
    enlaces <- para_cada
                 (enlaces_del_pod hosts edge_switches agg_switches switches_per_pod
                    hosts_per_edge capacity)
                 (py_range 0 num_pods) [] ;;
    enlaces <- para_cada
                 (enlaces_al_core agg_switches core_switches switches_per_pod capacity)
                 (py_range 0 num_pods) enlaces ;;
    Ok (enlaces,
        InfoFatTree.mk k (length hosts) (length edge_switches) (length agg_switches)
          (length core_switches) (length enlaces) nodos).

(** * ring_topology.py: the strategic pairs *)

(** [int(x)] of a float: the integer part, towards zero. *)
Definition py_int (x : Q) : Z := Z.quot (Qnum x) (Z.pos (Qden x)).

(** The first [while] of [generar_commodities_estrategicos], which draws
    both nodes of a pair from one ring; it returns the pairs and the
    position that the random generator has reached. *)
Fixpoint intra_ring_bucle (fuel : nat) (azar : nat -> Z)
  (num_access_rings nodes_per_ring num_intra_ring max_intentos : Z)
  (pares : list (Z * Z)) (intentos : Z) (n : nat)
  : option (resultado (list (Z * Z) * nat)) :=
  if ((Z.of_nat (length pares) <? num_intra_ring) && (intentos <? max_intentos))%Z then
    match fuel with
    | O => None
    | S fuel' =>
      match randint azar n 0 (num_access_rings - 1) with
      | Raise e => Some (Raise e)
      | Ok ring_id =>
        let ring_start := (ring_id * nodes_per_ring)%Z in
        let ring_end := (ring_start + nodes_per_ring)%Z in
        match randint azar (S n) ring_start (ring_end - 1) with
        | Raise e => Some (Raise e)
        | Ok source =>
          match randint azar (S (S n)) ring_start (ring_end - 1) with
          | Raise e => Some (Raise e)
          | Ok target =>
            let pares' :=
              if negb (source =? target)%Z
                 && negb (existsb (py_eqb (source, target)) pares)
              then pares ++ [(source, target)]
              else pares in
            intra_ring_bucle fuel' azar num_access_rings nodes_per_ring num_intra_ring
              max_intentos pares' (intentos + 1) (S (S (S n)))
          end
        end
      end
    end
  else Some (Ok (pares, n)).

(** The second [while], which draws the two nodes from different rings and
    goes on to the next attempt when the two rings drawn are the same. *)
Fixpoint inter_ring_bucle (fuel : nat) (azar : nat -> Z)
  (num_access_rings nodes_per_ring num_commodities max_intentos : Z)
  (pares : list (Z * Z)) (intentos : Z) (n : nat)
  : option (resultado (list (Z * Z))) :=
  if ((Z.of_nat (length pares) <? num_commodities) && (intentos <? max_intentos))%Z then
    match fuel with
    | O => None
    | S fuel' =>
      match randint azar n 0 (num_access_rings - 1) with
      | Raise e => Some (Raise e)
      | Ok ring_id_1 =>
        match randint azar (S n) 0 (num_access_rings - 1) with
        | Raise e => Some (Raise e)
        | Ok ring_id_2 =>
          if (ring_id_1 =? ring_id_2)%Z then
            inter_ring_bucle fuel' azar num_access_rings nodes_per_ring num_commodities
              max_intentos pares (intentos + 1) (S (S n))
          else
            let ring_start_1 := (ring_id_1 * nodes_per_ring)%Z in
            let ring_end_1 := (ring_start_1 + nodes_per_ring)%Z in
            let ring_start_2 := (ring_id_2 * nodes_per_ring)%Z in
            let ring_end_2 := (ring_start_2 + nodes_per_ring)%Z in
            match randint azar (S (S n)) ring_start_1 (ring_end_1 - 1) with
            | Raise e => Some (Raise e)
            | Ok source =>
              match randint azar (S (S (S n))) ring_start_2 (ring_end_2 - 1) with
              | Raise e => Some (Raise e)
              | Ok target =>
                let pares' :=
                  if negb (existsb (py_eqb (source, target)) pares)
                  then pares ++ [(source, target)]
                  else pares in
                inter_ring_bucle fuel' azar num_access_rings nodes_per_ring
                  num_commodities max_intentos pares' (intentos + 1)
                  (S (S (S (S n))))
              end
            end
        end
      end
    end
  else Some (Ok pares).

(** [azar] is the state of the random generator once [random.seed(seed)]
    has or has not been called; [requirement] is not read, as in the
    source. *)
Definition generar_commodities_estrategicos (azar : nat -> Z) (num_commodities : Z)
  (info : InfoRed.t) (requirement intra_ring_ratio : Q)
  : option (resultado (list (Z * Z))) :=
  let nodes_per_ring := InfoRed.nodes_per_ring info in
  let num_access_rings := InfoRed.num_access_rings info in
  let num_intra_ring := py_int (inject_Z num_commodities * intra_ring_ratio) in
  let num_inter_ring := (num_commodities - num_intra_ring)%Z in
  let max_intentos := (num_intra_ring * 100)%Z in
  match intra_ring_bucle (Z.to_nat max_intentos) azar num_access_rings nodes_per_ring
          num_intra_ring max_intentos [] 0 0 with
  | None => None
  | Some (Raise e) => Some (Raise e)
  | Some (Ok (pares, n)) =>
    let max_intentos := (num_inter_ring * 100)%Z in
    inter_ring_bucle (Z.to_nat max_intentos) azar num_access_rings nodes_per_ring
      num_commodities max_intentos pares 0 n
  end.

(** Both nodes of the pair are access nodes of a network of
    [num_access_rings] rings of [nodes_per_ring] nodes. *)
Definition par_de_acceso (num_access_rings nodes_per_ring : Z) (p : Z * Z) : Prop :=
  (0 <= fst p < num_access_rings * nodes_per_ring)%Z
  /\ (0 <= snd p < num_access_rings * nodes_per_ring)%Z.

(** The ring of the access node [x]. *)
Definition anillo_de (nodes_per_ring x : Z) : Z := (x / nodes_per_ring)%Z.

(** * funciones.py: the cost of each link *)






(** * Properties *)

(** ** Loops *)

Lemma para_cada_app {A S : Type} (f : S -> A -> resultado S) (l1 l2 : list A) (s : S) :
  para_cada f (l1 ++ l2) s = (s1 <- para_cada f l1 s ;; para_cada f l2 s1).
Proof.
  revert s. induction l1 as [|a l1 IH]; intros s; simpl; [reflexivity|].
  destruct (f s a); simpl; auto.
Qed.

Lemma para_cada_ef_app {A S : Type} (f : S -> A -> efecto S) (l1 l2 : list A) (s : S) :
  para_cada_ef f (l1 ++ l2) s =
  match para_cada_ef f l1 s with
  | Fin s1 => para_cada_ef f l2 s1
  | Aborta e s1 => Aborta e s1
  end.
Proof.
  revert s. induction l1 as [|a l1 IH]; intros s; simpl; [reflexivity|].
  destruct (f s a); simpl; auto.
Qed.

(** An invariant of the state that every pass keeps, whether the pass
    returns or raises, holds when the loop is left. *)
Lemma para_cada_ef_inv {A S : Type} (P : S -> Prop) (f : S -> A -> efecto S) :
  (forall s a, P s -> P (estado (f s a))) ->
  forall l s, P s -> P (estado (para_cada_ef f l s)).
Proof.
  intros Hf l. induction l as [|a l IH]; intros s Hs; simpl; [exact Hs|].
  specialize (Hf s a Hs). destruct (f s a) as [s'|e s']; simpl in *; auto.
Qed.

Lemma para_cada_commodity_inv (P : Commodity.t -> Prop)
  (f : Commodity.t -> efecto Commodity.t) :
  (forall c, P c -> P (estado (f c))) ->
  forall cs, Forall P cs -> Forall P (estado (para_cada_commodity f cs)).
Proof.
  intros Hf cs. induction cs as [|c cs IH]; intros Hcs; simpl; [constructor|].
  inversion Hcs as [|? ? Hc Hr]; subst.
  specialize (Hf c Hc). specialize (IH Hr).
  destruct (f c) as [c'|e c']; simpl in *.
  - destruct (para_cada_commodity f cs); simpl in *; constructor; auto.
  - constructor; auto.
Qed.

(** ** The cost model at the threshold (C7) *)

Lemma py_div_ok (a b : Q) : ~ b == 0 -> py_div a b = Ok (a / b).
Proof.
  intros Hb. unfold py_div. destruct (Qeq_bool b 0) eqn:E; [|reflexivity].
  apply Qeq_bool_eq in E. contradiction.
Qed.

Lemma py_div_cero (a b : Q) : b == 0 -> py_div a b = Raise ZeroDivisionError.
Proof.
  intros Hb. unfold py_div. now rewrite (Qeq_eq_bool _ _ Hb).
Qed.

Lemma Qgt_bool_true (x y : Q) : Qgt_bool x y = true <-> y < x.
Proof.
  unfold Qgt_bool. rewrite negb_true_iff. split; intros Hxy.
  - apply Qnot_le_lt. intros Hle. apply Qle_bool_iff in Hle. congruence.
  - destruct (Qle_bool x y) eqn:E; [|reflexivity].
    apply Qle_bool_iff in E. exfalso. apply (Qlt_not_le _ _ Hxy E).
Qed.

Lemma Qgt_bool_false (x y : Q) : Qgt_bool x y = false <-> x <= y.
Proof.
  unfold Qgt_bool. rewrite negb_false_iff. apply Qle_bool_iff.
Qed.

(** At the threshold itself the test [x > p * c] fails: the functions take
    their regular branch. *)
Lemma f_prima_en_umbral (c : Q) : f_prima c (0.99 * c) = f_prima_regular c (0.99 * c).
Proof.
  unfold f_prima. cbv zeta.
  replace (Qgt_bool (0.99 * c) (0.99 * c)) with false; [reflexivity|].
  symmetry. apply Qgt_bool_false. apply Qle_refl.
Qed.

(** C7, as the code has it: for every capacity [c > 0] the two branches of
    [f_prima] take the same value at [x = 0.99 c], while the two branches of
    [f_double_prima] are [2000000 / c^2] apart there: the regular branch
    gives [2000000 / c^2] and the saturated branch gives [0]. *)
Theorem C7_ramas_en_umbral (c : Q) (Hc : 0 < c) :
  ramas_cercanas 0 (f_prima_regular c (0.99 * c)) (f_prima_saturada c)
  /\ f_prima c (0.99 * c) = f_prima_regular c (0.99 * c)
  /\ exists h, f_double_prima_regular c (0.99 * c) = Ok h
               /\ f_double_prima_saturada = Ok 0
               /\ h - 0 == 2000000 / (c * c)
               /\ 0 < h - 0.
Proof.
  assert (Hc0 : ~ c == 0) by (intros E; rewrite E in Hc; discriminate).
  assert (Hd : ~ c - 0.99 * c == 0).
  { intros E. apply Hc0. lra. }
  assert (Hd2 : ~ (c - 0.99 * c) ^ 2 == 0).
  { change ((c - 0.99 * c) ^ 2) with ((c - 0.99 * c) * (c - 0.99 * c)).
    intros E. apply Qmult_integral in E. tauto. }
  assert (Hd3 : ~ (c - 0.99 * c) ^ 3 == 0).
  { change ((c - 0.99 * c) ^ 3)
      with ((c - 0.99 * c) * ((c - 0.99 * c) * (c - 0.99 * c))).
    intros E. apply Qmult_integral in E. destruct E as [E|E]; [tauto|].
    apply Qmult_integral in E. tauto. }
  assert (Hs : ~ c * (1 - 0.99) ^ 2 == 0).
  { intros E. apply Qmult_integral in E. destruct E as [E|E]; [tauto|discriminate]. }
  split; [|split].
  - unfold ramas_cercanas, f_prima_regular, f_prima_saturada. cbv zeta.
    rewrite (py_div_ok _ _ Hd2), (py_div_ok _ _ Hs).
    eexists; eexists; split; [reflexivity|split; [reflexivity|]].
    assert (E : c / (c - 0.99 * c) ^ 2 - 1 / (c * (1 - 0.99) ^ 2) == 0).
    { change ((c - 0.99 * c) ^ 2) with ((c - 0.99 * c) * (c - 0.99 * c)).
      change ((1 - 0.99) ^ 2) with ((1 - 0.99) * (1 - 0.99)).
      field. split; [exact Hc0|exact Hd]. }
    rewrite E. discriminate.
  - apply f_prima_en_umbral.
  - unfold f_double_prima_regular, f_double_prima_saturada.
    rewrite (py_div_ok _ _ Hd3).
    eexists; split; [reflexivity|split; [reflexivity|]].
    assert (E : 2 * c / (c - 0.99 * c) ^ 3 - 0 == 2000000 / (c * c)).
    { change ((c - 0.99 * c) ^ 3)
        with ((c - 0.99 * c) * ((c - 0.99 * c) * (c - 0.99 * c))).
      field. split; [exact Hc0|exact Hd]. }
    split; [exact E|]. rewrite E.
    apply Qlt_shift_div_l.
    + apply Qmult_lt_0_compat; exact Hc.
    + rewrite Qmult_0_l. reflexivity.
Qed.

Lemma C7_ramas_en_umbral_witness :
  ramas_cercanas 0 (f_prima_regular 100 (0.99 * 100)) (f_prima_saturada 100)
  /\ f_prima 100 (0.99 * 100) = f_prima_regular 100 (0.99 * 100)
  /\ exists h, f_double_prima_regular 100 (0.99 * 100) = Ok h
               /\ f_double_prima_saturada = Ok 0
               /\ h - 0 == 2000000 / (100 * 100)
               /\ 0 < h - 0.
Proof. apply (C7_ramas_en_umbral 100). reflexivity. Defined.

(** C7 as stated fails for [f_double_prima]: at capacity 1 the two branches
    are 2000000 apart at the threshold, not within a tolerance of 1. *)
Lemma C7_contraejemplo :
  ~ ramas_cercanas 1 (f_double_prima_regular 1 (0.99 * 1)) f_double_prima_saturada.
Proof.
  intros (x & y & Hx & Hy & Hxy).
  vm_compute in Hx. injection Hx as <-.
  unfold f_double_prima_saturada in Hy. injection Hy as <-.
  vm_compute in Hxy. apply Hxy. reflexivity.
Qed.

(** ** The ledger and the loop *)

Lemma bucle_cons (i : nat) (rango : list nat) (st : list Commodity.t * Iteraciones) :
  bucle (i :: rango) st =
  match iteracion i st with
  | Fin st' => bucle rango st'
  | Aborta e st' => Aborta e st'
  end.
Proof. reflexivity. Qed.

Lemma bucle_app (r1 r2 : list nat) (st : list Commodity.t * Iteraciones) :
  bucle (r1 ++ r2) st =
  match bucle r1 st with
  | Fin st' => bucle r2 st'
  | Aborta e st' => Aborta e st'
  end.
Proof. apply para_cada_ef_app. Qed.

(** A pass that returns appends one entry to each collection; a pass that
    raises appends none. *)
Lemma iteracion_entradas (i n : nat) (cs : list Commodity.t) (it : Iteraciones) :
  entradas it n ->
  match iteracion i (cs, it) with
  | Fin (_, it') => entradas it' (S n)
  | Aborta _ (_, it') => it' = it
  end.
Proof.
  intros (H1 & H2 & H3). unfold iteracion.
  destruct (if (i =? 0)%nat then _ else _) as [cs'|e cs']; [|reflexivity].
  destruct (calcular_coste_total_por_path _ _); [|reflexivity].
  unfold entradas, append_iteracion; simpl.
  rewrite !length_app; simpl. lia.
Qed.

Lemma bucle_entradas (rango : list nat) (n : nat) (cs : list Commodity.t)
  (it : Iteraciones) :
  entradas it n ->
  match bucle rango (cs, it) with
  | Fin (_, it') => entradas it' (n + length rango)
  | Aborta _ (_, it') => exists m, (m < length rango)%nat /\ entradas it' (n + m)
  end.
Proof.
  revert n cs it. induction rango as [|i r IH]; intros n cs it Hn.
  - simpl. now rewrite Nat.add_0_r.
  - rewrite bucle_cons. pose proof (iteracion_entradas i n cs it Hn) as Hi.
    destruct (iteracion i (cs, it)) as [[cs' it']|e [cs' it']].
    + specialize (IH (S n) cs' it' Hi).
      destruct (bucle r (cs', it')) as [[? ?]|? [? ?]].
      * simpl. now rewrite Nat.add_succ_r.
      * destruct IH as (m & Hm & Hit). exists (S m). simpl. split; [lia|].
        now rewrite Nat.add_succ_r.
    + subst it'. exists 0%nat. simpl. split; [lia|]. now rewrite Nat.add_0_r.
Qed.


(** ** Numeric degeneracy (C1, C8) *)

Lemma calculo_del_trafico_division_por_cero (t : nat) (x H d_kp d_kbeta : Q) :
  H == 0 ->
  calculo_del_trafico_para_la_siguiente_iteracion t x H d_kp d_kbeta
  = Raise ZeroDivisionError.
Proof.
  intros HH. unfold calculo_del_trafico_para_la_siguiente_iteracion.
  now rewrite (py_div_cero _ _ HH).
Qed.

(** C1, on the code: for the commodity [k_saturado] the curvature sum of
    path 1 against the reference path 2 is [0] at iteration 1, and
    [funcion_principal] raises [ZeroDivisionError] there instead of leaving
    the traffic of the path as it is and going on. *)
Theorem C1_degeneracion_aborta :
  exists cs it flujo p1 p2,
    bucle (seq 0 1) ([k_saturado], iteraciones_vacias) = Fin (cs, it)
    /\ flujo_total it = [flujo]
    /\ map Commodity.paths cs = [[p1; p2]]
    /\ calcular_H_kp p1 p2 flujo = Ok 0
    /\ iteracion 1 (cs, it) = Aborta ZeroDivisionError (cs, it)
    /\ funcion_principal [k_saturado] = Aborta ZeroDivisionError (cs, it).
Proof.
  do 5 eexists. split; [vm_compute; reflexivity|].
  split; [reflexivity|]. split; [reflexivity|].
  split; [vm_compute; reflexivity|].
  split; vm_compute; reflexivity.
Qed.

(** C8, on the code: with every commodity having a path, the run of
    [k_saturado] stops in iteration 1, with one entry in each collection of
    the ledger and not 200. *)
Theorem C8_parada_temprana :
  Forall con_paths_definidos [k_saturado]
  /\ exists e cs it,
       funcion_principal [k_saturado] = Aborta e (cs, it) /\ entradas it 1.
Proof.
  split.
  - repeat constructor. discriminate.
  - do 3 eexists. split; [vm_compute; reflexivity|]. repeat split.
Qed.

(** ** Initialization (C5) *)

Lemma con_trafico_todos (q : Q) (l : list Path.t) :
  Forall2 (fun p p' => Path.enlaces p' = Path.enlaces p /\ Path.trafico p' = q)
    l (map (Path.con_trafico q) l).
Proof.
  induction l; simpl; constructor; auto.
Qed.

Lemma distribuir_trafico_uniforme_ok (c : Commodity.t) :
  con_paths_definidos c ->
  exists c', distribuir_trafico_uniforme c = Fin c' /\ repartido c c'.
Proof.
  intros Hc. unfold distribuir_trafico_uniforme.
  destruct (length (Commodity.paths c) =? 0)%nat eqn:E.
  - apply Nat.eqb_eq in E. apply length_zero_iff_nil in E. now elim Hc.
  - eexists; split; [reflexivity|].
    unfold repartido, Commodity.con_paths; cbn [Commodity.source Commodity.target
      Commodity.requirement Commodity.paths].
    repeat split. apply con_trafico_todos.
Qed.

Lemma distribuir_trafico_uniforme_sin_paths (c : Commodity.t) :
  Commodity.paths c = [] -> distribuir_trafico_uniforme c = Aborta ValueError c.
Proof.
  intros E. unfold distribuir_trafico_uniforme. now rewrite E.
Qed.

Lemma inicializacion_ok (cs : list Commodity.t) :
  Forall con_paths_definidos cs ->
  exists cs', para_cada_commodity distribuir_trafico_uniforme cs = Fin cs'
              /\ Forall2 repartido cs cs'.
Proof.
  induction 1 as [|c cs Hc _ IH]; simpl.
  - exists []. split; [reflexivity|constructor].
  - destruct (distribuir_trafico_uniforme_ok c Hc) as (c' & -> & Hr).
    destruct IH as (cs' & -> & Hrs).
    exists (c' :: cs'). split; [reflexivity|constructor; assumption].
Qed.

Lemma inicializacion_aborta (pre post : list Commodity.t) (c : Commodity.t) :
  Forall con_paths_definidos pre ->
  Commodity.paths c = [] ->
  exists pre', para_cada_commodity distribuir_trafico_uniforme (pre ++ c :: post)
               = Aborta ValueError (pre' ++ c :: post)
               /\ Forall2 repartido pre pre'.
Proof.
  intros Hpre Hc. induction Hpre as [|c0 pre Hc0 _ IH]; simpl.
  - exists []. rewrite (distribuir_trafico_uniforme_sin_paths c Hc).
    split; [reflexivity|constructor].
  - destruct (distribuir_trafico_uniforme_ok c0 Hc0) as (c0' & -> & Hr).
    destruct IH as (pre' & -> & Hrs).
    exists (c0' :: pre'). split; [reflexivity|constructor; assumption].
Qed.

(** C5, as the code has it: when the commodities [pre] all have a path, the
    pass [i = 0] leaves each path of each of them with
    [requirement / num_paths]; and when they are followed by a commodity
    without paths, [funcion_principal] raises [ValueError] inside that first
    pass of the loop: the ledger is still empty, the commodities [pre] have
    already received their split, and the commodity without paths and the
    ones after it are as they were. *)
Theorem C5_inicializacion (pre : list Commodity.t) (Hpre : Forall con_paths_definidos pre) :
  (forall it, Forall2 repartido pre (fst (estado (iteracion 0 (pre, it)))))
  /\ (forall s t r post,
        exists pre',
          funcion_principal (pre ++ Commodity.mk s t r [] :: post)
          = Aborta ValueError (pre' ++ Commodity.mk s t r [] :: post, iteraciones_vacias)
          /\ Forall2 repartido pre pre').
Proof.
  split.
  - intros it. destruct (inicializacion_ok pre Hpre) as (cs' & E & Hr).
    unfold iteracion. simpl Nat.eqb. cbv iota. rewrite E.
    destruct (calcular_coste_total_por_path _ _); exact Hr.
  - intros s t r post.
    destruct (inicializacion_aborta pre post (Commodity.mk s t r []) Hpre eq_refl)
      as (pre' & E & Hr).
    exists pre'. split; [|exact Hr].
    unfold funcion_principal. change (seq 0 200) with (0%nat :: seq 1 199).
    rewrite bucle_cons. unfold iteracion. simpl Nat.eqb. cbv iota.
    now rewrite E.
Qed.

Lemma C5_inicializacion_witness :
  (forall it, Forall2 repartido [k1; k2] (fst (estado (iteracion 0 ([k1; k2], it)))))
  /\ (forall s t r post,
        exists pre',
          funcion_principal ([k1; k2] ++ Commodity.mk s t r [] :: post)
          = Aborta ValueError (pre' ++ Commodity.mk s t r [] :: post, iteraciones_vacias)
          /\ Forall2 repartido [k1; k2] pre').
Proof.
  apply (C5_inicializacion [k1; k2]).
  repeat constructor; discriminate.
Defined.

(** C5 as stated fails: the error is not raised before the loop starts.
    With a commodity of requirement 4 and one path, followed by a commodity
    without paths, the first commodity has been given its traffic when
    [ValueError] is raised. *)
Lemma C5_contraejemplo :
  let cs0 := [Commodity.mk 1 2 4 [Path.mk [e1] 0]; Commodity.mk 2 4 3 []] in
  exists cs it,
    funcion_principal cs0 = Aborta ValueError (cs, it)
    /\ cs <> cs0
    /\ map (fun c => map Path.trafico (Commodity.paths c)) cs = [[4 / 1]; []].
Proof.
  do 2 eexists. split; [vm_compute; reflexivity|].
  split; [discriminate|reflexivity].
Qed.

(** ** Traffic is never negative (C9) *)

Lemma list_set_Forall {A : Type} (P : A -> Prop) (f : A -> A) (l : list A) (n : nat) :
  (forall a, P (f a)) -> Forall P l -> Forall P (list_set l n f).
Proof.
  intros Hf Hl. revert n. induction Hl as [|a l Ha Hl IH]; intros n; simpl.
  - constructor.
  - destruct n; constructor; auto.
Qed.

Lemma calculo_del_trafico_no_negativo (t : nat) (x H d_kp d_kbeta v : Q) :
  calculo_del_trafico_para_la_siguiente_iteracion t x H d_kp d_kbeta = Ok v -> 0 <= v.
Proof.
  unfold calculo_del_trafico_para_la_siguiente_iteracion.
  destruct (py_div 0.001 H); simpl; [|discriminate].
  intros E; injection E as <-. apply Q.le_max_l.
Qed.

Lemma nuevo_trafico_de_no_negativo (it : Iteraciones) (i : nat) (paths : list Path.t)
  (m : nat) (d_kbeta : Q) (path_id : nat) (coste v : Q) :
  nuevo_trafico_de it i paths m d_kbeta path_id coste = Ok v -> 0 <= v.
Proof.
  unfold nuevo_trafico_de.
  destruct (py_index paths (Z.of_nat path_id - 1)); simpl; [|discriminate].
  destruct (py_index paths (Z.of_nat m - 1)); simpl; [|discriminate].
  destruct (py_index (flujo_total it) (Z.of_nat i - 1)); simpl; [|discriminate].
  destruct (calcular_H_kp _ _ _); simpl; [|discriminate].
  apply calculo_del_trafico_no_negativo.
Qed.

Lemma actualizar_path_no_negativo (it : Iteraciones) (i m : nat) (d_kbeta : Q)
  (st : list Path.t * Q) (kv : nat * Q) :
  Forall (fun p => 0 <= Path.trafico p) (fst st) ->
  Forall (fun p => 0 <= Path.trafico p) (fst (estado (actualizar_path it i m d_kbeta st kv))).
Proof.
  destruct st as [paths suma], kv as [path_id coste]. simpl fst at 1. intros Hp.
  unfold actualizar_path.
  destruct (path_id =? m)%nat; [exact Hp|].
  destruct (nuevo_trafico_de _ _ _ _ _ _ _) as [v|e] eqn:E; [|exact Hp].
  destruct (py_pos paths (Z.of_nat path_id - 1)); [|exact Hp].
  simpl. apply list_set_Forall; [|exact Hp].
  intros p. simpl. eapply nuevo_trafico_de_no_negativo; eauto.
Qed.

Lemma actualizar_commodity_no_negativo (it : Iteraciones) (i : nat) (c : Commodity.t) :
  trafico_no_negativo c -> trafico_no_negativo (estado (actualizar_commodity it i c)).
Proof.
  intros Hc. unfold actualizar_commodity.
  destruct (py_index (costes_path it) (Z.of_nat i - 1)) as [costes|e]; [|exact Hc].
  destruct (py_min _) as [m|]; [|exact Hc].
  destruct (dict_item m _) as [d_kbeta|e]; [|exact Hc].
  pose proof (para_cada_ef_inv
                (fun st : list Path.t * Q => Forall (fun p => 0 <= Path.trafico p) (fst st))
                (actualizar_path it i m d_kbeta)
                (actualizar_path_no_negativo it i m d_kbeta)
                (costes_del_commodity costes c) (Commodity.paths c, 0) Hc) as Hl.
  destruct (para_cada_ef _ _ _) as [[paths suma]|e [paths suma]]; simpl in Hl.
  - destruct (py_pos paths (Z.of_nat m - 1)); simpl; [|exact Hl].
    unfold trafico_no_negativo; simpl.
    apply list_set_Forall; [|exact Hl]. intros p; simpl. apply Q.le_max_l.
  - exact Hl.
Qed.

Lemma distribuir_trafico_uniforme_no_negativo (c : Commodity.t) :
  0 <= Commodity.requirement c -> con_paths_definidos c ->
  exists c', distribuir_trafico_uniforme c = Fin c' /\ trafico_no_negativo c'.
Proof.
  intros Hr Hc. destruct (distribuir_trafico_uniforme_ok c Hc) as (c' & E & Hrep).
  exists c'. split; [exact E|].
  destruct Hrep as (_ & _ & _ & Hps). unfold trafico_no_negativo.
  assert (Hq : 0 <= Commodity.requirement c
                    / inject_Z (Z.of_nat (length (Commodity.paths c)))).
  { apply Qle_shift_div_l.
    - unfold con_paths_definidos in Hc.
      destruct (Commodity.paths c); [now elim Hc|]. reflexivity.
    - now rewrite Qmult_0_l. }
  revert Hq Hps.
  generalize (Commodity.requirement c / inject_Z (Z.of_nat (length (Commodity.paths c)))).
  intros q Hq. generalize (Commodity.paths c) (Commodity.paths c').
  intros l0 l0'. induction 1 as [|p p' l1 l1' [_ Hp] _ IH]; constructor; auto.
  now rewrite Hp.
Qed.

Lemma inicializacion_no_negativa (cs : list Commodity.t) :
  Forall (fun c => 0 <= Commodity.requirement c /\ con_paths_definidos c) cs ->
  exists cs', para_cada_commodity distribuir_trafico_uniforme cs = Fin cs'
              /\ Forall trafico_no_negativo cs'.
Proof.
  induction 1 as [|c cs [Hr Hc] _ IH]; simpl.
  - exists []. split; [reflexivity|constructor].
  - destruct (distribuir_trafico_uniforme_no_negativo c Hr Hc) as (c' & -> & Hc').
    destruct IH as (cs' & -> & Hcs').
    exists (c' :: cs'). split; [reflexivity|constructor; assumption].
Qed.

Lemma iteracion_no_negativa (i : nat) (cs : list Commodity.t) (it : Iteraciones) :
  i <> 0%nat -> Forall trafico_no_negativo cs ->
  Forall trafico_no_negativo (fst (estado (iteracion i (cs, it)))).
Proof.
  intros Hi Hcs. unfold iteracion.
  apply Nat.eqb_neq in Hi. rewrite Hi.
  pose proof (para_cada_commodity_inv trafico_no_negativo (actualizar_commodity it i)
                (actualizar_commodity_no_negativo it i) cs Hcs) as Hinv.
  destruct (para_cada_commodity _ cs) as [cs'|e cs']; simpl in Hinv; [|exact Hinv].
  destruct (calcular_coste_total_por_path _ _); exact Hinv.
Qed.

Lemma bucle_no_negativo (rango : list nat) (cs : list Commodity.t) (it : Iteraciones) :
  ~ In 0%nat rango -> Forall trafico_no_negativo cs ->
  Forall trafico_no_negativo (fst (estado (bucle rango (cs, it)))).
Proof.
  revert cs it. induction rango as [|i r IH]; intros cs it Hr Hcs; [exact Hcs|].
  rewrite bucle_cons.
  assert (Hi : i <> 0%nat) by (intros ->; apply Hr; now left).
  pose proof (iteracion_no_negativa i cs it Hi Hcs) as Hit.
  destruct (iteracion i (cs, it)) as [[cs' it']|e [cs' it']]; simpl in Hit.
  - apply IH; [|exact Hit]. intros H0; apply Hr; now right.
  - exact Hit.
Qed.

(** C9: with every requirement [>= 0] and every commodity having a path,
    the traffic of every path is [>= 0] after the initialization and after
    the update of every later iteration: whatever the number [n > 0] of
    passes of the loop, the commodities it leaves, on return or at the raise
    of an exception, carry no negative traffic. *)
Theorem C9_trafico_no_negativo (cs : list Commodity.t) (n : nat)
  (Hcs : Forall (fun c => 0 <= Commodity.requirement c /\ con_paths_definidos c) cs)
  (Hn : (0 < n)%nat) :
  Forall trafico_no_negativo
    (fst (estado (bucle (seq 0 n) (cs, iteraciones_vacias)))).
Proof.
  destruct n as [|n]; [lia|]. clear Hn.
  change (seq 0 (S n)) with (0%nat :: seq 1 n). rewrite bucle_cons.
  destruct (inicializacion_no_negativa cs Hcs) as (cs' & E & Hcs').
  unfold iteracion at 1. simpl Nat.eqb. cbv iota. rewrite E.
  destruct (calcular_coste_total_por_path _ _); [|exact Hcs'].
  apply bucle_no_negativo; [|exact Hcs'].
  rewrite in_seq. lia.
Qed.

Lemma C9_trafico_no_negativo_witness :
  Forall trafico_no_negativo
    (fst (estado (bucle (seq 0 2) ([k1; k2], iteraciones_vacias)))).
Proof.
  apply (C9_trafico_no_negativo [k1; k2] 2).
  - repeat constructor; discriminate.
  - lia.
Defined.

(** ** Dicts *)

Section DictFacts.
Context {K V : Type} `{PyEq K}.

Lemma py_eqb_congr (a b c : K) : py_eqb a b = true -> py_eqb a c = py_eqb b c.
Proof.
  intros Hab. destruct (py_eqb b c) eqn:Ebc.
  - eapply py_eqb_trans; eauto.
  - destruct (py_eqb a c) eqn:Eac; [|reflexivity].
    rewrite <- Ebc. symmetry. eapply py_eqb_trans; [|exact Eac].
    now rewrite py_eqb_sym.
Qed.

Lemma dict_get_congr (a b : K) (d : dict K V) :
  py_eqb a b = true -> dict_get a d = dict_get b d.
Proof.
  intros Hab. induction d as [|[k0 v0] r IH]; simpl; [reflexivity|].
  rewrite (py_eqb_sym k0 a), (py_eqb_sym k0 b), (py_eqb_congr a b k0 Hab).
  now rewrite IH.
Qed.

Lemma dict_get_set (k k' : K) (v : V) (d : dict K V) :
  dict_get k (dict_set k' v d) = if py_eqb k' k then Some v else dict_get k d.
Proof.
  induction d as [|[k0 v0] r IH]; simpl.
  - reflexivity.
  - destruct (py_eqb k0 k') eqn:E0; simpl.
    + rewrite (py_eqb_congr k0 k' k E0). now destruct (py_eqb k' k).
    + rewrite IH. destruct (py_eqb k' k) eqn:E1; [|reflexivity].
      destruct (py_eqb k0 k) eqn:E2; [|reflexivity].
      exfalso. rewrite py_eqb_sym in E1.
      rewrite (py_eqb_trans _ _ _ E2 E1) in E0. discriminate.
Qed.

Lemma dict_set_wf (k : K) (v : V) (d : dict K V) : dict_wf d -> dict_wf (dict_set k v d).
Proof.
  induction d as [|[k0 v0] r IH]; simpl.
  - auto.
  - intros [Hk0 Hr]. destruct (py_eqb k0 k) eqn:E0; simpl.
    + auto.
    + split; [|auto]. rewrite dict_get_set. rewrite py_eqb_sym, E0. exact Hk0.
Qed.

Lemma dict_get_claves (k : K) (d : dict K V) :
  dict_get k d <> None <-> exists k0, In k0 (claves d) /\ py_eqb k0 k = true.
Proof.
  induction d as [|[k0 v0] r IH]; simpl.
  - split; [congruence|intros (? & [] & _)].
  - destruct (py_eqb k0 k) eqn:E0.
    + split; [|congruence]. intros _. exists k0. auto.
    + rewrite IH. split.
      * intros (k1 & Hin & E). exists k1. auto.
      * intros (k1 & [<-|Hin] & E); [congruence|]. exists k1. auto.
Qed.
End DictFacts.

(** ** Flow accounting (C6) *)

Lemma sumar_enlace_get (t : Q) (flujo : dict Enlace.t Q) (a e : Enlace.t) :
  dict_get_or e 0 (sumar_enlace t flujo a)
  = if py_eqb a e then dict_get_or e 0 flujo + t else dict_get_or e 0 flujo.
Proof.
  unfold sumar_enlace, dict_get_or. rewrite dict_get_set.
  destruct (py_eqb a e) eqn:E; [|reflexivity].
  now rewrite (dict_get_congr a e flujo E).
Qed.

Lemma inject_Z_S (n : nat) : inject_Z (Z.of_nat (S n)) == inject_Z (Z.of_nat n) + 1.
Proof.
  rewrite Nat2Z.inj_succ. unfold Z.succ. now rewrite inject_Z_plus.
Qed.

Lemma sumar_path_get (flujo : dict Enlace.t Q) (p : Path.t) (e : Enlace.t) :
  dict_get_or e 0 (sumar_path flujo p)
  == dict_get_or e 0 flujo + inject_Z (Z.of_nat (ocurrencias e p)) * Path.trafico p.
Proof.
  unfold sumar_path, ocurrencias. generalize (Path.trafico p) as t.
  intros t. revert flujo.
  induction (Path.enlaces p) as [|a l IH]; intros flujo; cbn [fold_left filter].
  - simpl. change (inject_Z 0) with 0. ring.
  - rewrite IH, sumar_enlace_get.
    destruct (py_eqb a e).
    + cbn [length]. rewrite inject_Z_S. ring.
    + reflexivity.
Qed.

Lemma sumar_commodity_get (flujo : dict Enlace.t Q) (c : Commodity.t) (e : Enlace.t) :
  dict_get_or e 0 (sumar_commodity flujo c)
  == dict_get_or e 0 flujo
     + suma_Q (map (fun p => inject_Z (Z.of_nat (ocurrencias e p)) * Path.trafico p)
                 (Commodity.paths c)).
Proof.
  unfold sumar_commodity. revert flujo.
  induction (Commodity.paths c) as [|p l IH]; intros flujo; simpl.
  - ring.
  - rewrite IH, sumar_path_get. ring.
Qed.

Lemma calcular_flujo_desde (flujo : dict Enlace.t Q) (cs : list Commodity.t) (e : Enlace.t) :
  dict_get_or e 0 (fold_left sumar_commodity cs flujo)
  == dict_get_or e 0 flujo + flujo_con_multiplicidad cs e.
Proof.
  unfold flujo_con_multiplicidad. revert flujo.
  induction cs as [|c cs IH]; intros flujo; simpl.
  - ring.
  - rewrite IH, sumar_commodity_get. ring.
Qed.

Lemma calcular_flujo_por_enlace_suma (cs : list Commodity.t) (e : Enlace.t) :
  dict_get_or e 0 (calcular_flujo_por_enlace cs) == flujo_con_multiplicidad cs e.
Proof.
  unfold calcular_flujo_por_enlace. rewrite calcular_flujo_desde.
  unfold dict_get_or; simpl. ring.
Qed.

Lemma contiene_ocurrencias (p : Path.t) (e : Enlace.t) :
  contiene p e = negb (ocurrencias e p =? 0)%nat.
Proof.
  unfold contiene, ocurrencias.
  induction (Path.enlaces p) as [|a l IH]; cbn [existsb filter]; [reflexivity|].
  destruct (py_eqb a e); [reflexivity|exact IH].
Qed.

Lemma flujo_sin_repetidos (cs : list Commodity.t) (e : Enlace.t) :
  (forall c p, In c cs -> In p (Commodity.paths c) -> sin_enlaces_repetidos p) ->
  flujo_con_multiplicidad cs e == flujo_de_paths_con cs e.
Proof.
  unfold flujo_con_multiplicidad, flujo_de_paths_con.
  induction cs as [|c cs IH]; intros Hcs; simpl; [reflexivity|].
  rewrite IH by (intros c0 p H1 H2; apply (Hcs c0 p); [now right|exact H2]).
  apply Qplus_comp; [|reflexivity].
  assert (Hc : forall p, In p (Commodity.paths c) -> sin_enlaces_repetidos p)
    by (intros p Hp; apply (Hcs c p); [now left|exact Hp]).
  clear IH Hcs. induction (Commodity.paths c) as [|p l IH]; simpl; [reflexivity|].
  rewrite IH by (intros p0 Hp0; apply Hc; now right).
  apply Qplus_comp; [|reflexivity].
  rewrite contiene_ocurrencias.
  pose proof (Hc p (or_introl eq_refl) e) as Hp.
  destruct (ocurrencias e p) as [|[|n]]; simpl; [ring|ring|lia].
Qed.

(** The entry that pass [n] of the loop records is computed from the
    commodities that the pass leaves. *)
Lemma bucle_registra_flujo (n : nat) (cs cs' : list Commodity.t) (it : Iteraciones) :
  bucle (seq 0 (S n)) (cs, iteraciones_vacias) = Fin (cs', it) ->
  nth_error (flujo_total it) n = Some (calcular_flujo_por_enlace cs').
Proof.
  rewrite seq_S, bucle_app. simpl Nat.add.
  assert (H0 : entradas iteraciones_vacias 0) by (repeat split).
  pose proof (bucle_entradas (seq 0 n) 0 cs _ H0) as Hb.
  destruct (bucle (seq 0 n) (cs, iteraciones_vacias)) as [[cs1 it1]|e [cs1 it1]];
    [|discriminate].
  rewrite length_seq in Hb. simpl in Hb. destruct Hb as (Hf & _ & _).
  rewrite bucle_cons. unfold iteracion.
  destruct (if (n =? 0)%nat then _ else _) as [cs2|e cs2]; [|discriminate].
  destruct (calcular_coste_total_por_path _ _); [|discriminate].
  simpl. intros E; injection E as <- <-. simpl.
  rewrite nth_error_app2 by lia. now rewrite Hf, Nat.sub_diag.
Qed.

(** C6, as the code has it: at every iteration [n] the flow recorded for a
    link is the sum, over every path of every commodity, of the traffic of
    the path counted once per occurrence of the link, by value, in its link
    sequence; when no path repeats a link that is the sum of the traffic of
    the paths whose link sequence contains the link. *)
Theorem C6_flujo_registrado (n : nat) (cs cs' : list Commodity.t) (it : Iteraciones)
  (Hrun : bucle (seq 0 (S n)) (cs, iteraciones_vacias) = Fin (cs', it)) :
  exists flujo,
    nth_error (flujo_total it) n = Some flujo
    /\ (forall e, dict_get_or e 0 flujo == flujo_con_multiplicidad cs' e)
    /\ ((forall c p, In c cs' -> In p (Commodity.paths c) -> sin_enlaces_repetidos p) ->
        forall e, dict_get_or e 0 flujo == flujo_de_paths_con cs' e)
    /\ (forall e e', py_eqb e e' = true -> dict_get_or e 0 flujo = dict_get_or e' 0 flujo).
Proof.
  exists (calcular_flujo_por_enlace cs').
  split; [exact (bucle_registra_flujo n cs cs' it Hrun)|].
  split; [intros e; apply calcular_flujo_por_enlace_suma|].
  split.
  - intros Hs e. rewrite calcular_flujo_por_enlace_suma. now apply flujo_sin_repetidos.
  - intros e e' He. unfold dict_get_or. now rewrite (dict_get_congr e e' _ He).
Qed.

Lemma C6_flujo_registrado_witness :
  exists cs' it flujo,
    bucle (seq 0 2) ([k1; k2], iteraciones_vacias) = Fin (cs', it)
    /\ nth_error (flujo_total it) 1 = Some flujo
    /\ (forall e, dict_get_or e 0 flujo == flujo_con_multiplicidad cs' e).
Proof.
  destruct (bucle (seq 0 2) ([k1; k2], iteraciones_vacias)) as [[cs' it]|] eqn:E;
    [|vm_compute in E; discriminate].
  destruct (C6_flujo_registrado 1 [k1; k2] cs' it E) as (flujo & H1 & H2 & _).
  exists cs', it, flujo. auto.
Defined.

(** C6 as stated fails on a path that repeats a link: after the first pass
    the walk of [k_vuelta] carries 1 and uses the link 1 -> 2 twice, so the
    recorded flow of that link is 2, while the paths that contain it sum
    to 1. *)
Lemma C6_contraejemplo :
  exists cs' it flujo,
    bucle (seq 0 1) ([k_vuelta], iteraciones_vacias) = Fin (cs', it)
    /\ nth_error (flujo_total it) 0 = Some flujo
    /\ dict_get_or (Enlace.mk 1 2 5) 0 flujo == 2
    /\ flujo_de_paths_con cs' (Enlace.mk 1 2 5) == 1
    /\ ~ dict_get_or (Enlace.mk 1 2 5) 0 flujo == flujo_de_paths_con cs' (Enlace.mk 1 2 5).
Proof.
  do 3 eexists. split; [vm_compute; reflexivity|].
  split; [reflexivity|].
  split; [vm_compute; reflexivity|].
  split; [vm_compute; reflexivity|].
  vm_compute. discriminate.
Qed.

(** ** Commodities that are equal by value (C10) *)

Lemma py_eqb_congr_r {K : Type} `{PyEq K} (a b c : K) :
  py_eqb a b = true -> py_eqb c a = py_eqb c b.
Proof.
  intros Hab. rewrite (py_eqb_sym c a), (py_eqb_sym c b). now apply py_eqb_congr.
Qed.

Lemma py_eqb_par {A B : Type} `{PyEq A} `{PyEq B} (a a' : A) (b b' : B) :
  py_eqb (a, b) (a', b') = py_eqb a a' && py_eqb b b'.
Proof. reflexivity. Qed.

Lemma py_eqb_nat (n m : nat) : py_eqb n m = (n =? m)%nat.
Proof. reflexivity. Qed.

Lemma enumerate_nth {A : Type} (l : list A) (s i : nat) (a : A) :
  nth_error l i = Some a -> In ((s + i)%nat, a) (enumerate l s).
Proof.
  revert s i. induction l as [|b l IH]; intros s [|i]; simpl; try discriminate.
  - intros E; injection E as <-. left. f_equal. lia.
  - intros E. right. replace (s + S i)%nat with (S s + i)%nat by lia. now apply IH.
Qed.

(** The writes of the loop over the paths of [c] go to the keys [(c, j)]
    with [j >= s] only. *)
Lemma coste_paths_conserva (flujo : dict Enlace.t Q) (c : Commodity.t)
  (ps : list Path.t) (s : nat) (d d' : dict (Commodity.t * nat) Q)
  (c' : Commodity.t) (j : nat) :
  para_cada (coste_path flujo c) (enumerate ps s) d = Ok d' ->
  py_eqb c c' = false \/ (j < s)%nat ->
  dict_get (c', j) d' = dict_get (c', j) d.
Proof.
  revert s d. induction ps as [|p ps IH]; intros s d; cbn [enumerate para_cada].
  - intros E _; now injection E as <-.
  - unfold coste_path at 1.
    destruct (para_cada (coste_enlace flujo) (Path.enlaces p) 0) as [v|e]; cbn [bind];
      [|discriminate].
    intros E Hk. rewrite (IH (S s) _ E) by (destruct Hk; [now left|right; lia]).
    rewrite dict_get_set, py_eqb_par, py_eqb_nat.
    destruct Hk as [Hk|Hk]; [now rewrite Hk|].
    replace (s =? j)%nat with false; [now rewrite andb_false_r|].
    symmetry. apply Nat.eqb_neq. lia.
Qed.

Lemma coste_paths_escribe (flujo : dict Enlace.t Q) (c : Commodity.t)
  (ps : list Path.t) (s : nat) (d d' : dict (Commodity.t * nat) Q)
  (i : nat) (p : Path.t) :
  para_cada (coste_path flujo c) (enumerate ps s) d = Ok d' ->
  nth_error ps i = Some p ->
  exists v, dict_get (c, (s + i)%nat) d' = Some v /\ coste_de_path flujo p = Ok v.
Proof.
  revert s d i. induction ps as [|p0 ps IH]; intros s d i; cbn [enumerate para_cada].
  - destruct i; discriminate.
  - unfold coste_de_path, coste_path at 1.
    destruct (para_cada (coste_enlace flujo) (Path.enlaces p0) 0) as [v|e] eqn:Ev;
      cbn [bind]; [|discriminate].
    intros E Hi. destruct i as [|i]; cbn [nth_error] in Hi.
    + injection Hi as <-. exists v. split; [|exact Ev].
      rewrite (coste_paths_conserva flujo c ps (S s) _ d' c (s + 0) E)
        by (right; lia).
      rewrite dict_get_set, py_eqb_par, py_eqb_nat.
      now rewrite py_eqb_refl, Nat.add_0_r, Nat.eqb_refl.
    + replace (s + S i)%nat with (S s + i)%nat by lia. exact (IH (S s) _ i E Hi).
Qed.

Lemma coste_commodities_conserva (flujo : dict Enlace.t Q) (cs : list Commodity.t)
  (d d' : dict (Commodity.t * nat) Q) (c' : Commodity.t) (j : nat) :
  para_cada
    (fun costes c => para_cada (coste_path flujo c) (enumerate (Commodity.paths c) 1) costes)
    cs d = Ok d' ->
  Forall (fun c => py_eqb c c' = false) cs ->
  dict_get (c', j) d' = dict_get (c', j) d.
Proof.
  revert d. induction cs as [|c cs IH]; intros d; cbn [para_cada].
  - intros E _; now injection E as <-.
  - destruct (para_cada (coste_path flujo c) _ d) as [d1|e] eqn:E1; cbn [bind];
      [|discriminate].
    intros E Hcs. inversion Hcs as [|? ? Hc Hr]; subst.
    rewrite (IH d1 E Hr).
    apply (coste_paths_conserva flujo c _ 1 d d1 c' j E1). now left.
Qed.

Lemma costes_del_commodity_congr (costes : dict (Commodity.t * nat) Q)
  (c1 c2 : Commodity.t) :
  py_eqb c1 c2 = true -> costes_del_commodity costes c1 = costes_del_commodity costes c2.
Proof.
  intros Heq. unfold costes_del_commodity. generalize (@nil (nat * Q)).
  induction costes as [|kv r IH]; intros acc; cbn [fold_left]; [reflexivity|].
  rewrite (py_eqb_congr_r c1 c2 (fst (fst kv)) Heq). apply IH.
Qed.

Lemma seleccionar_desde (costes : dict (Commodity.t * nat) Q) (cs : list Commodity.t)
  (sp0 : dict Commodity.t nat) (c : Commodity.t) :
  let paso := fun (sp : dict Commodity.t nat) (c0 : Commodity.t) =>
                match py_min (costes_del_commodity costes c0) with
                | Some m => dict_set c0 m sp
                | None => sp
                end in
  dict_get c (fold_left paso cs sp0)
  = if existsb (fun c0 => py_eqb c0 c) cs
    then match py_min (costes_del_commodity costes c) with
         | Some m => Some m
         | None => dict_get c sp0
         end
    else dict_get c sp0.
Proof.
  intros paso. revert sp0. induction cs as [|c0 cs IH]; intros sp0; cbn [fold_left existsb].
  - reflexivity.
  - rewrite IH. unfold paso.
    destruct (py_eqb c0 c) eqn:E0; cbn [orb].
    + rewrite (costes_del_commodity_congr costes c0 c E0).
      destruct (py_min (costes_del_commodity costes c)) as [m|].
      * rewrite dict_get_set, E0. now destruct (existsb _ cs).
      * now destruct (existsb _ cs).
    + destruct (py_min (costes_del_commodity costes c0)) as [m0|]; [|reflexivity].
      rewrite dict_get_set, E0. reflexivity.
Qed.

Lemma seleccionar_wf (costes : dict (Commodity.t * nat) Q) (cs : list Commodity.t) :
  dict_wf (seleccionar_path_minimo_coste cs costes).
Proof.
  unfold seleccionar_path_minimo_coste.
  assert (H0 : dict_wf (@nil (Commodity.t * nat))) by exact I.
  revert H0. generalize (@nil (Commodity.t * nat)).
  induction cs as [|c cs IH]; intros sp Hsp; simpl; [exact Hsp|].
  apply IH. destruct (py_min _); [now apply dict_set_wf|exact Hsp].
Qed.

(** C10: for two commodities [c1] and [c2] that are equal by value, the cost
    map holds the same entry under [(c1, i)] and [(c2, i)]; when [c2] is the
    last commodity of the list with that value, the entry at each ordinal of
    [c2] is the cost of the path of [c2], whatever was written for [c1]
    before; both commodities get the same costs from the map, and the
    selection holds one entry for the two, the first minimum of those merged
    costs. *)
Theorem C10_commodities_iguales (cs : list Commodity.t) (flujo : dict Enlace.t Q)
  (costes : dict (Commodity.t * nat) Q) (c1 c2 : Commodity.t)
  (Heq : py_eqb c1 c2 = true)
  (Hcostes : calcular_coste_total_por_path cs flujo = Ok costes) :
  (forall i, dict_get (c1, i) costes = dict_get (c2, i) costes)
  /\ (forall pre post i p,
        cs = pre ++ c2 :: post ->
        Forall (fun c => py_eqb c c2 = false) post ->
        nth_error (Commodity.paths c2) i = Some p ->
        exists v, dict_get (c1, S i) costes = Some v /\ coste_de_path flujo p = Ok v)
  /\ costes_del_commodity costes c1 = costes_del_commodity costes c2
  /\ (In c2 cs ->
      dict_get c1 (seleccionar_path_minimo_coste cs costes)
      = py_min (costes_del_commodity costes c2)
      /\ dict_get c2 (seleccionar_path_minimo_coste cs costes)
         = py_min (costes_del_commodity costes c2))
  /\ dict_wf (seleccionar_path_minimo_coste cs costes).
Proof.
  assert (Hkey : forall i : nat, py_eqb (c1, i) (c2, i) = true).
  { intros i. now rewrite py_eqb_par, Heq, py_eqb_refl. }
  split; [intros i; apply dict_get_congr, Hkey|].
  split.
  - intros pre post i p -> Hpost Hp.
    rewrite (dict_get_congr _ _ costes (Hkey (S i))).
    unfold calcular_coste_total_por_path in Hcostes.
    rewrite para_cada_app in Hcostes.
    match type of Hcostes with
    | bind ?m _ = _ => destruct m as [d0|e]; cbn [bind para_cada] in Hcostes;
                       [|discriminate]
    end.
    destruct (para_cada (coste_path flujo c2) _ d0) as [d1|e] eqn:E1;
      cbn [bind] in Hcostes; [|discriminate].
    rewrite (coste_commodities_conserva flujo post d1 costes c2 (S i) Hcostes Hpost).
    exact (coste_paths_escribe flujo c2 _ 1 d0 d1 i p E1 Hp).
  - split; [now apply costes_del_commodity_congr|].
    split; [|apply seleccionar_wf].
    intros Hin.
    assert (Hsel : forall c, py_eqb c c2 = true ->
              dict_get c (seleccionar_path_minimo_coste cs costes)
              = py_min (costes_del_commodity costes c2)).
    { intros c Hc. unfold seleccionar_path_minimo_coste.
      rewrite (seleccionar_desde costes cs [] c).
      replace (existsb (fun c0 => py_eqb c0 c) cs) with true.
      - rewrite (costes_del_commodity_congr costes c c2 Hc).
        now destruct (py_min _).
      - symmetry. apply existsb_exists. exists c2. split; [exact Hin|].
        now rewrite py_eqb_sym. }
    split; apply Hsel; [exact Heq|apply py_eqb_refl].
Qed.

Lemma C10_commodities_iguales_witness :
  exists costes,
    calcular_coste_total_por_path [k_gemelo_a; k_gemelo_b]
      (calcular_flujo_por_enlace [k_gemelo_a; k_gemelo_b]) = Ok costes
    /\ (forall i, dict_get (k_gemelo_a, i) costes = dict_get (k_gemelo_b, i) costes)
    /\ costes_del_commodity costes k_gemelo_a = costes_del_commodity costes k_gemelo_b
    /\ dict_get k_gemelo_a (seleccionar_path_minimo_coste [k_gemelo_a; k_gemelo_b] costes)
       = dict_get k_gemelo_b (seleccionar_path_minimo_coste [k_gemelo_a; k_gemelo_b] costes).
Proof.
  destruct (calcular_coste_total_por_path [k_gemelo_a; k_gemelo_b]
              (calcular_flujo_por_enlace [k_gemelo_a; k_gemelo_b])) as [costes|] eqn:E;
    [|vm_compute in E; discriminate].
  destruct (C10_commodities_iguales [k_gemelo_a; k_gemelo_b] _ costes
              k_gemelo_a k_gemelo_b eq_refl E) as (H1 & _ & H3 & H4 & _).
  exists costes. split; [reflexivity|]. split; [exact H1|]. split; [exact H3|].
  destruct H4 as [H4 H5]; [right; now left|]. now rewrite H4, H5.
Defined.

(** ** The update of one commodity (C3, C4) *)

Lemma list_set_length {A : Type} (l : list A) (n : nat) (f : A -> A) :
  length (list_set l n f) = length l.
Proof.
  revert n. induction l as [|a l IH]; intros [|n]; simpl; auto.
Qed.

Lemma list_set_nth_eq {A : Type} (l : list A) (n : nat) (f : A -> A) :
  nth_error (list_set l n f) n = option_map f (nth_error l n).
Proof.
  revert n. induction l as [|a l IH]; intros [|n]; simpl; auto.
Qed.

Lemma list_set_nth_neq {A : Type} (l : list A) (n k : nat) (f : A -> A) :
  k <> n -> nth_error (list_set l n f) k = nth_error l k.
Proof.
  revert n k. induction l as [|a l IH]; intros [|n] [|k] Hk; simpl; auto; congruence.
Qed.

Lemma py_pos_ordinal {A : Type} (l : list A) (id : nat) :
  (1 <= id)%nat ->
  py_pos l (Z.of_nat id - 1)
  = if (id - 1 <? length l)%nat then Ok (id - 1)%nat else Raise IndexError.
Proof.
  intros Hid. unfold py_pos. cbv zeta.
  assert (H0 : (Z.of_nat id - 1 <? 0)%Z = false) by (apply Z.ltb_ge; lia).
  rewrite H0. cbv iota. rewrite H0. cbn [orb].
  destruct (id - 1 <? length l)%nat eqn:E.
  - apply Nat.ltb_lt in E.
    replace (Z.of_nat (length l) <=? Z.of_nat id - 1)%Z with false
      by (symmetry; apply Z.leb_gt; lia).
    f_equal. lia.
  - apply Nat.ltb_ge in E.
    replace (Z.of_nat (length l) <=? Z.of_nat id - 1)%Z with true
      by (symmetry; apply Z.leb_le; lia).
    reflexivity.
Qed.

Lemma py_index_ordinal {A : Type} (l : list A) (id : nat) :
  (1 <= id)%nat ->
  py_index l (Z.of_nat id - 1)
  = match nth_error l (id - 1) with
    | Some a => Ok a
    | None => Raise IndexError
    end.
Proof.
  intros Hid. unfold py_index. rewrite (py_pos_ordinal l id Hid).
  destruct (id - 1 <? length l)%nat eqn:E; cbn [bind]; [reflexivity|].
  apply Nat.ltb_ge in E. apply nth_error_None in E. now rewrite E.
Qed.

Lemma calculo_del_trafico_ok (t : nat) (x H d_kp d_kbeta v : Q) :
  calculo_del_trafico_para_la_siguiente_iteracion t x H d_kp d_kbeta = Ok v <->
  ~ H == 0 /\ v = Qmax 0 (x - 0.001 / H * (d_kp - d_kbeta)).
Proof.
  unfold calculo_del_trafico_para_la_siguiente_iteracion, py_div.
  destruct (Qeq_bool H 0) eqn:E; cbn [bind].
  - apply Qeq_bool_eq in E. split; [discriminate|]. intros [HH _]. contradiction.
  - apply Qeq_bool_neq in E. split.
    + intros Ev; injection Ev as <-. auto.
    + intros [_ ->]. reflexivity.
Qed.

(** What one pass of the inner loop does when it returns. *)
Lemma actualizar_path_fin (it : Iteraciones) (i m : nat) (d_kbeta : Q)
  (paths paths' : list Path.t) (suma suma' : Q) (id : nat) (d : Q) :
  (1 <= id)%nat -> (1 <= m)%nat ->
  actualizar_path it i m d_kbeta (paths, suma) (id, d) = Fin (paths', suma') ->
  (id = m /\ paths' = paths /\ suma' = suma)
  \/ (id <> m /\
      exists p pm flujo H,
        nth_error paths (id - 1) = Some p
        /\ nth_error paths (m - 1) = Some pm
        /\ py_index (flujo_total it) (Z.of_nat i - 1) = Ok flujo
        /\ calcular_H_kp p pm flujo = Ok H
        /\ ~ H == 0
        /\ paths' = list_set paths (id - 1)
                      (Path.con_trafico
                         (Qmax 0 (Path.trafico p - 0.001 / H * (d - d_kbeta))))
        /\ suma' = suma + Qmax 0 (Path.trafico p - 0.001 / H * (d - d_kbeta))).
Proof.
  intros Hid Hm. unfold actualizar_path.
  destruct (id =? m)%nat eqn:E.
  - apply Nat.eqb_eq in E. intros Ef; injection Ef as <- <-. left. auto.
  - apply Nat.eqb_neq in E. intros H. right. split; [exact E|].
    unfold nuevo_trafico_de in H.
    rewrite (py_index_ordinal paths id Hid), (py_index_ordinal paths m Hm) in H.
    destruct (nth_error paths (id - 1)) as [p|] eqn:Ep; cbn [bind] in H; [|discriminate].
    destruct (nth_error paths (m - 1)) as [pm|] eqn:Epm; cbn [bind] in H; [|discriminate].
    destruct (py_index (flujo_total it) (Z.of_nat i - 1)) as [flujo|] eqn:Ef;
      cbn [bind] in H; [|discriminate].
    destruct (calcular_H_kp p pm flujo) as [Hkp|] eqn:EH; cbn [bind] in H; [|discriminate].
    destruct (calculo_del_trafico_para_la_siguiente_iteracion i (Path.trafico p) Hkp d d_kbeta)
      as [v|] eqn:Ev; [|discriminate].
    apply calculo_del_trafico_ok in Ev. destruct Ev as [HH ->].
    rewrite (py_pos_ordinal paths id Hid) in H.
    assert (Hlt : (id - 1 <? length paths)%nat = true).
    { apply Nat.ltb_lt. apply nth_error_Some. congruence. }
    rewrite Hlt in H. injection H as <- <-.
    exists p, pm, flujo, Hkp. repeat split; auto.
Qed.

Lemma trafico_en_con_trafico (paths : list Path.t) (id : nat) (x : Q) (p : Path.t) :
  nth_error paths (id - 1) = Some (Path.con_trafico x p) -> trafico_en paths id = x.
Proof.
  intros E. unfold trafico_en. now rewrite E.
Qed.

(** The inner loop, when it returns: every path that is not the reference
    path has been rewritten once, from its traffic and the links of the two
    paths as they were when the loop started; the other paths are as they
    were; [suma_flujo_otros] is the sum of the new traffics. *)
Lemma bucle_paths_fin (it : Iteraciones) (i m : nat) (d_kbeta : Q) (cc : dict nat Q) :
  forall (paths paths' : list Path.t) (suma suma' : Q),
  NoDup (claves cc) ->
  Forall (fun kv => (1 <= fst kv)%nat) cc ->
  (1 <= m)%nat ->
  para_cada_ef (actualizar_path it i m d_kbeta) cc (paths, suma) = Fin (paths', suma') ->
  length paths' = length paths
  /\ (forall id, (1 <= id)%nat -> ~ In id (no_referencia cc m) ->
      nth_error paths' (id - 1) = nth_error paths (id - 1))
  /\ (forall id d, In (id, d) cc -> id <> m ->
      exists p pm flujo H,
        nth_error paths (id - 1) = Some p
        /\ nth_error paths (m - 1) = Some pm
        /\ py_index (flujo_total it) (Z.of_nat i - 1) = Ok flujo
        /\ calcular_H_kp p pm flujo = Ok H
        /\ ~ H == 0
        /\ nth_error paths' (id - 1)
           = Some (Path.con_trafico
                     (Qmax 0 (Path.trafico p - 0.001 / H * (d - d_kbeta))) p))
  /\ suma' == suma + suma_Q (map (trafico_en paths') (no_referencia cc m)).
Proof.
  induction cc as [|[id d] r IH]; intros paths paths' suma suma' Hnd Hids Hm Hrun.
  - cbn [para_cada_ef] in Hrun. injection Hrun as <- <-.
    repeat split; auto.
    + intros id d [].
    + unfold no_referencia; simpl. ring.
  - cbn [para_cada_ef] in Hrun.
    destruct (actualizar_path it i m d_kbeta (paths, suma) (id, d))
      as [[paths1 suma1]|e st1] eqn:Estep; [|discriminate].
    inversion Hnd as [|? ? Hid_r Hnd_r]; subst.
    inversion Hids as [|? ? Hid Hids_r]; subst. cbn [fst] in Hid.
    destruct (IH paths1 paths' suma1 suma' Hnd_r Hids_r Hm Hrun)
      as (Hlen & Hsame & Hnew & Hsum).
    clear IH Hrun.
    apply (actualizar_path_fin it i m d_kbeta paths paths1 suma suma1 id d Hid Hm) in Estep.
    destruct Estep as [(-> & -> & ->)|(Hne & p & pm & flujo & H & Ep & Epm & Ef & EH & HH & -> & ->)].
    + (* the reference path: nothing is written *)
      assert (Hnr : no_referencia ((m, d) :: r) m = no_referencia r m).
      { unfold no_referencia. cbn [claves map fst filter]. now rewrite Nat.eqb_refl. }
      rewrite Hnr. repeat split; auto.
      intros id' d' [E|Hin] Hne'; [injection E as <- <-; now elim Hne'|].
      now apply (Hnew id' d').
    + assert (Hnr : no_referencia ((id, d) :: r) m = id :: no_referencia r m).
      { unfold no_referencia. cbn [claves map fst filter].
        apply Nat.eqb_neq in Hne. now rewrite Hne. }
      assert (Hid_nr : ~ In id (no_referencia r m)).
      { unfold no_referencia. rewrite filter_In. intros [Hin _]. now apply Hid_r. }
      assert (Hhead : nth_error paths' (id - 1)
                      = Some (Path.con_trafico
                                (Qmax 0 (Path.trafico p - 0.001 / H * (d - d_kbeta))) p)).
      { rewrite (Hsame id Hid Hid_nr), list_set_nth_eq, Ep. reflexivity. }
      rewrite Hnr. split; [|split; [|split]].
      * now rewrite Hlen, list_set_length.
      * intros id' Hid' Hnot. rewrite Hsame; auto.
        -- apply list_set_nth_neq. intros E. apply Hnot. left. lia.
        -- intros Hin. apply Hnot. now right.
      * intros id' d' [E|Hin] Hne'.
        -- injection E as <- <-. exists p, pm, flujo, H. repeat split; auto.
        -- assert (Hdif : id' <> id).
           { intros ->. apply Hid_r. apply (in_map fst) in Hin. exact Hin. }
           assert (Hid' : (1 <= id')%nat).
           { rewrite Forall_forall in Hids_r. exact (Hids_r _ Hin). }
           destruct (Hnew id' d' Hin Hne')
             as (p1 & pm1 & flujo1 & H1 & Ep1 & Epm1 & Ef1 & EH1 & HH1 & Enew1).
           rewrite list_set_nth_neq in Ep1 by lia.
           rewrite list_set_nth_neq in Epm1 by lia.
           exists p1, pm1, flujo1, H1. repeat split; auto.
      * cbn [map suma_Q fold_right]. rewrite Hsum.
        rewrite (trafico_en_con_trafico paths' id _ p Hhead).
        unfold suma_Q. ring.
Qed.

Lemma py_index_In {A : Type} (l : list A) (z : Z) (a : A) :
  py_index l z = Ok a -> In a l.
Proof.
  unfold py_index. destruct (py_pos l z) as [j|]; cbn [bind]; [|discriminate].
  destruct (nth_error l j) eqn:E; [|discriminate].
  intros Ea; injection Ea as <-. eapply nth_error_In; eauto.
Qed.

Lemma dict_set_claves_Forall {K V : Type} `{PyEq K} (P : K -> Prop) (k : K) (v : V)
  (d : dict K V) :
  P k -> Forall P (claves d) -> Forall P (claves (dict_set k v d)).
Proof.
  intros Hk. induction d as [|[k0 v0] r IH]; cbn [dict_set claves map fst].
  - intros _. constructor; [exact Hk|constructor].
  - intros Hd. inversion Hd as [|? ? Hk0 Hr]; subst.
    destruct (py_eqb k0 k); cbn [map fst]; constructor; auto.
Qed.

Lemma dict_wf_NoDup (d : dict nat Q) : dict_wf d -> NoDup (claves d).
Proof.
  induction d as [|[k v] r IH]; cbn [dict_wf claves map fst].
  - intros _. constructor.
  - intros [Hk Hr]. constructor; [|now apply IH].
    intros Hin. apply (dict_get_claves k r); [|exact Hk].
    exists k. split; [exact Hin|apply py_eqb_refl].
Qed.

Lemma costes_del_commodity_desde (costes : dict (Commodity.t * nat) Q) (c : Commodity.t)
  (acc : dict nat Q) :
  dict_wf acc -> Forall (fun id => (1 <= id)%nat) (claves acc) ->
  Forall (fun kv => (1 <= snd (fst kv))%nat) costes ->
  let cc := fold_left
              (fun acc (kv : Commodity.t * nat * Q) =>
                 if py_eqb (fst (fst kv)) c then dict_set (snd (fst kv)) (snd kv) acc
                 else acc)
              costes acc in
  dict_wf cc /\ Forall (fun id => (1 <= id)%nat) (claves cc).
Proof.
  revert acc. induction costes as [|kv r IH]; intros acc Hwf Hacc Hr; cbn [fold_left].
  - auto.
  - inversion Hr as [|? ? Hkv Hr']; subst.
    apply IH; [| |exact Hr'].
    + destruct (py_eqb (fst (fst kv)) c); [now apply dict_set_wf|exact Hwf].
    + destruct (py_eqb (fst (fst kv)) c); [now apply dict_set_claves_Forall|exact Hacc].
Qed.

Lemma costes_del_commodity_validos (costes : dict (Commodity.t * nat) Q) (c : Commodity.t) :
  costes_validos costes ->
  NoDup (claves (costes_del_commodity costes c))
  /\ Forall (fun kv => (1 <= fst kv)%nat) (costes_del_commodity costes c).
Proof.
  intros [_ Hord].
  destruct (costes_del_commodity_desde costes c [] I (Forall_nil _) Hord) as [Hwf Hids].
  split; [now apply dict_wf_NoDup|].
  unfold claves in Hids. now rewrite Forall_map in Hids.
Qed.

Lemma py_min_desde_In (mejor : nat * Q) (d : dict nat Q) :
  py_min_desde mejor d = fst mejor \/ In (py_min_desde mejor d) (claves d).
Proof.
  revert mejor. induction d as [|kv r IH]; intros mejor; cbn [py_min_desde claves map].
  - now left.
  - destruct (Qgt_bool (snd mejor) (snd kv)).
    + destruct (IH kv) as [->|Hin]; right; [now left|now right].
    + destruct (IH mejor) as [->|Hin]; [now left|right; now right].
Qed.

Lemma py_min_In (d : dict nat Q) (m : nat) : py_min d = Some m -> In m (claves d).
Proof.
  destruct d as [|kv r]; cbn [py_min]; [discriminate|].
  intros E; injection E as <-. cbn [claves map].
  destruct (py_min_desde_In kv r) as [->|Hin]; [now left|now right].
Qed.

(** What the pass over one commodity does when it returns and the
    commodity has costs in the previous snapshot. *)
Lemma actualizar_commodity_fin (it : Iteraciones) (i : nat) (c c' : Commodity.t)
  (costes : dict (Commodity.t * nat) Q) (m : nat) :
  py_index (costes_path it) (Z.of_nat i - 1) = Ok costes ->
  py_min (costes_del_commodity costes c) = Some m ->
  (1 <= m)%nat ->
  actualizar_commodity it i c = Fin c' ->
  exists d_kbeta paths1 suma,
    dict_get m (costes_del_commodity costes c) = Some d_kbeta
    /\ para_cada_ef (actualizar_path it i m d_kbeta) (costes_del_commodity costes c)
         (Commodity.paths c, 0) = Fin (paths1, suma)
    /\ (m - 1 < length paths1)%nat
    /\ c' = Commodity.con_paths
              (list_set paths1 (m - 1)
                 (Path.con_trafico (Qmax 0 (Commodity.requirement c - suma))))
              c.
Proof.
  intros Ecostes Emin Hm. unfold actualizar_commodity. rewrite Ecostes, Emin.
  unfold dict_item.
  destruct (dict_get m (costes_del_commodity costes c)) as [d_kbeta|]; [|discriminate].
  destruct (para_cada_ef _ _ _) as [[paths1 suma]|e [paths1 suma]] eqn:Eloop;
    [|discriminate].
  rewrite (py_pos_ordinal paths1 m Hm).
  destruct (m - 1 <? length paths1)%nat eqn:E; [|discriminate].
  apply Nat.ltb_lt in E. intros Ef; injection Ef as <-.
  exists d_kbeta, paths1, suma. repeat split; auto.
Qed.

Lemma suma_Q_ext {A : Type} (f g : A -> Q) (l : list A) :
  (forall x, In x l -> f x == g x) -> suma_Q (map f l) == suma_Q (map g l).
Proof.
  induction l as [|a l IH]; intros Hfg; cbn [map suma_Q fold_right]; [reflexivity|].
  fold (suma_Q (map f l)). fold (suma_Q (map g l)).
  rewrite (Hfg a (or_introl eq_refl)), IH; [reflexivity|].
  intros x Hx. apply Hfg. now right.
Qed.

(** When the pass over a commodity that has costs in the previous snapshot
    returns, the traffic of its reference path is
    [max(0, requirement - s)], where [s] is the sum of the traffics that the
    pass has just given to the paths that have a cost and are not the
    reference path. *)
Lemma actualizar_commodity_referencia (it : Iteraciones) (i : nat) (c c' : Commodity.t)
  (costes : dict (Commodity.t * nat) Q) (m : nat)
  (Hledger : ledger_valido it)
  (Hcostes : py_index (costes_path it) (Z.of_nat i - 1) = Ok costes)
  (Hmin : py_min (costes_del_commodity costes c) = Some m)
  (Hfin : actualizar_commodity it i c = Fin c') :
  exists p_ref p_ref',
    nth_error (Commodity.paths c) (m - 1) = Some p_ref
    /\ nth_error (Commodity.paths c') (m - 1) = Some p_ref'
    /\ Path.enlaces p_ref' = Path.enlaces p_ref
    /\ Path.trafico p_ref'
       == Qmax 0 (Commodity.requirement c
                  - suma_Q (map (trafico_en (Commodity.paths c'))
                              (no_referencia (costes_del_commodity costes c) m))).
Proof.
  assert (Hval : costes_validos costes).
  { unfold ledger_valido in Hledger. rewrite Forall_forall in Hledger.
    apply Hledger. eapply py_index_In; eauto. }
  destruct (costes_del_commodity_validos costes c Hval) as [Hnd Hids].
  assert (Hm : (1 <= m)%nat).
  { pose proof (py_min_In _ _ Hmin) as Hin. unfold claves in Hin.
    apply in_map_iff in Hin. destruct Hin as (kv & <- & Hkv).
    rewrite Forall_forall in Hids. exact (Hids kv Hkv). }
  destruct (actualizar_commodity_fin it i c c' costes m Hcostes Hmin Hm Hfin)
    as (d_kbeta & paths1 & suma & Hd & Hloop & Hlt & ->).
  destruct (bucle_paths_fin it i m d_kbeta _ _ _ _ _ Hnd Hids Hm Hloop)
    as (Hlen & Hsame & _ & Hsum).
  assert (Hnr : ~ In m (no_referencia (costes_del_commodity costes c) m)).
  { unfold no_referencia. rewrite filter_In, Nat.eqb_refl. intros [_ E]. discriminate. }
  pose proof (Hsame m Hm Hnr) as Href.
  destruct (nth_error paths1 (m - 1)) as [p1|] eqn:E1;
    [|apply nth_error_None in E1; lia].
  exists p1, (Path.con_trafico (Qmax 0 (Commodity.requirement c - suma)) p1).
  cbn [Commodity.con_paths Commodity.paths].
  split; [now rewrite <- Href|].
  split; [now rewrite list_set_nth_eq, E1|].
  split; [reflexivity|].
  cbn [Path.con_trafico Path.trafico].
  assert (Hs : suma == suma_Q (map (trafico_en
                 (list_set paths1 (m - 1)
                    (Path.con_trafico (Qmax 0 (Commodity.requirement c - suma)))))
                 (no_referencia (costes_del_commodity costes c) m))).
  { eapply Qeq_trans; [exact Hsum|]. rewrite Qplus_0_l. symmetry. apply suma_Q_ext.
    intros id Hid. unfold no_referencia in Hid. rewrite filter_In in Hid.
    destruct Hid as [Hin Hne]. apply negb_true_iff, Nat.eqb_neq in Hne.
    assert (Hid1 : (1 <= id)%nat).
    { unfold claves in Hin. apply in_map_iff in Hin. destruct Hin as (kv & <- & Hkv).
      rewrite Forall_forall in Hids. exact (Hids kv Hkv). }
    unfold trafico_en. rewrite list_set_nth_neq by lia. reflexivity. }
  apply Q.max_compat; [reflexivity|].
  unfold Qminus. apply Qplus_comp; [reflexivity|]. apply Qopp_comp. exact Hs.
Qed.

(** *** The curvature sum *)

Lemma existsb_congr (e e' : Enlace.t) (l : list Enlace.t) :
  py_eqb e e' = true ->
  existsb (fun x => py_eqb x e) l = existsb (fun x => py_eqb x e') l.
Proof.
  intros He. induction l as [|a l IH]; cbn [existsb]; [reflexivity|].
  now rewrite (py_eqb_congr_r e e' a He), IH.
Qed.

Lemma existsb_sym (e : Enlace.t) (l : list Enlace.t) :
  existsb (py_eqb e) l = existsb (fun x => py_eqb x e) l.
Proof.
  induction l as [|a l IH]; cbn [existsb]; [reflexivity|].
  now rewrite (py_eqb_sym e a), IH.
Qed.

Lemma py_set_existsb (l : list Enlace.t) (e : Enlace.t) :
  existsb (fun x => py_eqb x e) (py_set l) = existsb (fun x => py_eqb x e) l.
Proof.
  induction l as [|a l IH]; cbn [py_set existsb]; [reflexivity|].
  destruct (existsb (py_eqb a) l) eqn:Ea; cbn [existsb]; rewrite IH; [|reflexivity].
  destruct (py_eqb a e) eqn:Eae; [|reflexivity].
  cbn [orb]. rewrite existsb_sym in Ea.
  now rewrite <- (existsb_congr a e l Eae).
Qed.

Lemma filter_cuenta_cero (e : Enlace.t) (l : list Enlace.t) :
  existsb (fun x => py_eqb x e) l = false ->
  length (filter (fun x => py_eqb x e) l) = 0%nat.
Proof.
  induction l as [|a l IH]; cbn [existsb filter]; [reflexivity|].
  destruct (py_eqb a e); cbn [orb]; [discriminate|exact IH].
Qed.

Lemma py_set_sin_repetidos (l : list Enlace.t) : sin_repetidos (py_set l).
Proof.
  intros e. induction l as [|a l IH]; cbn [py_set filter length]; [lia|].
  destruct (existsb (py_eqb a) l) eqn:Ea; [exact IH|].
  cbn [filter]. destruct (py_eqb a e) eqn:Eae; [|exact IH].
  cbn [length]. rewrite filter_cuenta_cero; [lia|].
  rewrite py_set_existsb, <- (existsb_congr a e l Eae), <- existsb_sym. exact Ea.
Qed.

Lemma filter_fuera (e : Enlace.t) (a b : list Enlace.t) :
  length (filter (fun x => py_eqb x e)
            (filter (fun x => negb (existsb (py_eqb x) b)) a))
  = if existsb (fun x => py_eqb x e) b then 0%nat
    else length (filter (fun x => py_eqb x e) a).
Proof.
  induction a as [|x a IH]; cbn [filter length].
  - now destruct (existsb _ b).
  - destruct (py_eqb x e) eqn:Exe.
    + rewrite (existsb_sym x b), (existsb_congr x e b Exe).
      destruct (existsb (fun y => py_eqb y e) b) eqn:Eb; cbn [negb].
      * exact IH.
      * cbn [filter]. rewrite Exe. cbn [length]. now rewrite IH.
    + destruct (negb (existsb (py_eqb x) b)); [cbn [filter]; rewrite Exe|]; exact IH.
Qed.

Lemma existsb_cuenta (e : Enlace.t) (l : list Enlace.t) :
  existsb (fun x => py_eqb x e) l
  = negb (length (filter (fun x => py_eqb x e) l) =? 0)%nat.
Proof.
  induction l as [|a l IH]; cbn [existsb filter]; [reflexivity|].
  destruct (py_eqb a e); [reflexivity|exact IH].
Qed.

Lemma symmetric_difference_cuenta (e : Enlace.t) (a b : list Enlace.t) :
  length (filter (fun x => py_eqb x e) (symmetric_difference a b))
  = ((if existsb (fun x => py_eqb x e) b then 0
      else length (filter (fun x => py_eqb x e) a))
     + (if existsb (fun x => py_eqb x e) a then 0
        else length (filter (fun x => py_eqb x e) b)))%nat.
Proof.
  unfold symmetric_difference. now rewrite filter_app, length_app, !filter_fuera.
Qed.

(** The links that [calcular_H_kp] sums over: each link value that one of
    the two paths uses and the other does not, once. *)
Lemma symmetric_difference_spec (p pm : Path.t) :
  let L_kp := symmetric_difference (py_set (Path.enlaces p)) (py_set (Path.enlaces pm)) in
  sin_repetidos L_kp
  /\ forall e, existsb (fun x => py_eqb x e) L_kp = xorb (contiene p e) (contiene pm e).
Proof.
  cbv zeta. split.
  - intros e. rewrite symmetric_difference_cuenta.
    pose proof (py_set_sin_repetidos (Path.enlaces p) e) as Hp.
    pose proof (py_set_sin_repetidos (Path.enlaces pm) e) as Hpm.
    rewrite !existsb_cuenta.
    destruct (length (filter _ (py_set (Path.enlaces p)))) as [|[|n]];
      destruct (length (filter _ (py_set (Path.enlaces pm)))) as [|[|n']];
      cbn; lia.
  - intros e. rewrite existsb_cuenta, symmetric_difference_cuenta.
    unfold contiene.
    rewrite <- (py_set_existsb (Path.enlaces p) e), <- (py_set_existsb (Path.enlaces pm) e).
    rewrite !existsb_cuenta.
    destruct (length (filter _ (py_set (Path.enlaces p)))) as [|n];
      destruct (length (filter _ (py_set (Path.enlaces pm)))) as [|n'];
      reflexivity.
Qed.

Lemma sumar_curvatura_desde (flujo : dict Enlace.t Q) (L : list Enlace.t) (acc H : Q) :
  para_cada (sumar_curvatura flujo) L acc = Ok H ->
  exists fs,
    Forall2 (fun e f => f_double_prima e (dict_get_or e 0 flujo) = Ok f) L fs
    /\ H == acc + suma_Q fs.
Proof.
  revert acc. induction L as [|e L IH]; intros acc; cbn [para_cada].
  - intros E; injection E as <-. exists []. split; [constructor|].
    unfold suma_Q; simpl. ring.
  - unfold sumar_curvatura at 1.
    destruct (f_double_prima e (dict_get_or e 0 flujo)) as [f|] eqn:Ef; cbn [bind];
      [|discriminate].
    intros E. destruct (IH _ E) as (fs & Hfs & Hsum).
    exists (f :: fs). split; [constructor; assumption|].
    rewrite Hsum. unfold suma_Q; simpl. ring.
Qed.

Lemma calcular_H_kp_suma (p pm : Path.t) (flujo : dict Enlace.t Q) (H : Q) :
  calcular_H_kp p pm flujo = Ok H ->
  exists fs,
    Forall2 (fun e f => f_double_prima e (dict_get_or e 0 flujo) = Ok f)
      (symmetric_difference (py_set (Path.enlaces p)) (py_set (Path.enlaces pm))) fs
    /\ H == suma_Q fs.
Proof.
  unfold calcular_H_kp. cbv zeta. intros E.
  destruct (sumar_curvatura_desde flujo _ 0 H E) as (fs & Hfs & Hsum).
  exists fs. split; [exact Hfs|]. rewrite Hsum. ring.
Qed.

(** *** The costs of one commodity in a snapshot *)

Lemma dict_get_In (d : dict nat Q) (id : nat) (v : Q) :
  dict_get id d = Some v -> In (id, v) d.
Proof.
  induction d as [|[k0 v0] r IH]; cbn [dict_get]; [discriminate|].
  rewrite py_eqb_nat. destruct (k0 =? id)%nat eqn:E.
  - apply Nat.eqb_eq in E. intros Ev; injection Ev as <-. left. now subst.
  - intros Ev. right. now apply IH.
Qed.

Lemma costes_del_commodity_get_desde (costes : dict (Commodity.t * nat) Q)
  (c : Commodity.t) (id : nat) (acc : dict nat Q) :
  dict_wf costes ->
  dict_get id
    (fold_left
       (fun acc (kv : Commodity.t * nat * Q) =>
          if py_eqb (fst (fst kv)) c then dict_set (snd (fst kv)) (snd kv) acc else acc)
       costes acc)
  = match dict_get (c, id) costes with
    | Some v => Some v
    | None => dict_get id acc
    end.
Proof.
  revert acc. induction costes as [|[[c0 j] v] r IH]; intros acc; cbn [fold_left dict_wf];
    [reflexivity|].
  intros [Hk Hr]. cbn [fst snd]. rewrite (IH _ Hr). cbn [dict_get].
  rewrite py_eqb_par, py_eqb_nat.
  destruct (py_eqb c0 c) eqn:Ec; cbn [andb].
  - destruct (j =? id)%nat eqn:Ej.
    + apply Nat.eqb_eq in Ej. subst j.
      assert (Hkey : py_eqb (c0, id) (c, id) = true)
        by (now rewrite py_eqb_par, Ec, py_eqb_refl).
      rewrite <- (dict_get_congr _ _ r Hkey), Hk.
      rewrite dict_get_set. now rewrite py_eqb_refl.
    + destruct (dict_get (c, id) r); [reflexivity|].
      rewrite dict_get_set, py_eqb_nat. now rewrite Ej.
  - reflexivity.
Qed.

Lemma costes_del_commodity_get (costes : dict (Commodity.t * nat) Q) (c : Commodity.t)
  (id : nat) :
  dict_wf costes ->
  dict_get id (costes_del_commodity costes c) = dict_get (c, id) costes.
Proof.
  intros Hwf. unfold costes_del_commodity.
  rewrite (costes_del_commodity_get_desde costes c id [] Hwf).
  now destruct (dict_get (c, id) costes).
Qed.

(** When the pass over a commodity returns, a path [p] that is not the
    reference path and has the cost [d_kp] in the previous snapshot carries
    [max(0, x_p - (0.001 / H_kp) * (d_kp - d_kbeta))]. *)
Lemma actualizar_commodity_no_referencia (it : Iteraciones) (i : nat) (c c' : Commodity.t)
  (costes : dict (Commodity.t * nat) Q) (m path_id : nat) (d_kp d_kbeta : Q)
  (Hledger : ledger_valido it)
  (Hcostes : py_index (costes_path it) (Z.of_nat i - 1) = Ok costes)
  (Hmin : py_min (costes_del_commodity costes c) = Some m)
  (Hfin : actualizar_commodity it i c = Fin c')
  (Hbeta : dict_get (c, m) costes = Some d_kbeta)
  (Hkp : dict_get (c, path_id) costes = Some d_kp)
  (Hne : path_id <> m) :
  exists p p_ref flujo H_kp fs p',
    nth_error (Commodity.paths c) (path_id - 1) = Some p
    /\ nth_error (Commodity.paths c) (m - 1) = Some p_ref
    /\ py_index (flujo_total it) (Z.of_nat i - 1) = Ok flujo
    /\ calcular_H_kp p p_ref flujo = Ok H_kp
    /\ ~ H_kp == 0
    /\ (let L_kp := symmetric_difference (py_set (Path.enlaces p))
                      (py_set (Path.enlaces p_ref)) in
        sin_repetidos L_kp
        /\ (forall e, existsb (fun x => py_eqb x e) L_kp
                      = xorb (contiene p e) (contiene p_ref e))
        /\ Forall2 (fun e f => f_double_prima e (dict_get_or e 0 flujo) = Ok f) L_kp fs
        /\ H_kp == suma_Q fs)
    /\ nth_error (Commodity.paths c') (path_id - 1) = Some p'
    /\ Path.enlaces p' = Path.enlaces p
    /\ Path.trafico p'
       = Qmax 0 (Path.trafico p - 0.001 / H_kp * (d_kp - d_kbeta)).
Proof.
  assert (Hval : costes_validos costes).
  { unfold ledger_valido in Hledger. rewrite Forall_forall in Hledger.
    apply Hledger. eapply py_index_In; eauto. }
  destruct (costes_del_commodity_validos costes c Hval) as [Hnd Hids].
  assert (Hm : (1 <= m)%nat).
  { pose proof (py_min_In _ _ Hmin) as Hin. unfold claves in Hin.
    apply in_map_iff in Hin. destruct Hin as (kv & <- & Hkv).
    rewrite Forall_forall in Hids. exact (Hids kv Hkv). }
  destruct Hval as [Hwf _].
  rewrite <- (costes_del_commodity_get costes c m Hwf) in Hbeta.
  rewrite <- (costes_del_commodity_get costes c path_id Hwf) in Hkp.
  apply dict_get_In in Hkp.
  assert (Hid : (1 <= path_id)%nat).
  { rewrite Forall_forall in Hids. exact (Hids _ Hkp). }
  destruct (actualizar_commodity_fin it i c c' costes m Hcostes Hmin Hm Hfin)
    as (d_kbeta' & paths1 & suma & Hd & Hloop & Hlt & ->).
  rewrite Hbeta in Hd. injection Hd as <-.
  destruct (bucle_paths_fin it i m d_kbeta _ _ _ _ _ Hnd Hids Hm Hloop)
    as (_ & _ & Hnew & _).
  destruct (Hnew path_id d_kp Hkp Hne)
    as (p & pm & flujo & H & Ep & Epm & Ef & EH & HH & Enew).
  destruct (calcular_H_kp_suma p pm flujo H EH) as (fs & Hfs & Hsum).
  destruct (symmetric_difference_spec p pm) as [Hsr Hxor].
  exists p, pm, flujo, H, fs,
    (Path.con_trafico (Qmax 0 (Path.trafico p - 0.001 / H * (d_kp - d_kbeta))) p).
  cbn [Commodity.con_paths Commodity.paths].
  rewrite list_set_nth_neq by lia.
  repeat split; auto.
Qed.

(** *** The ledger of a run is valid *)

Lemma coste_paths_validos (flujo : dict Enlace.t Q) (c : Commodity.t) (ps : list Path.t)
  (s : nat) (d d' : dict (Commodity.t * nat) Q) :
  (1 <= s)%nat -> costes_validos d ->
  para_cada (coste_path flujo c) (enumerate ps s) d = Ok d' -> costes_validos d'.
Proof.
  revert s d. induction ps as [|p ps IH]; intros s d Hs Hd; cbn [enumerate para_cada].
  - intros E; now injection E as <-.
  - unfold coste_path at 1.
    destruct (para_cada (coste_enlace flujo) (Path.enlaces p) 0) as [v|]; cbn [bind];
      [|discriminate].
    apply IH; [lia|]. destruct Hd as [Hwf Hord]. split.
    + now apply dict_set_wf.
    + rewrite <- Forall_map with (f := fst) (P := fun k => (1 <= snd k)%nat).
      apply (dict_set_claves_Forall (fun k : Commodity.t * nat => (1 <= snd k)%nat));
        [exact Hs|].
      unfold claves. now rewrite Forall_map.
Qed.

Lemma calcular_coste_total_validos (cs : list Commodity.t) (flujo : dict Enlace.t Q)
  (costes : dict (Commodity.t * nat) Q) :
  calcular_coste_total_por_path cs flujo = Ok costes -> costes_validos costes.
Proof.
  unfold calcular_coste_total_por_path.
  assert (H0 : costes_validos (@nil (Commodity.t * nat * Q))) by (split; [exact I|constructor]).
  revert H0. generalize (@nil (Commodity.t * nat * Q)).
  induction cs as [|c cs IH]; intros d Hd; cbn [para_cada].
  - intros E; now injection E as <-.
  - destruct (para_cada (coste_path flujo c) _ d) as [d1|] eqn:E1; cbn [bind];
      [|discriminate].
    apply IH. eapply coste_paths_validos; [|exact Hd|exact E1]. lia.
Qed.

Lemma iteracion_ledger_valido (i : nat) (cs : list Commodity.t) (it : Iteraciones) :
  ledger_valido it -> ledger_valido (snd (estado (iteracion i (cs, it)))).
Proof.
  intros Hit. unfold iteracion.
  destruct (if (i =? 0)%nat then _ else _) as [cs'|e cs']; [|exact Hit].
  destruct (calcular_coste_total_por_path _ _) as [costes|] eqn:E; [|exact Hit].
  unfold ledger_valido, append_iteracion. cbn [estado snd costes_path].
  apply Forall_app. split; [exact Hit|].
  constructor; [|constructor]. eapply calcular_coste_total_validos; eauto.
Qed.

Lemma bucle_ledger_valido (rango : list nat) (cs : list Commodity.t) (it : Iteraciones) :
  ledger_valido it -> ledger_valido (snd (estado (bucle rango (cs, it)))).
Proof.
  intros Hit.
  apply (para_cada_ef_inv (fun st : list Commodity.t * Iteraciones => ledger_valido (snd st))
           (fun st i => iteracion i st)); [|exact Hit].
  intros [cs0 it0] i. apply iteracion_ledger_valido.
Qed.

(** The pass over one path that is not the reference path returns, and
    writes the new traffic, as soon as the two paths exist, the previous
    flows are recorded and the curvature sum is not [0]. *)
Lemma actualizar_path_completa (it : Iteraciones) (i m : nat) (d_kbeta : Q)
  (paths : list Path.t) (suma : Q) (id : nat) (d : Q) (p pm : Path.t)
  (flujo : dict Enlace.t Q) (H : Q) :
  (1 <= id)%nat -> (1 <= m)%nat -> id <> m ->
  nth_error paths (id - 1) = Some p ->
  nth_error paths (m - 1) = Some pm ->
  py_index (flujo_total it) (Z.of_nat i - 1) = Ok flujo ->
  calcular_H_kp p pm flujo = Ok H ->
  ~ H == 0 ->
  actualizar_path it i m d_kbeta (paths, suma) (id, d)
  = Fin (list_set paths (id - 1)
           (Path.con_trafico (Qmax 0 (Path.trafico p - 0.001 / H * (d - d_kbeta)))),
         suma + Qmax 0 (Path.trafico p - 0.001 / H * (d - d_kbeta))).
Proof.
  intros Hid Hm Hne Ep Epm Ef EH HH. unfold actualizar_path.
  apply Nat.eqb_neq in Hne. rewrite Hne.
  unfold nuevo_trafico_de.
  rewrite (py_index_ordinal paths id Hid), (py_index_ordinal paths m Hm), Ep, Epm.
  cbn [bind]. rewrite Ef. cbn [bind]. rewrite EH. cbn [bind].
  assert (Ev : calculo_del_trafico_para_la_siguiente_iteracion i (Path.trafico p) H d d_kbeta
               = Ok (Qmax 0 (Path.trafico p - 0.001 / H * (d - d_kbeta)))).
  { apply calculo_del_trafico_ok. auto. }
  rewrite Ev, (py_pos_ordinal paths id Hid).
  replace (id - 1 <? length paths)%nat with true; [reflexivity|].
  symmetry. apply Nat.ltb_lt. apply nth_error_Some. congruence.
Qed.

(** ** The update inside a run *)

Lemma para_cada_commodity_fin (f : Commodity.t -> efecto Commodity.t)
  (cs cs' : list Commodity.t) :
  para_cada_commodity f cs = Fin cs' -> Forall2 (fun c c' => f c = Fin c') cs cs'.
Proof.
  revert cs'. induction cs as [|c cs IH]; intros cs'; cbn [para_cada_commodity].
  - intros E; injection E as <-. constructor.
  - destruct (f c) as [c1|] eqn:Ec; [|discriminate].
    destruct (para_cada_commodity f cs) as [cs1|]; [|discriminate].
    intros E; injection E as <-. constructor; [exact Ec|now apply IH].
Qed.

(** A pass [i > 0] that returns has updated every commodity. *)
Lemma iteracion_actualiza (i : nat) (cs cs' : list Commodity.t) (it it' : Iteraciones) :
  i <> 0%nat ->
  iteracion i (cs, it) = Fin (cs', it') ->
  Forall2 (fun c c' => actualizar_commodity it i c = Fin c') cs cs'.
Proof.
  intros Hi. unfold iteracion. apply Nat.eqb_neq in Hi. rewrite Hi.
  destruct (para_cada_commodity (actualizar_commodity it i) cs) as [cs1|] eqn:E;
    [|discriminate].
  destruct (calcular_coste_total_por_path _ _); [|discriminate].
  intros Ef; injection Ef as <- _. now apply para_cada_commodity_fin.
Qed.

(** The snapshots that pass [n] of the loop records are computed from the
    commodities that the pass leaves. *)
Lemma bucle_registra (n : nat) (cs cs' : list Commodity.t) (it : Iteraciones) :
  bucle (seq 0 (S n)) (cs, iteraciones_vacias) = Fin (cs', it) ->
  exists costes,
    calcular_coste_total_por_path cs' (calcular_flujo_por_enlace cs') = Ok costes
    /\ py_index (costes_path it) (Z.of_nat (S n) - 1) = Ok costes
    /\ py_index (flujo_total it) (Z.of_nat (S n) - 1) = Ok (calcular_flujo_por_enlace cs')
    /\ ledger_valido it.
Proof.
  intros Hrun.
  assert (Hval : ledger_valido it).
  { pose proof (bucle_ledger_valido (seq 0 (S n)) cs iteraciones_vacias (Forall_nil _)) as H.
    now rewrite Hrun in H. }
  pose proof (bucle_registra_flujo n cs cs' it Hrun) as Hflujo.
  revert Hrun. rewrite seq_S, bucle_app. cbn [Nat.add].
  assert (H0 : entradas iteraciones_vacias 0) by (repeat split).
  pose proof (bucle_entradas (seq 0 n) 0 cs _ H0) as Hb.
  destruct (bucle (seq 0 n) (cs, iteraciones_vacias)) as [[cs1 it1]|e [cs1 it1]];
    [|discriminate].
  rewrite length_seq in Hb. cbn [Nat.add] in Hb. destruct Hb as (_ & Hc & _).
  rewrite bucle_cons. unfold iteracion.
  destruct (if (n =? 0)%nat then _ else _) as [cs2|e cs2]; [|discriminate].
  destruct (calcular_coste_total_por_path cs2 _) as [costes|] eqn:Ecostes; [|discriminate].
  cbn [para_cada_ef bucle]. intros E; injection E as <- <-.
  exists costes. split; [exact Ecostes|].
  assert (H1 : (1 <= S n)%nat) by lia.
  rewrite !(py_index_ordinal _ (S n) H1).
  replace (S n - 1)%nat with n by lia.
  rewrite Hflujo. cbn [append_iteracion costes_path].
  rewrite nth_error_app2 by lia. rewrite Hc, Nat.sub_diag. cbn [nth_error].
  repeat split; auto.
Qed.

Lemma dict_get_set_presente {K V : Type} `{PyEq K} (k k' : K) (v : V) (d : dict K V) :
  dict_get k d <> None -> dict_get k (dict_set k' v d) <> None.
Proof.
  rewrite dict_get_set. destruct (py_eqb k' k); [discriminate|auto].
Qed.

Lemma coste_paths_presente (flujo : dict Enlace.t Q) (c : Commodity.t) (ps : list Path.t)
  (s : nat) (d d' : dict (Commodity.t * nat) Q) (k : Commodity.t * nat) :
  para_cada (coste_path flujo c) (enumerate ps s) d = Ok d' ->
  dict_get k d <> None -> dict_get k d' <> None.
Proof.
  revert s d. induction ps as [|p ps IH]; intros s d; cbn [enumerate para_cada].
  - intros E; now injection E as <-.
  - unfold coste_path at 1.
    destruct (para_cada (coste_enlace flujo) (Path.enlaces p) 0) as [v|]; cbn [bind];
      [|discriminate].
    intros E Hk. apply (IH _ _ E). now apply dict_get_set_presente.
Qed.

Lemma coste_commodities_presente (flujo : dict Enlace.t Q) (cs : list Commodity.t)
  (d d' : dict (Commodity.t * nat) Q) (k : Commodity.t * nat) :
  para_cada
    (fun costes c => para_cada (coste_path flujo c) (enumerate (Commodity.paths c) 1) costes)
    cs d = Ok d' ->
  dict_get k d <> None -> dict_get k d' <> None.
Proof.
  revert d. induction cs as [|c cs IH]; intros d; cbn [para_cada].
  - intros E; now injection E as <-.
  - destruct (para_cada (coste_path flujo c) _ d) as [d1|] eqn:E1; cbn [bind];
      [|discriminate].
    intros E Hk. apply (IH _ E). eapply coste_paths_presente; eauto.
Qed.

(** Every path of every commodity has a cost in the snapshot. *)
Lemma costes_registra_todos (cs : list Commodity.t) (flujo : dict Enlace.t Q)
  (costes : dict (Commodity.t * nat) Q) (c : Commodity.t) (j : nat) :
  calcular_coste_total_por_path cs flujo = Ok costes ->
  In c cs -> (j < length (Commodity.paths c))%nat ->
  dict_get (c, S j) costes <> None.
Proof.
  intros Hcostes Hin Hj. apply in_split in Hin. destruct Hin as (pre & post & ->).
  unfold calcular_coste_total_por_path in Hcostes. rewrite para_cada_app in Hcostes.
  match type of Hcostes with
  | bind ?m _ = _ => destruct m as [d0|e]; cbn [bind para_cada] in Hcostes;
                     [|discriminate]
  end.
  destruct (para_cada (coste_path flujo c) _ d0) as [d1|e] eqn:E1;
    cbn [bind] in Hcostes; [|discriminate].
  apply (coste_commodities_presente flujo post d1 costes _ Hcostes).
  destruct (nth_error (Commodity.paths c) j) as [p|] eqn:Ep;
    [|apply nth_error_None in Ep; lia].
  destruct (coste_paths_escribe flujo c _ 1 d0 d1 j p E1 Ep) as (v & Hv & _).
  cbn [Nat.add] in Hv. congruence.
Qed.

Lemma py_min_definido (d : dict nat Q) (id : nat) :
  dict_get id d <> None -> exists m, py_min d = Some m.
Proof.
  destruct d as [|kv r]; cbn [dict_get py_min]; [congruence|eauto].
Qed.

Lemma suma_Q_perm {A : Type} (f : A -> Q) (l l' : list A) :
  Permutation l l' -> suma_Q (map f l) == suma_Q (map f l').
Proof.
  induction 1 as [|x l l' _ IH|x y l|l l' l'' _ IH1 _ IH2]; cbn [map suma_Q fold_right].
  - reflexivity.
  - fold (suma_Q (map f l)). fold (suma_Q (map f l')). now rewrite IH.
  - fold (suma_Q (map f l)). ring.
  - now rewrite IH1.
Qed.

Lemma Forall2_impl_In {A B : Type} (P Q : A -> B -> Prop) (l : list A) (l' : list B) :
  (forall a b, In a l -> P a b -> Q a b) -> Forall2 P l l' -> Forall2 Q l l'.
Proof.
  intros HPQ H. induction H as [|a b l l' Hab _ IH]; constructor.
  - apply HPQ; [now left|exact Hab].
  - apply IH. intros a0 b0 Hin. apply HPQ. now right.
Qed.

Lemma dict_get_clave (d : dict nat Q) (id : nat) :
  dict_get id d <> None <-> In id (claves d).
Proof.
  rewrite dict_get_claves. split.
  - intros (k0 & Hin & E). rewrite py_eqb_nat in E. apply Nat.eqb_eq in E. now subst.
  - intros Hin. exists id. split; [exact Hin|apply py_eqb_refl].
Qed.

(** In a run, at a pass that returns, the paths with a cost that are not the
    reference path are all the other paths of the commodity. *)
Lemma no_referencia_otros_paths (it : Iteraciones) (i : nat) (c c' : Commodity.t)
  (cs : list Commodity.t) (flujo : dict Enlace.t Q)
  (costes : dict (Commodity.t * nat) Q) (m : nat) :
  ledger_valido it ->
  py_index (costes_path it) (Z.of_nat i - 1) = Ok costes ->
  calcular_coste_total_por_path cs flujo = Ok costes ->
  In c cs ->
  py_min (costes_del_commodity costes c) = Some m ->
  actualizar_commodity it i c = Fin c' ->
  Permutation (no_referencia (costes_del_commodity costes c) m) (otros_paths c m).
Proof.
  intros Hledger Hcostes Hcalc Hin Hmin Hfin.
  assert (Hval : costes_validos costes).
  { unfold ledger_valido in Hledger. rewrite Forall_forall in Hledger.
    apply Hledger. eapply py_index_In; eauto. }
  destruct (costes_del_commodity_validos costes c Hval) as [Hnd Hids].
  destruct Hval as [Hwf _].
  assert (Hbeta : exists d_kbeta, dict_get (c, m) costes = Some d_kbeta).
  { pose proof (py_min_In _ _ Hmin) as Hm. apply dict_get_clave in Hm.
    rewrite (costes_del_commodity_get costes c m Hwf) in Hm.
    destruct (dict_get (c, m) costes) as [d|]; [eauto|congruence]. }
  destruct Hbeta as (d_kbeta & Hbeta).
  apply NoDup_Permutation.
  - unfold no_referencia. now apply NoDup_filter.
  - unfold otros_paths. apply NoDup_filter, seq_NoDup.
  - intros id. unfold no_referencia, otros_paths. rewrite !filter_In, in_seq. split.
    + intros [Hid Hne]. split; [|exact Hne].
      assert (Hid1 : (1 <= id)%nat).
      { unfold claves in Hid. apply in_map_iff in Hid. destruct Hid as (kv & <- & Hkv).
        rewrite Forall_forall in Hids. exact (Hids kv Hkv). }
      apply dict_get_clave in Hid.
      rewrite (costes_del_commodity_get costes c id Hwf) in Hid.
      destruct (dict_get (c, id) costes) as [d_kp|] eqn:Ekp; [|congruence].
      apply negb_true_iff, Nat.eqb_neq in Hne.
      destruct (actualizar_commodity_no_referencia it i c c' costes m id d_kp d_kbeta
                  Hledger Hcostes Hmin Hfin Hbeta Ekp Hne)
        as (p & _ & _ & _ & _ & _ & Ep & _).
      assert (Hlt : (id - 1 < length (Commodity.paths c))%nat)
        by (apply nth_error_Some; congruence).
      lia.
    + intros [[H1 Hlen] Hne]. split; [|exact Hne].
      apply dict_get_clave. rewrite (costes_del_commodity_get costes c id Hwf).
      replace id with (S (id - 1)) by lia.
      apply (costes_registra_todos cs flujo costes c (id - 1) Hcalc Hin). lia.
Qed.

(** C3: at every iteration [S n] of a run, when the pass returns, every
    commodity with at least one path has a reference path, the first path
    of minimum cost in the snapshot of iteration [n], and the traffic of
    that path is [max(0, requirement - s)], where [s] is the sum of the
    traffics that the pass has given to all the other paths of the
    commodity; neither costs nor curvatures enter that value. *)
Theorem C3_trafico_de_referencia (n : nat) (cs cs_n cs' : list Commodity.t)
  (it_n it' : Iteraciones)
  (Hrun : bucle (seq 0 (S n)) (cs, iteraciones_vacias) = Fin (cs_n, it_n))
  (Hpaso : iteracion (S n) (cs_n, it_n) = Fin (cs', it')) :
  exists costes,
    py_index (costes_path it_n) (Z.of_nat (S n) - 1) = Ok costes
    /\ Forall2
         (fun c c' =>
            con_paths_definidos c ->
            exists m p_ref p_ref',
              py_min (costes_del_commodity costes c) = Some m
              /\ nth_error (Commodity.paths c) (m - 1) = Some p_ref
              /\ nth_error (Commodity.paths c') (m - 1) = Some p_ref'
              /\ Path.enlaces p_ref' = Path.enlaces p_ref
              /\ Path.trafico p_ref'
                 == Qmax 0 (Commodity.requirement c
                            - suma_Q (map (trafico_en (Commodity.paths c'))
                                        (otros_paths c m))))
         cs_n cs'.
Proof.
  destruct (bucle_registra n cs cs_n it_n Hrun) as (costes & Hcalc & Hcostes & _ & Hledger).
  exists costes. split; [exact Hcostes|].
  apply (Forall2_impl_In (fun c c' => actualizar_commodity it_n (S n) c = Fin c'));
    [|apply (iteracion_actualiza (S n) cs_n cs' it_n it'); [lia|exact Hpaso]].
  intros c c' Hin Hfin Hc.
  assert (Hwf : dict_wf costes).
  { unfold ledger_valido in Hledger. rewrite Forall_forall in Hledger.
    apply (Hledger costes). eapply py_index_In; eauto. }
  assert (H1 : dict_get 1%nat (costes_del_commodity costes c) <> None).
  { rewrite (costes_del_commodity_get costes c 1 Hwf).
    apply (costes_registra_todos cs_n _ costes c 0 Hcalc Hin).
    unfold con_paths_definidos in Hc. destruct (Commodity.paths c); [now elim Hc|].
    cbn [length]. lia. }
  destruct (py_min_definido _ 1%nat H1) as (m & Hmin).
  destruct (actualizar_commodity_referencia it_n (S n) c c' costes m
              Hledger Hcostes Hmin Hfin) as (p_ref & p_ref' & E1 & E2 & E3 & E4).
  exists m, p_ref, p_ref'. repeat split; auto.
  rewrite E4. apply Q.max_compat; [reflexivity|].
  unfold Qminus. apply Qplus_comp; [reflexivity|]. apply Qopp_comp.
  apply suma_Q_perm.
  exact (no_referencia_otros_paths it_n (S n) c c' cs_n _ costes m
           Hledger Hcostes Hcalc Hin Hmin Hfin).
Qed.

Lemma C3_trafico_de_referencia_witness :
  exists costes,
    py_index (costes_path (snd ejemplo_estado)) (Z.of_nat 1 - 1) = Ok costes
    /\ Forall2
         (fun c c' =>
            con_paths_definidos c ->
            exists m p_ref p_ref',
              py_min (costes_del_commodity costes c) = Some m
              /\ nth_error (Commodity.paths c) (m - 1) = Some p_ref
              /\ nth_error (Commodity.paths c') (m - 1) = Some p_ref'
              /\ Path.enlaces p_ref' = Path.enlaces p_ref
              /\ Path.trafico p_ref'
                 == Qmax 0 (Commodity.requirement c
                            - suma_Q (map (trafico_en (Commodity.paths c'))
                                        (otros_paths c m))))
         (fst ejemplo_estado) (fst (estado (iteracion 1 ejemplo_estado))).
Proof.
  apply (C3_trafico_de_referencia 0 [k1; k2] (fst ejemplo_estado)
           (fst (estado (iteracion 1 ejemplo_estado)))
           (snd ejemplo_estado) (snd (estado (iteracion 1 ejemplo_estado)))).
  - vm_compute; reflexivity.
  - vm_compute; reflexivity.
Defined.

(** C4: at every iteration [S n] of a run, when the pass returns, every
    path [p] of a commodity that is not its reference path carries
    [max(0, x_p - (0.001 / H_kp) * (d_kp - d_kbeta))], where [x_p] is the
    traffic of [p] before the pass, [d_kp] and [d_kbeta] are the costs of
    [p] and of the reference path in the snapshot of iteration [n], and
    [H_kp], which is not [0], is the sum of [f_double_prima], at the flows
    of iteration [n], over the link values that exactly one of the two
    paths uses. *)
Theorem C4_trafico_de_no_referencia (n : nat) (cs cs_n cs' : list Commodity.t)
  (it_n it' : Iteraciones)
  (Hrun : bucle (seq 0 (S n)) (cs, iteraciones_vacias) = Fin (cs_n, it_n))
  (Hpaso : iteracion (S n) (cs_n, it_n) = Fin (cs', it')) :
  exists costes flujo,
    py_index (costes_path it_n) (Z.of_nat (S n) - 1) = Ok costes
    /\ py_index (flujo_total it_n) (Z.of_nat (S n) - 1) = Ok flujo
    /\ flujo = calcular_flujo_por_enlace cs_n
    /\ Forall2
         (fun c c' =>
            forall m j p,
              py_min (costes_del_commodity costes c) = Some m ->
              nth_error (Commodity.paths c) j = Some p ->
              S j <> m ->
              exists p_ref d_kp d_kbeta H_kp fs p',
                nth_error (Commodity.paths c) (m - 1) = Some p_ref
                /\ dict_get (c, S j) costes = Some d_kp
                /\ dict_get (c, m) costes = Some d_kbeta
                /\ calcular_H_kp p p_ref flujo = Ok H_kp
                /\ ~ H_kp == 0
                /\ (let L_kp := symmetric_difference (py_set (Path.enlaces p))
                                  (py_set (Path.enlaces p_ref)) in
                    sin_repetidos L_kp
                    /\ (forall e, existsb (fun x => py_eqb x e) L_kp
                                  = xorb (contiene p e) (contiene p_ref e))
                    /\ Forall2 (fun e f => f_double_prima e (dict_get_or e 0 flujo) = Ok f)
                         L_kp fs
                    /\ H_kp == suma_Q fs)
                /\ nth_error (Commodity.paths c') j = Some p'
                /\ Path.enlaces p' = Path.enlaces p
                /\ Path.trafico p'
                   = Qmax 0 (Path.trafico p - 0.001 / H_kp * (d_kp - d_kbeta)))
         cs_n cs'.
Proof.
  destruct (bucle_registra n cs cs_n it_n Hrun)
    as (costes & Hcalc & Hcostes & Hflujo & Hledger).
  exists costes, (calcular_flujo_por_enlace cs_n).
  split; [exact Hcostes|]. split; [exact Hflujo|]. split; [reflexivity|].
  apply (Forall2_impl_In (fun c c' => actualizar_commodity it_n (S n) c = Fin c'));
    [|apply (iteracion_actualiza (S n) cs_n cs' it_n it'); [lia|exact Hpaso]].
  intros c c' Hin Hfin m j p Hmin Ep Hne.
  assert (Hwf : dict_wf costes).
  { unfold ledger_valido in Hledger. rewrite Forall_forall in Hledger.
    apply (Hledger costes). eapply py_index_In; eauto. }
  assert (Hj : (j < length (Commodity.paths c))%nat)
    by (apply nth_error_Some; congruence).
  pose proof (costes_registra_todos cs_n _ costes c j Hcalc Hin Hj) as Hkp.
  destruct (dict_get (c, S j) costes) as [d_kp|] eqn:Ekp; [clear Hkp|congruence].
  assert (Hbeta : exists d_kbeta, dict_get (c, m) costes = Some d_kbeta).
  { pose proof (py_min_In _ _ Hmin) as Hm. apply dict_get_clave in Hm.
    rewrite (costes_del_commodity_get costes c m Hwf) in Hm.
    destruct (dict_get (c, m) costes) as [d|]; [eauto|congruence]. }
  destruct Hbeta as (d_kbeta & Hbeta).
  destruct (actualizar_commodity_no_referencia it_n (S n) c c' costes m (S j) d_kp d_kbeta
              Hledger Hcostes Hmin Hfin Hbeta Ekp Hne)
    as (p0 & p_ref & flujo & H_kp & fs & p' & E1 & E2 & E3 & E4 & E5 & E6 & E7 & E8 & E9).
  replace (S j - 1)%nat with j in E1, E7 by lia.
  rewrite Ep in E1. injection E1 as <-.
  rewrite Hflujo in E3. injection E3 as <-.
  exists p_ref, d_kp, d_kbeta, H_kp, fs, p'. repeat split; auto; apply E6.
Qed.

Lemma C4_trafico_de_no_referencia_witness :
  exists costes flujo,
    py_index (costes_path (snd ejemplo_estado)) (Z.of_nat 1 - 1) = Ok costes
    /\ py_index (flujo_total (snd ejemplo_estado)) (Z.of_nat 1 - 1) = Ok flujo
    /\ flujo = calcular_flujo_por_enlace (fst ejemplo_estado)
    /\ Forall2
         (fun c c' =>
            forall m j p,
              py_min (costes_del_commodity costes c) = Some m ->
              nth_error (Commodity.paths c) j = Some p ->
              S j <> m ->
              exists p_ref d_kp d_kbeta H_kp fs p',
                nth_error (Commodity.paths c) (m - 1) = Some p_ref
                /\ dict_get (c, S j) costes = Some d_kp
                /\ dict_get (c, m) costes = Some d_kbeta
                /\ calcular_H_kp p p_ref flujo = Ok H_kp
                /\ ~ H_kp == 0
                /\ (let L_kp := symmetric_difference (py_set (Path.enlaces p))
                                  (py_set (Path.enlaces p_ref)) in
                    sin_repetidos L_kp
                    /\ (forall e, existsb (fun x => py_eqb x e) L_kp
                                  = xorb (contiene p e) (contiene p_ref e))
                    /\ Forall2 (fun e f => f_double_prima e (dict_get_or e 0 flujo) = Ok f)
                         L_kp fs
                    /\ H_kp == suma_Q fs)
                /\ nth_error (Commodity.paths c') j = Some p'
                /\ Path.enlaces p' = Path.enlaces p
                /\ Path.trafico p'
                   = Qmax 0 (Path.trafico p - 0.001 / H_kp * (d_kp - d_kbeta)))
         (fst ejemplo_estado) (fst (estado (iteracion 1 ejemplo_estado))).
Proof.
  apply (C4_trafico_de_no_referencia 0 [k1; k2] (fst ejemplo_estado)
           (fst (estado (iteracion 1 ejemplo_estado)))
           (snd ejemplo_estado) (snd (estado (iteracion 1 ejemplo_estado)))).
  - vm_compute; reflexivity.
  - vm_compute; reflexivity.
Defined.

(** * Path discovery (C2) *)

Local Open Scope nat_scope.

(** ** Sorting and slicing *)

Lemma insertar_por_longitud_perm (c : list Enlace.t) (l : list (list Enlace.t)) :
  Permutation (insertar_por_longitud c l) (c :: l).
Proof.
  induction l as [|x r IH]; cbn [insertar_por_longitud]; [reflexivity|].
  destruct (length c <=? length x); [reflexivity|].
  rewrite IH. apply perm_swap.
Qed.

Lemma ordenar_por_longitud_perm (l : list (list Enlace.t)) :
  Permutation (ordenar_por_longitud l) l.
Proof.
  induction l as [|c l IH]; cbn [ordenar_por_longitud fold_right]; [reflexivity|].
  rewrite insertar_por_longitud_perm. now constructor.
Qed.

Lemma insertar_por_longitud_HdRel (a c : list Enlace.t) (l : list (list Enlace.t)) :
  length a <= length c ->
  HdRel (fun a b => length a <= length b) a l ->
  HdRel (fun a b => length a <= length b) a (insertar_por_longitud c l).
Proof.
  intros Hac Hl. destruct l as [|x r]; cbn [insertar_por_longitud].
  - now constructor.
  - destruct (length c <=? length x); constructor; [exact Hac|].
    now inversion Hl.
Qed.

Lemma insertar_por_longitud_ordenado (c : list Enlace.t) (l : list (list Enlace.t)) :
  ordenado_por_longitud l -> ordenado_por_longitud (insertar_por_longitud c l).
Proof.
  unfold ordenado_por_longitud.
  induction l as [|x r IH]; intros Hl; cbn [insertar_por_longitud].
  - repeat constructor.
  - inversion Hl as [|? ? Hr Hx]; subst.
    destruct (length c <=? length x) eqn:E.
    + apply Nat.leb_le in E. constructor; [exact Hl|now constructor].
    + apply Nat.leb_gt in E. constructor; [now apply IH|].
      apply insertar_por_longitud_HdRel; [lia|exact Hx].
Qed.

Lemma ordenar_por_longitud_ordenado (l : list (list Enlace.t)) :
  ordenado_por_longitud (ordenar_por_longitud l).
Proof.
  induction l as [|c l IH]; cbn [ordenar_por_longitud fold_right].
  - constructor.
  - now apply insertar_por_longitud_ordenado.
Qed.

Lemma firstn_ordenado (n : nat) (l : list (list Enlace.t)) :
  ordenado_por_longitud l -> ordenado_por_longitud (firstn n l).
Proof.
  unfold ordenado_por_longitud. revert n.
  induction l as [|x r IH]; intros [|n] Hl; cbn [firstn]; try constructor.
  - inversion Hl; subst. now apply IH.
  - inversion Hl as [|? ? Hr Hx]; subst.
    destruct r as [|y r]; destruct n; cbn [firstn]; constructor.
    now inversion Hx.
Qed.

Lemma firstn_Forall {A : Type} (P : A -> Prop) (n : nat) (l : list A) :
  Forall P l -> Forall P (firstn n l).
Proof.
  revert n. induction l as [|x r IH]; intros [|n] Hl; cbn [firstn]; try constructor.
  - now inversion Hl.
  - inversion Hl; subst. now apply IH.
Qed.

Lemma py_slice_hasta_firstn {A : Type} (l : list A) (k : Z) :
  exists n, py_slice_hasta l k = firstn n l /\ ((0 <= k)%Z -> n = Z.to_nat k).
Proof.
  unfold py_slice_hasta. destruct (k <? 0)%Z eqn:E.
  - apply Z.ltb_lt in E. eexists; split; [reflexivity|lia].
  - eexists; split; [reflexivity|reflexivity].
Qed.

(** What sorting by length and slicing keep. *)
Lemma ordenar_y_cortar (P : list Enlace.t -> Prop) (todos : list (list Enlace.t)) (k : Z) :
  Forall P todos ->
  let r := py_slice_hasta (ordenar_por_longitud todos) k in
  Forall P r /\ ordenado_por_longitud r /\ ((0 <= k)%Z -> (Z.of_nat (length r) <= k)%Z).
Proof.
  intros Htodos. cbv zeta.
  destruct (py_slice_hasta_firstn (ordenar_por_longitud todos) k) as (n & -> & Hn).
  split; [|split].
  - apply firstn_Forall.
    apply (Permutation_Forall (Permutation_sym (ordenar_por_longitud_perm todos))).
    exact Htodos.
  - apply firstn_ordenado, ordenar_por_longitud_ordenado.
  - intros Hk. rewrite (Hn Hk). pose proof (firstn_le_length (Z.to_nat k) (ordenar_por_longitud todos)).
    rewrite length_firstn. lia.
Qed.

(** ** The adjacency dict *)

Lemma py_eqb_Z (a b : Z) : py_eqb a b = (a =? b)%Z.
Proof. reflexivity. Qed.

Lemma construir_grafo_adyacencia_spec (enlaces : list Enlace.t) :
  grafo_de enlaces (construir_grafo_adyacencia enlaces).
Proof.
  unfold construir_grafo_adyacencia.
  assert (Hgen : forall l g, incl l enlaces -> grafo_de enlaces g ->
            grafo_de enlaces
              (fold_left
                 (fun grafo enlace =>
                    dict_set (Enlace.source enlace)
                      (dict_get_or (Enlace.source enlace) [] grafo
                       ++ [(Enlace.target enlace, enlace)]) grafo) l g)).
  { induction l as [|e l IH]; intros g Hl Hg; cbn [fold_left]; [exact Hg|].
    apply IH; [intros x Hx; apply Hl; now right|].
    intros nodo vecinos. rewrite dict_get_set, py_eqb_Z.
    destruct (Enlace.source e =? nodo)%Z eqn:E.
    - apply Z.eqb_eq in E. intros Ev; injection Ev as <-.
      apply Forall_app. split.
      + unfold dict_get_or. rewrite E.
        destruct (dict_get nodo g) as [vs|] eqn:Eg; [exact (Hg nodo vs Eg)|constructor].
      + constructor; [|constructor]. cbn [fst snd]. repeat split; [|exact E].
        apply Hl. now left.
    - apply Hg. }
  apply Hgen; [apply incl_refl|]. intros nodo vecinos Hget. discriminate.
Qed.

(** ** The breadth-first traversal *)

Section Bfs.
Variable enlaces : list Enlace.t.
Variable grafo : dict Z (list (Z * Enlace.t)).
Hypothesis Hgrafo : grafo_de enlaces grafo.
Variables source target : Z.

Lemma visitar_vecino_alcanzable (nodo : Z) (dist : nat) (vecinos : list (Z * Enlace.t))
  (st : dict Z nat * list (Z * nat)) :
  alcanzable enlaces source nodo ->
  Forall (fun ve => In (snd ve) enlaces
                    /\ Enlace.source (snd ve) = nodo
                    /\ Enlace.target (snd ve) = fst ve) vecinos ->
  todos_alcanzables enlaces source (fst st) (snd st) ->
  todos_alcanzables enlaces source (fst (fold_left (visitar_vecino dist) vecinos st))
    (snd (fold_left (visitar_vecino dist) vecinos st)).
Proof.
  intros Hnodo Hvs. revert st.
  induction Hvs as [|[v e] vs (Hin & Hs & Ht) _ IH]; intros [d q] Hst; cbn [fold_left];
    [exact Hst|].
  apply IH. unfold visitar_vecino. cbn [fst snd] in *.
  destruct (dict_get v d) eqn:Ev; [exact Hst|].
  assert (Hv : alcanzable enlaces source v).
  { rewrite <- Ht. apply alcanzable_paso; [now rewrite Hs|exact Hin]. }
  destruct Hst as [Hd Hq]. split; cbn [fst snd].
  - intros n. rewrite dict_get_set, py_eqb_Z.
    destruct (v =? n)%Z eqn:E; [|apply Hd].
    apply Z.eqb_eq in E. now subst.
  - apply Forall_app. split; [exact Hq|]. constructor; [exact Hv|constructor].
Qed.

(** The traversal records reachable nodes only. *)
Lemma bfs_alcanzable (fuel : nat) (distancias : dict Z nat) (queue : list (Z * nat))
  (d' : dict Z nat) :
  todos_alcanzables enlaces source distancias queue ->
  bfs fuel grafo target distancias queue = Some d' ->
  forall n, dict_get n d' <> None -> alcanzable enlaces source n.
Proof.
  revert distancias queue. induction fuel as [|fuel IH]; intros d q Hst.
  - destruct q as [|[nodo dist] q]; cbn [bfs]; [|discriminate].
    intros E; injection E as <-. apply Hst.
  - destruct q as [|[nodo dist] q]; cbn [bfs].
    + intros E; injection E as <-. apply Hst.
    + destruct Hst as [Hd Hq]. inversion Hq as [|? ? Hnodo Hq']; subst. cbn [fst] in Hnodo.
      destruct (nodo =? target)%Z; [apply IH; now split|].
      destruct (dict_get nodo grafo) as [vs|] eqn:Eg; [|apply IH; now split].
      pose proof (visitar_vecino_alcanzable nodo dist vs (d, q) Hnodo (Hgrafo nodo vs Eg)
                    (conj Hd Hq')) as Hst'.
      destruct (fold_left (visitar_vecino dist) vs (d, q)) as [d1 q1].
      apply IH. exact Hst'.
Qed.

Lemma filter_length_le {A : Type} (f g : A -> bool) (l : list A) :
  (forall x, g x = true -> f x = true) ->
  length (filter g l) <= length (filter f l).
Proof.
  intros Hfg. induction l as [|a l IH]; cbn [filter]; [lia|].
  destruct (g a) eqn:Eg.
  - rewrite (Hfg a Eg). cbn [length]. lia.
  - destruct (f a); cbn [length]; lia.
Qed.

Lemma filter_length_lt {A : Type} (f g : A -> bool) (l : list A) (a : A) :
  (forall x, g x = true -> f x = true) ->
  In a l -> f a = true -> g a = false ->
  length (filter g l) < length (filter f l).
Proof.
  intros Hfg Hin Hfa Hga. induction l as [|b l IH]; [destruct Hin|].
  cbn [filter]. destruct Hin as [->|Hin].
  - rewrite Hfa, Hga. cbn [length].
    pose proof (filter_length_le f g l Hfg). lia.
  - specialize (IH Hin). destruct (g b) eqn:Eg.
    + rewrite (Hfg b Eg). cbn [length]. lia.
    + destruct (f b); cbn [length]; lia.
Qed.

(** A pass of the inner loop does not increase the measure
    [length queue + pendientes]. *)
Lemma visitar_vecino_medida (nodo : Z) (dist : nat) (vecinos : list (Z * Enlace.t))
  (st : dict Z nat * list (Z * nat)) :
  Forall (fun ve => In (snd ve) enlaces
                    /\ Enlace.source (snd ve) = nodo
                    /\ Enlace.target (snd ve) = fst ve) vecinos ->
  let st' := fold_left (visitar_vecino dist) vecinos st in
  length (snd st') + pendientes enlaces (fst st')
  <= length (snd st) + pendientes enlaces (fst st).
Proof.
  intros Hvs. cbv zeta. revert st.
  induction Hvs as [|[v e] vs (Hin & Hs & Ht) _ IH]; intros [d q]; cbn [fold_left];
    [lia|].
  etransitivity; [apply IH|].
  unfold visitar_vecino. cbn [fst snd] in *.
  destruct (dict_get v d) eqn:Ev; cbn [fst snd]; [lia|].
  rewrite length_app. cbn [length].
  assert (Hlt : pendientes enlaces (dict_set v (S dist) d) < pendientes enlaces d).
  { unfold pendientes. apply filter_length_lt with (a := e).
    - intros x. rewrite dict_get_set, py_eqb_Z.
      destruct (v =? Enlace.target x)%Z; [discriminate|auto].
    - exact Hin.
    - now rewrite Ht, Ev.
    - rewrite dict_get_set, py_eqb_Z, Ht, Z.eqb_refl. reflexivity. }
  lia.
Qed.

(** With as much fuel as the measure the traversal ends. *)
Lemma bfs_termina (fuel : nat) (distancias : dict Z nat) (queue : list (Z * nat)) :
  length queue + pendientes enlaces distancias <= fuel ->
  exists d', bfs fuel grafo target distancias queue = Some d'.
Proof.
  revert distancias queue. induction fuel as [|fuel IH]; intros d q Hm.
  - destruct q as [|nd q]; [|cbn [length] in Hm; lia].
    exists d. reflexivity.
  - destruct q as [|[nodo dist] q]; cbn [bfs]; [now exists d|].
    cbn [length] in Hm.
    destruct (nodo =? target)%Z; [apply IH; lia|].
    destruct (dict_get nodo grafo) as [vs|] eqn:Eg; [|apply IH; lia].
    pose proof (visitar_vecino_medida nodo dist vs (d, q) (Hgrafo nodo vs Eg)) as Hle.
    cbv zeta in Hle. cbn [fst snd] in Hle.
    destruct (fold_left (visitar_vecino dist) vs (d, q)) as [d1 q1].
    cbn [fst snd] in Hle. apply IH. lia.
Qed.
End Bfs.

Lemma calcular_distancias_spec (source target : Z) (enlaces : list Enlace.t) :
  exists distancias,
    calcular_distancias source target enlaces = Some distancias
    /\ forall n, dict_get n distancias <> None -> alcanzable enlaces source n.
Proof.
  unfold calcular_distancias.
  pose proof (construir_grafo_adyacencia_spec enlaces) as Hg.
  destruct (bfs_termina enlaces _ Hg target (S (length enlaces))
              [(source, 0)] [(source, 0)]) as (d' & Ed).
  { cbn [length]. unfold pendientes.
    pose proof (filter_length_le (fun _ : Enlace.t => true)
                  (fun e => match dict_get (Enlace.target e) [(source, 0)] with
                            | Some _ => false | None => true end)
                  enlaces (fun _ _ => eq_refl)) as Hle.
    assert (Hall : length (filter (fun _ : Enlace.t => true) enlaces) = length enlaces).
    { clear. induction enlaces; cbn [filter length]; auto. }
    lia. }
  exists d'. split; [exact Ed|].
  apply (bfs_alcanzable enlaces _ Hg source target (S (length enlaces))
           [(source, 0)] [(source, 0)] d'); [|exact Ed].
  split.
  - intros n. cbn [dict_get]. rewrite py_eqb_Z.
    destruct (source =? n)%Z eqn:E; [|congruence].
    apply Z.eqb_eq in E. subst. intros _. constructor.
  - constructor; [constructor|constructor].
Qed.

(** ** The depth-first searches *)

Lemma recorrer_vecinos_inv {S : Type} (P : S -> Prop) (Q : Z * Enlace.t -> Prop)
  (paso : S -> Z * Enlace.t -> option S) :
  (forall st ve st', Q ve -> P st -> paso st ve = Some st' -> P st') ->
  forall vecinos st st',
    Forall Q vecinos -> P st -> recorrer_vecinos paso vecinos st = Some st' -> P st'.
Proof.
  intros Hpaso vecinos. induction vecinos as [|ve r IH]; intros st st' Hq Hst;
    cbn [recorrer_vecinos].
  - intros E; now injection E as <-.
  - inversion Hq as [|? ? Hve Hr]; subst.
    destruct (paso st ve) as [st1|] eqn:E1; [|discriminate].
    apply IH; [exact Hr|]. eapply Hpaso; eauto.
Qed.

Lemma recorrer_vecinos_termina {S : Type} (paso : S -> Z * Enlace.t -> option S) :
  (forall st ve, exists st', paso st ve = Some st') ->
  forall vecinos st, exists st', recorrer_vecinos paso vecinos st = Some st'.
Proof.
  intros Hpaso vecinos. induction vecinos as [|ve r IH]; intros st; cbn [recorrer_vecinos].
  - now exists st.
  - destruct (Hpaso st ve) as (st1 & ->). apply IH.
Qed.

Lemma dfs_mas_cortos_termina (grafo : dict Z (list (Z * Enlace.t))) (target : Z)
  (max_length_to_explore : nat) (fuel : nat) :
  forall nodo camino longitud todos,
    1 <= fuel -> max_length_to_explore + 2 <= fuel + longitud ->
    exists r, dfs_mas_cortos fuel grafo target max_length_to_explore nodo camino
                longitud todos = Some r.
Proof.
  induction fuel as [|fuel IH]; intros nodo camino longitud todos H1 Hf; [lia|].
  cbn [dfs_mas_cortos].
  destruct (max_length_to_explore <? longitud) eqn:E; [eauto|].
  apply Nat.ltb_ge in E.
  destruct (nodo =? target)%Z; [eauto|].
  destruct (dict_get nodo grafo) as [vs|]; [|eauto].
  apply recorrer_vecinos_termina. intros st [v e].
  destruct (existsb _ _); [eauto|]. apply IH; lia.
Qed.

Lemma dfs_bfs_termina (grafo : dict Z (list (Z * Enlace.t))) (target : Z)
  (max_length : Z) (fuel : nat) :
  forall nodo camino st,
    1 <= fuel ->
    (max_length + 2 <= Z.of_nat fuel + Z.of_nat (length camino))%Z ->
    exists r, dfs_bfs fuel grafo target max_length nodo camino st = Some r.
Proof.
  induction fuel as [|fuel IH]; intros nodo camino st H1 Hf; [lia|].
  cbn [dfs_bfs].
  destruct (max_length <? Z.of_nat (length camino))%Z eqn:E; [eauto|].
  apply Z.ltb_ge in E.
  destruct (nodo =? target)%Z; [eauto|].
  destruct (dict_get nodo grafo) as [vs|]; [|eauto].
  apply recorrer_vecinos_termina. intros st1 [v e].
  destruct (existsb _ _); [eauto|].
  destruct (IH v (camino ++ [e]) (fst st1, v :: snd st1)) as ([t' v'] & ->).
  - lia.
  - rewrite length_app. cbn [length]. lia.
  - eauto.
Qed.

Lemma en_camino_nodos (source nodo : Z) (camino : list Enlace.t) :
  en_camino source nodo camino -> camino <> [] ->
  nodos_de camino = map Enlace.source camino ++ [nodo].
Proof.
  unfold en_camino. destruct camino as [|e r]; [congruence|].
  intros E _. cbn [nodos_de]. rewrite E. cbn [map app] in E. congruence.
Qed.

Lemma en_camino_paso (source nodo : Z) (camino : list Enlace.t) (e : Enlace.t) :
  en_camino source nodo camino -> Enlace.source e = nodo ->
  en_camino source (Enlace.target e) (camino ++ [e]).
Proof.
  unfold en_camino. intros E Hs. rewrite !map_app. cbn [map].
  rewrite Hs, <- app_assoc. cbn [app].
  change (map Enlace.source camino ++ [nodo; Enlace.target e])
    with (map Enlace.source camino ++ [nodo] ++ [Enlace.target e]).
  rewrite app_assoc, E. reflexivity.
Qed.

Lemma en_camino_vacio (source nodo : Z) : en_camino source nodo [] -> nodo = source.
Proof.
  unfold en_camino. cbn. congruence.
Qed.

Lemma NoDup_snoc {A : Type} (l : list A) (x : A) :
  NoDup l -> ~ In x l -> NoDup (l ++ [x]).
Proof.
  intros Hl Hx. induction Hl as [|a l Ha Hl IH]; cbn [app].
  - constructor; [intros []|constructor].
  - constructor.
    + rewrite in_app_iff. intros [Hin|[->|[]]]; [contradiction|].
      apply Hx. now left.
    + apply IH. intros Hin. apply Hx. now right.
Qed.

Lemma existsb_Z_false (v : Z) (l : list Z) : existsb (Z.eqb v) l = false -> ~ In v l.
Proof.
  intros E Hin. assert (Ht : existsb (Z.eqb v) l = true).
  { apply existsb_exists. exists v. split; [exact Hin|apply Z.eqb_refl]. }
  congruence.
Qed.

Section Dfs.
Variable enlaces : list Enlace.t.
Variable grafo : dict Z (list (Z * Enlace.t)).
Hypothesis Hgrafo : grafo_de enlaces grafo.
Variables source target : Z.
Hypothesis Hst : source <> target.

(** The paths that [dfs] of [encontrar_k_paths_mas_cortos] collects have a
    link, and repeat no node when no link goes from a node to itself. *)
Lemma dfs_mas_cortos_validos (max_length_to_explore : nat) (fuel : nat) :
  let P := fun c : list Enlace.t => c <> [] /\ (sin_bucles enlaces -> simple c) in
  forall nodo camino longitud todos todos',
    en_camino source nodo camino ->
    (sin_bucles enlaces -> NoDup (map Enlace.source camino ++ [nodo])) ->
    Forall P todos ->
    dfs_mas_cortos fuel grafo target max_length_to_explore nodo camino longitud todos
    = Some todos' ->
    Forall P todos'.
Proof.
  intros P. induction fuel as [|fuel IH]; intros nodo camino longitud todos todos'
    Hcam Hnd Htodos; cbn [dfs_mas_cortos]; [discriminate|].
  destruct (max_length_to_explore <? longitud); [intros E; now injection E as <-|].
  destruct (nodo =? target)%Z eqn:En.
  - apply Z.eqb_eq in En. intros E; injection E as <-.
    apply Forall_app. split; [exact Htodos|]. constructor; [|constructor].
    assert (Hne : camino <> []).
    { intros ->. apply en_camino_vacio in Hcam. congruence. }
    split; [exact Hne|]. intros Hsb. unfold simple.
    rewrite (en_camino_nodos source nodo camino Hcam Hne). now apply Hnd.
  - destruct (dict_get nodo grafo) as [vs|] eqn:Eg; [|intros E; now injection E as <-].
    apply (recorrer_vecinos_inv (Forall P)
             (fun ve => In (snd ve) enlaces /\ Enlace.source (snd ve) = nodo
                        /\ Enlace.target (snd ve) = fst ve));
      [|exact (Hgrafo nodo vs Eg)|exact Htodos].
    intros st [v e] st' (Hin & Hs & Ht) Hstp. cbn [fst snd] in *.
    destruct (existsb (Z.eqb v) (map Enlace.source camino)) eqn:Ev;
      [intros E; now injection E as <-|].
    apply IH; [| |exact Hstp].
    + rewrite <- Ht. now apply (en_camino_paso source nodo).
    + intros Hsb. rewrite map_app. cbn [map]. rewrite Hs.
      apply NoDup_snoc; [now apply Hnd|].
      rewrite in_app_iff. intros [Hv|[Hv|[]]].
      * exact (existsb_Z_false v _ Ev Hv).
      * apply (Hsb e Hin). congruence.
Qed.

(** The paths that [dfs] of [encontrar_k_paths_bfs] collects have a link and
    repeat no node, and the set [visitados] is the same after a call as
    before it. *)
Lemma dfs_bfs_validos (max_length : Z) (fuel : nat) :
  let P := fun c : list Enlace.t => c <> [] /\ simple c in
  forall nodo camino st st',
    en_camino source nodo camino ->
    NoDup (map Enlace.source camino ++ [nodo]) ->
    (forall x, In x (snd st) <-> In x (map Enlace.source camino ++ [nodo])) ->
    Forall P (fst st) ->
    dfs_bfs fuel grafo target max_length nodo camino st = Some st' ->
    Forall P (fst st') /\ (forall x, In x (snd st') <-> In x (snd st)).
Proof.
  intros P. induction fuel as [|fuel IH]; intros nodo camino st st'
    Hcam Hnd Hvis Htodos; cbn [dfs_bfs]; [discriminate|].
  destruct (max_length <? Z.of_nat (length camino))%Z;
    [intros E; injection E as <-; split; [exact Htodos|reflexivity]|].
  destruct (nodo =? target)%Z eqn:En.
  - apply Z.eqb_eq in En. intros E; injection E as <-. cbn [fst snd].
    split; [|reflexivity].
    apply Forall_app. split; [exact Htodos|]. constructor; [|constructor].
    assert (Hne : camino <> []).
    { intros ->. apply en_camino_vacio in Hcam. congruence. }
    split; [exact Hne|]. unfold simple.
    now rewrite (en_camino_nodos source nodo camino Hcam Hne).
  - destruct (dict_get nodo grafo) as [vs|] eqn:Eg;
      [|intros E; injection E as <-; split; [exact Htodos|reflexivity]].
    apply (recorrer_vecinos_inv
             (fun st1 : list (list Enlace.t) * list Z =>
                Forall P (fst st1) /\ (forall x, In x (snd st1) <-> In x (snd st)))
             (fun ve => In (snd ve) enlaces /\ Enlace.source (snd ve) = nodo
                        /\ Enlace.target (snd ve) = fst ve));
      [|exact (Hgrafo nodo vs Eg)|split; [exact Htodos|reflexivity]].
    intros st1 [v e] st2 (Hin & Hs & Ht) [Ht1 Hv1]. cbn [fst snd] in *.
    destruct (existsb (Z.eqb v) (snd st1)) eqn:Ev;
      [intros E; injection E as <-; now split|].
    apply existsb_Z_false in Ev.
    destruct (dfs_bfs fuel grafo target max_length v (camino ++ [e]) (fst st1, v :: snd st1))
      as [[t' v']|] eqn:Erec; [|discriminate].
    intros E; injection E as <-. cbn [fst snd].
    assert (Hv : ~ In v (map Enlace.source camino ++ [nodo])).
    { intros Hin'. apply Ev. apply Hv1. now apply Hvis. }
    destruct (IH v (camino ++ [e]) (fst st1, v :: snd st1) (t', v')) as [Ht' Hv'].
    + rewrite <- Ht. now apply (en_camino_paso source nodo).
    + rewrite map_app. cbn [map]. rewrite Hs. now apply NoDup_snoc.
    + intros x. cbn [snd]. rewrite map_app. cbn [map]. rewrite Hs.
      rewrite (in_app_iff (map Enlace.source camino ++ [nodo]) [v]).
      rewrite <- Hvis, <- Hv1. cbn [In]. tauto.
    + exact Ht1.
    + exact Erec.
    + split; [exact Ht'|]. cbn [fst snd] in Hv'. intros x. rewrite <- Hv1. split.
      * intros Hx. apply in_remove in Hx. destruct Hx as [Hx Hne].
        apply Hv' in Hx. destruct Hx as [Hx|Hx]; [congruence|exact Hx].
      * intros Hx. apply in_in_remove; [intros ->; contradiction|].
        apply Hv'. now right.
Qed.
End Dfs.

(** ** The two discovery functions *)

Lemma descubrimiento_mismo_nodo (source : Z) (enlaces : list Enlace.t) (k : Z) :
  descubrimiento source source enlaces k [[]] /\ Forall simple [[]].
Proof.
  split; [|repeat constructor].
  unfold descubrimiento. split; [|split; [|split; [|split]]].
  - reflexivity.
  - reflexivity.
  - intros Hno. elim Hno. constructor.
  - intros Hk [Hne|H1]; [now elim Hne|]. cbn [length]. lia.
  - repeat constructor.
Qed.

Lemma descubrimiento_sin_camino (source target : Z) (enlaces : list Enlace.t) (k : Z) :
  source <> target -> descubrimiento source target enlaces k [] /\ Forall simple [].
Proof.
  intros Hst. split; [|constructor].
  unfold descubrimiento. split; [|split; [|split; [|split]]].
  - intros E. now elim Hst.
  - discriminate.
  - reflexivity.
  - intros Hk _. cbn [length]. lia.
  - constructor.
Qed.

Lemma descubrimiento_caminos (source target : Z) (enlaces : list Enlace.t) (k : Z)
  (Q : Prop) (todos : list (list Enlace.t)) :
  source <> target ->
  alcanzable enlaces source target ->
  Forall (fun c => c <> [] /\ (Q -> simple c)) todos ->
  let r := py_slice_hasta (ordenar_por_longitud todos) k in
  descubrimiento source target enlaces k r /\ (Q -> Forall simple r).
Proof.
  intros Hst Halc Htodos. cbv zeta.
  destruct (ordenar_y_cortar _ todos k Htodos) as (Hr & Hord & Hlen).
  split.
  - unfold descubrimiento. split; [|split; [|split; [|split]]].
    + intros E. now elim Hst.
    + intros E. rewrite E in Hr. inversion Hr as [|? ? [Hne _] _]; subst. now elim Hne.
    + intros Hno. now elim Hno.
    + intros Hk _. now apply Hlen.
    + exact Hord.
  - intros HQ. eapply Forall_impl; [|exact Hr]. intros c [_ Hc]. now apply Hc.
Qed.

(** C2, as the code has it.  Both functions return.  They return [[[]]]
    exactly when [source == target], whatever [k] is, and [[]] when [target]
    cannot be reached.  The paths are sorted by hop count, ascending, and
    for [k >= 0] there are at most [k] of them when [source != target] or
    [k >= 1].  Each path of [encontrar_k_paths_bfs] is simple; each path of
    [encontrar_k_paths_mas_cortos] is simple when no link of the set goes
    from a node to itself. *)
Theorem C2_descubrimiento_de_paths (source target : Z) (enlaces : list Enlace.t) (k : Z) :
  (exists r,
     encontrar_k_paths_mas_cortos source target enlaces k = Some r
     /\ descubrimiento source target enlaces k r
     /\ (sin_bucles enlaces -> Forall simple r))
  /\ (forall max_length,
        exists r,
          encontrar_k_paths_bfs source target enlaces k max_length = Some r
          /\ descubrimiento source target enlaces k r
          /\ Forall simple r).
Proof.
  pose proof (construir_grafo_adyacencia_spec enlaces) as Hg.
  destruct (calcular_distancias_spec source target enlaces) as (distancias & Ed & Halc).
  split.
  - unfold encontrar_k_paths_mas_cortos.
    destruct (source =? target)%Z eqn:E.
    + apply Z.eqb_eq in E. subst target. exists [[]].
      destruct (descubrimiento_mismo_nodo source enlaces k). auto.
    + apply Z.eqb_neq in E. cbv zeta. rewrite Ed.
      destruct (dict_get target distancias) as [dist_min|] eqn:Et.
      * assert (Ht : alcanzable enlaces source target) by (apply Halc; congruence).
        destruct (dfs_mas_cortos_termina (construir_grafo_adyacencia enlaces) target
                    (dist_min + 2) (dist_min + 2 + 2) source [] 0 [])
          as (todos & Etodos); [lia|lia|].
        rewrite Etodos. eexists; split; [reflexivity|].
        apply (descubrimiento_caminos source target enlaces k (sin_bucles enlaces) todos E Ht).
        apply (dfs_mas_cortos_validos enlaces _ Hg source target E (dist_min + 2)
                 (dist_min + 2 + 2) source [] 0 [] todos); auto.
        -- reflexivity.
        -- intros _. repeat constructor. intros [].
      * exists []. destruct (descubrimiento_sin_camino source target enlaces k E). auto.
  - intros max_length. unfold encontrar_k_paths_bfs.
    destruct (source =? target)%Z eqn:E.
    + apply Z.eqb_eq in E. subst target. exists [[]].
      destruct (descubrimiento_mismo_nodo source enlaces k). auto.
    + apply Z.eqb_neq in E. cbv zeta. rewrite Ed.
      destruct (dict_get target distancias) as [dist_min|] eqn:Et.
      * assert (Ht : alcanzable enlaces source target) by (apply Halc; congruence).
        set (ml := match max_length with
                   | Some n => n
                   | None => (Z.of_nat dist_min + 3)%Z
                   end).
        destruct (dfs_bfs_termina (construir_grafo_adyacencia enlaces) target ml
                    (Z.to_nat ml + 2) source [] ([], [source]))
          as ([todos vis] & Etodos); [lia|cbn [length]; lia|].
        rewrite Etodos. eexists; split; [reflexivity|].
        destruct (dfs_bfs_validos enlaces _ Hg source target E ml (Z.to_nat ml + 2)
                    source [] ([], [source]) (todos, vis)) as [Htodos _]; auto.
        -- reflexivity.
        -- repeat constructor. intros [].
        -- intros x. reflexivity.
        -- cbn [fst] in Htodos.
           destruct (descubrimiento_caminos source target enlaces k True todos E Ht)
             as [Hd Hs].
           { eapply Forall_impl; [|exact Htodos]. intros c [H1 H2]. auto. }
           split; [exact Hd|now apply Hs].
      * exists []. destruct (descubrimiento_sin_camino source target enlaces k E). auto.
Qed.

Lemma C2_descubrimiento_de_paths_witness :
  (exists r,
     encontrar_k_paths_mas_cortos 1 4 red_referencia 2 = Some r
     /\ descubrimiento 1 4 red_referencia 2 r
     /\ (sin_bucles red_referencia -> Forall simple r))
  /\ (forall max_length,
        exists r,
          encontrar_k_paths_bfs 1 4 red_referencia 2 max_length = Some r
          /\ descubrimiento 1 4 red_referencia 2 r
          /\ Forall simple r).
Proof. exact (C2_descubrimiento_de_paths 1 4 red_referencia 2). Defined.

(** C2 as stated fails twice.  With [source == target] and [k = 0] both
    functions return one path, not at most [k].  And on a link set with a
    link from node 1 to itself, [encontrar_k_paths_mas_cortos] returns the
    path 1 -> 1 -> 2, which repeats node 1. *)
Lemma C2_contraejemplo :
  (encontrar_k_paths_mas_cortos 1 1 red_referencia 0 = Some [[]]
   /\ encontrar_k_paths_bfs 1 1 red_referencia 0 None = Some [[]]
   /\ ~ (Z.of_nat (length [@nil Enlace.t]) <= 0)%Z)
  /\ (encontrar_k_paths_mas_cortos 1 2 red_con_bucle 3
      = Some [[Enlace.mk 1 2 5]; [Enlace.mk 1 1 5; Enlace.mk 1 2 5]]
      /\ ~ simple [Enlace.mk 1 1 5; Enlace.mk 1 2 5]).
Proof.
  split; [split; [reflexivity|split; [reflexivity|cbn; lia]]|].
  split; [vm_compute; reflexivity|].
  unfold simple. cbn. intros H. inversion H as [|? ? Hin _]; subst.
  apply Hin. now left.
Qed.

(** * More on the path discovery *)

Lemma construir_grafo_adyacencia_completo (enlaces : list Enlace.t) (e : Enlace.t) :
  In e enlaces ->
  exists vecinos,
    dict_get (Enlace.source e) (construir_grafo_adyacencia enlaces) = Some vecinos
    /\ In (Enlace.target e, e) vecinos.
Proof.
  unfold construir_grafo_adyacencia.
  set (paso := fun (grafo : dict Z (list (Z * Enlace.t))) (enlace : Enlace.t) =>
                 dict_set (Enlace.source enlace)
                   (dict_get_or (Enlace.source enlace) [] grafo
                    ++ [(Enlace.target enlace, enlace)]) grafo).
  assert (Hcrece : forall l g vs,
            dict_get (Enlace.source e) g = Some vs -> In (Enlace.target e, e) vs ->
            exists vs', dict_get (Enlace.source e) (fold_left paso l g) = Some vs'
                        /\ In (Enlace.target e, e) vs').
  { induction l as [|a l IH]; intros g vs Hg Hin; cbn [fold_left]; [eauto|].
    unfold paso at 2. 
    destruct (Enlace.source a =? Enlace.source e)%Z eqn:E.
    - apply Z.eqb_eq in E.
      apply (IH _ (dict_get_or (Enlace.source a) [] g ++ [(Enlace.target a, a)])).
      + rewrite dict_get_set, py_eqb_Z, E, Z.eqb_refl. reflexivity.
      + apply in_or_app. left. unfold dict_get_or. rewrite E, Hg. exact Hin.
    - apply (IH _ vs); [|exact Hin].
      rewrite dict_get_set, py_eqb_Z, E. exact Hg. }
  generalize (@nil (Z * list (Z * Enlace.t))).
  induction enlaces as [|a l IH]; intros g [].
  - subst a. cbn [fold_left].
    apply (Hcrece l _ (dict_get_or (Enlace.source e) [] g ++ [(Enlace.target e, e)])).
    + unfold paso. rewrite dict_get_set, py_eqb_Z, Z.eqb_refl. reflexivity.
    + apply in_or_app. right. now left.
  - cbn [fold_left]. now apply IH.
Qed.

(** A property of [distancias] and [queue] that every pass of the [while]
    loop keeps holds when the loop is left. *)
Lemma bfs_invariante (grafo : dict Z (list (Z * Enlace.t))) (target : Z)
  (Inv : dict Z nat -> list (Z * nat) -> Prop) :
  (forall d v b q, Inv d ((v, b) :: q) -> v = target -> Inv d q) ->
  (forall d v b q, Inv d ((v, b) :: q) -> v <> target -> dict_get v grafo = None ->
                   Inv d q) ->
  (forall d v b q vs, Inv d ((v, b) :: q) -> v <> target ->
                      dict_get v grafo = Some vs ->
                      Inv (fst (fold_left (visitar_vecino b) vs (d, q)))
                          (snd (fold_left (visitar_vecino b) vs (d, q)))) ->
  forall fuel d q d', Inv d q -> bfs fuel grafo target d q = Some d' -> Inv d' [].
Proof.
  intros Ht Hn Hs fuel. induction fuel as [|fuel IH]; intros d q d' Hinv.
  - destruct q as [|[v b] q]; cbn [bfs]; [|discriminate].
    intros E; now injection E as <-.
  - destruct q as [|[v b] q]; cbn [bfs]; [intros E; now injection E as <-|].
    destruct (v =? target)%Z eqn:Ev.
    + apply Z.eqb_eq in Ev. apply IH. eapply Ht; eauto.
    + apply Z.eqb_neq in Ev.
      destruct (dict_get v grafo) as [vs|] eqn:Eg.
      * specialize (Hs d v b q vs Hinv Ev Eg).
        destruct (fold_left (visitar_vecino b) vs (d, q)) as [d1 q1].
        apply IH. exact Hs.
      * apply IH. eapply Hn; eauto.
Qed.

Lemma dict_get_set_Z {V : Type} (n w : Z) (x : V) (d : dict Z V) :
  dict_get n (dict_set w x d) = if (w =? n)%Z then Some x else dict_get n d.
Proof. now rewrite dict_get_set, py_eqb_Z. Qed.

Lemma extiende_set (d : dict Z nat) (w : Z) (x : nat) :
  dict_get w d = None -> extiende d (dict_set w x d).
Proof.
  intros Hw v y Hv. rewrite dict_get_set_Z.
  destruct (w =? v)%Z eqn:E; [|exact Hv].
  apply Z.eqb_eq in E. subst. congruence.
Qed.

Lemma extiende_refl (d : dict Z nat) : extiende d d.
Proof. intros v x H. exact H. Qed.

Lemma extiende_trans (d1 d2 d3 : dict Z nat) :
  extiende d1 d2 -> extiende d2 d3 -> extiende d1 d3.
Proof. intros H12 H23 v x H. auto. Qed.

Lemma en_camino_inv (source u : Z) (c : list Enlace.t) (e : Enlace.t) :
  en_camino source u (c ++ [e]) ->
  u = Enlace.target e /\ en_camino source (Enlace.source e) c.
Proof.
  unfold en_camino. rewrite !map_app. cbn [map].
  change (source :: map Enlace.target c ++ [Enlace.target e])
    with ((source :: map Enlace.target c) ++ [Enlace.target e]).
  intros E. apply app_inj_tail in E. destruct E as [E ->]. auto.
Qed.

Lemma camino_en_paso (enlaces : list Enlace.t) (source nodo : Z) (c : list Enlace.t)
  (e : Enlace.t) :
  camino_en enlaces source nodo c -> In e enlaces -> Enlace.source e = nodo ->
  camino_en enlaces source (Enlace.target e) (c ++ [e]).
Proof.
  intros [Hc Hin] He Hs. split.
  - now apply (en_camino_paso source nodo).
  - apply Forall_app. split; [exact Hin|]. now constructor.
Qed.

Lemma camino_en_inv (enlaces : list Enlace.t) (source u : Z) (c : list Enlace.t)
  (e : Enlace.t) :
  camino_en enlaces source u (c ++ [e]) ->
  u = Enlace.target e /\ In e enlaces /\ camino_en enlaces source (Enlace.source e) c.
Proof.
  intros [Hc Hin]. apply en_camino_inv in Hc. destruct Hc as [-> Hc].
  apply Forall_app in Hin. destruct Hin as [Hin He]. inversion He; subst.
  repeat split; auto.
Qed.

Lemma alcanzable_camino (enlaces : list Enlace.t) (source nodo : Z) :
  alcanzable enlaces source nodo <-> exists c, camino_en enlaces source nodo c.
Proof.
  split.
  - induction 1 as [|e _ (c & Hc) Hin].
    + exists []. split; [reflexivity|constructor].
    + exists (c ++ [e]). now apply (camino_en_paso enlaces source (Enlace.source e)).
  - intros (c & Hc). revert nodo Hc. induction c as [|e c IH] using rev_ind; intros nodo Hc.
    + destruct Hc as [Hc _]. apply en_camino_vacio in Hc. subst. constructor.
    + apply camino_en_inv in Hc. destruct Hc as (-> & Hin & Hc).
      apply alcanzable_paso; [now apply IH|exact Hin].
Qed.

(** A walk to [target] has a prefix that arrives at [target] once. *)
Lemma camino_hasta_target (enlaces : list Enlace.t) (source target : Z) :
  source <> target ->
  forall c u, camino_en enlaces source u c ->
    (exists c1, camino_en enlaces source target c1
                /\ Forall (fun e => Enlace.source e <> target) c1
                /\ length c1 <= length c)
    \/ (Forall (fun e => Enlace.source e <> target) c /\ u <> target).
Proof.
  intros Hst c. induction c as [|e c IH] using rev_ind; intros u Hc.
  - right. destruct Hc as [Hc _]. apply en_camino_vacio in Hc. subst.
    split; [constructor|exact Hst].
  - pose proof Hc as Hc'. apply camino_en_inv in Hc. destruct Hc as (-> & Hin & Hc).
    destruct (IH _ Hc) as [(c1 & H1 & H2 & H3)|[Hav Hne]].
    + left. exists c1. rewrite length_app. cbn [length].
      split; [exact H1|split; [exact H2|lia]].
    + assert (Hav' : Forall (fun e0 => Enlace.source e0 <> target) (c ++ [e])).
      { apply Forall_app. split; [exact Hav|]. now constructor. }
      destruct (Z.eq_dec (Enlace.target e) target) as [E|E].
      * left. exists (c ++ [e]). rewrite <- E at 1.
        split; [exact Hc'|split; [exact Hav'|lia]].
      * right. now split.
Qed.

Section BfsCorrecto.
Variable enlaces : list Enlace.t.
Variables source target : Z.

Lemma vecinos_de (v : Z) (vs : list (Z * Enlace.t)) :
  dict_get v (construir_grafo_adyacencia enlaces) = Some vs ->
  Forall (fun ve => In (snd ve) enlaces /\ Enlace.source (snd ve) = v
                    /\ Enlace.target (snd ve) = fst ve) vs.
Proof. apply (construir_grafo_adyacencia_spec enlaces). Qed.

Lemma vecinos_completos (v : Z) (vs : list (Z * Enlace.t)) (e : Enlace.t) :
  dict_get v (construir_grafo_adyacencia enlaces) = Some vs -> In e enlaces -> Enlace.source e = v ->
  In (Enlace.target e, e) vs.
Proof.
  intros Hv Hin Hs. destruct (construir_grafo_adyacencia_completo enlaces e Hin)
    as (vs' & Hvs' & He).
  rewrite Hs, Hv in Hvs'. now injection Hvs' as <-.
Qed.

(** *** Every recorded node has a simple walk of the recorded length *)

Lemma visitar_vecino_caminos (v : Z) (b : nat) (vs : list (Z * Enlace.t))
  (st : dict Z nat * list (Z * nat)) :
  Forall (fun ve => In (snd ve) enlaces /\ Enlace.source (snd ve) = v
                    /\ Enlace.target (snd ve) = fst ve) vs ->
  bfs_caminos enlaces source (fst st) ->
  dict_get v (fst st) = Some b ->
  bfs_caminos enlaces source (fst (fold_left (visitar_vecino b) vs st))
  /\ extiende (fst st) (fst (fold_left (visitar_vecino b) vs st)).
Proof.
  intros Hvs. revert st.
  induction Hvs as [|[w e] vs (Hin & Hs & Ht) _ IH]; intros [d q] Hd Hv; cbn [fold_left].
  - split; [exact Hd|apply extiende_refl].
  - cbn [fst snd] in *. subst w. unfold visitar_vecino at 2 4. cbn [fst].
    destruct (dict_get (Enlace.target e) d) eqn:Ew; [now apply IH|].
    assert (Hext : extiende d (dict_set (Enlace.target e) (S b) d))
      by now apply extiende_set.
    destruct (IH (dict_set (Enlace.target e) (S b) d, q ++ [(Enlace.target e, S b)]))
      as [H1 H2]; cbn [fst].
    + intros u x. rewrite dict_get_set_Z.
      destruct (Enlace.target e =? u)%Z eqn:E.
      * apply Z.eqb_eq in E. subst u. intros Ex; injection Ex as <-.
        destruct (Hd v b Hv) as (c & Hc & Hlen & Hnd & Hrec).
        exists (c ++ [e]). split; [|split; [|split]].
        -- now apply (camino_en_paso enlaces source v).
        -- rewrite length_app. cbn [length]. lia.
        -- rewrite map_app. cbn [map]. rewrite Hs. apply NoDup_snoc; [exact Hnd|].
           intros Hw. now apply (Hrec _ Hw).
        -- intros n. rewrite map_app. cbn [map]. rewrite Hs, dict_get_set_Z.
           rewrite (in_app_iff (map Enlace.source c ++ [v])).
           destruct (Enlace.target e =? n)%Z eqn:En; [intros _; discriminate|].
           intros [Hn|[Hn|[]]]; [now apply Hrec|].
           apply Z.eqb_neq in En. congruence.
      * intros Hu. destruct (Hd u x Hu) as (c & Hc & Hlen & Hnd & Hrec).
        exists c. split; [exact Hc|]. split; [exact Hlen|]. split; [exact Hnd|].
        intros n Hn. specialize (Hrec n Hn).
        destruct (dict_get n d) as [y|] eqn:Ey; [|congruence].
        now rewrite (Hext n y Ey).
    + now apply Hext.
    + split; [exact H1|]. eapply extiende_trans; eauto.
Qed.

Lemma bfs_caminos_fin (fuel : nat) (d' : dict Z nat) :
  bfs fuel (construir_grafo_adyacencia enlaces) target [(source, 0)] [(source, 0)] = Some d' ->
  bfs_caminos enlaces source d'.
Proof.
  intros Hbfs.
  apply (bfs_invariante (construir_grafo_adyacencia enlaces) target
           (fun d q => bfs_caminos enlaces source d
                       /\ Forall (fun nd => dict_get (fst nd) d = Some (snd nd)) q))
    with (fuel := fuel) (d := [(source, 0)]) (q := [(source, 0)]); [| | | |exact Hbfs].
  - intros d v b q [H1 H2] _. split; [exact H1|now inversion H2].
  - intros d v b q [H1 H2] _ _. split; [exact H1|now inversion H2].
  - intros d v b q vs [H1 H2] _ Hg. inversion H2 as [|? ? Hv Hq]; subst. cbn [fst snd] in Hv.
    destruct (visitar_vecino_caminos v b vs (d, q) (vecinos_de v vs Hg) H1 Hv) as [H3 H4].
    split; [exact H3|].
    (* the entries of the queue stay consistent *)
    clear H1 H2 H3. cbn [fst] in H4.
    assert (Hgen : forall vs0 st,
              Forall (fun nd => dict_get (fst nd) (fst st) = Some (snd nd)) (snd st) ->
              Forall (fun nd => dict_get (fst nd) (fst (fold_left (visitar_vecino b) vs0 st))
                                = Some (snd nd))
                (snd (fold_left (visitar_vecino b) vs0 st))).
    { induction vs0 as [|[w e] vs0 IH]; intros [d0 q0] H0; cbn [fold_left]; [exact H0|].
      apply IH. unfold visitar_vecino. cbn [fst snd] in *.
      destruct (dict_get w d0) eqn:Ew; [exact H0|]. cbn [fst snd].
      apply Forall_app. split.
      - eapply Forall_impl; [|exact H0]. intros nd Hnd.
        now apply (extiende_set d0 w (S b) Ew).
      - constructor; [|constructor]. cbn [fst snd].
        now rewrite dict_get_set_Z, Z.eqb_refl. }
    apply (Hgen vs (d, q)). exact Hq.
  - split.
    + intros v x. cbn [dict_get]. rewrite py_eqb_Z.
      destruct (source =? v)%Z eqn:E; [|discriminate].
      apply Z.eqb_eq in E. subst v. intros Ex; injection Ex as <-.
      exists []. split; [split; [reflexivity|constructor]|].
      split; [reflexivity|]. split; [repeat constructor; intros []|].
      intros n [<-|[]]. cbn [dict_get]. now rewrite py_eqb_Z, Z.eqb_refl.
    + constructor; [|constructor]. cbn [fst snd dict_get].
      now rewrite py_eqb_Z, Z.eqb_refl.
Qed.
End BfsCorrecto.

(** *** The recorded distances are minimal *)

Lemma Sorted_snoc {A : Type} (R : A -> A -> Prop) (l : list A) (x : A) :
  Sorted R l -> Forall (fun a => R a x) l -> Sorted R (l ++ [x]).
Proof.
  induction 1 as [|a l Hl IH Ha]; intros Hx; cbn [app].
  - repeat constructor.
  - inversion Hx as [|? ? Hax Hlx]; subst. constructor; [now apply IH|].
    destruct l; cbn [app]; constructor; [exact Hax|now inversion Ha].
Qed.

Lemma cerrado_extiende (enlaces : list Enlace.t) (d d' : dict Z nat) (v : Z) (x : nat) :
  extiende d d' -> cerrado enlaces d v x -> cerrado enlaces d' v x.
Proof.
  intros Hext Hc e Hin Hs. destruct (Hc e Hin Hs) as (x' & Hx' & Hle).
  exists x'. split; [now apply Hext|exact Hle].
Qed.

Section BfsNiveles.
Variable enlaces : list Enlace.t.
Variables source target : Z.

Lemma visitar_vecino_niveles (v : Z) (b : nat) (vs : list (Z * Enlace.t))
  (st : dict Z nat * list (Z * nat)) :
  bfs_visitando enlaces source target v b st ->
  bfs_visitando enlaces source target v b (fold_left (visitar_vecino b) vs st)
  /\ extiende (fst st) (fst (fold_left (visitar_vecino b) vs st))
  /\ Forall (fun ve => exists x', dict_get (fst ve) (fst (fold_left (visitar_vecino b) vs st))
                                  = Some x' /\ x' <= S b) vs.
Proof.
  revert st. induction vs as [|[w e] vs IH]; intros [d q] Hst; cbn [fold_left].
  - split; [exact Hst|]. split; [apply extiende_refl|constructor].
  - unfold visitar_vecino at 2 4 6. cbn [fst snd].
    destruct Hst as (H0 & H3 & H4 & Hv & H5 & Hr & H6). cbn [fst snd] in *.
    destruct (dict_get w d) as [y|] eqn:Ew.
    + destruct (IH (d, q)) as (J1 & J2 & J3); [repeat split; assumption|].
      split; [exact J1|]. split; [exact J2|]. constructor; [|exact J3].
      cbn [fst]. exists y. split; [now apply J2|]. now apply (H6 w).
    + assert (Hext : extiende d (dict_set w (S b) d)) by now apply extiende_set.
      destruct (IH (dict_set w (S b) d, q ++ [(w, S b)])) as (J1 & J2 & J3).
      { unfold bfs_visitando. cbn [fst snd]. split; [now apply Hext|].
        split; [|split; [|split; [|split; [|split]]]].
        - intros u x. rewrite dict_get_set_Z. destruct (w =? u)%Z eqn:E.
          + apply Z.eqb_eq in E. subst u. intros _. right. left. right.
            rewrite map_app. apply in_or_app. right. now left.
          + intros Hu. destruct (H3 u x Hu) as [Ht|[Hin|Hc]]; [now left| |].
            * right. left. destruct Hin as [->|Hin]; [now left|right].
              rewrite map_app. apply in_or_app. now left.
            * right. right. now apply (cerrado_extiende enlaces d).
        - apply Forall_app. split.
          + eapply Forall_impl; [|exact H4]. intros nd Hnd. now apply Hext.
          + constructor; [|constructor]. cbn [fst snd].
            now rewrite dict_get_set_Z, Z.eqb_refl.
        - now apply Hext.
        - apply Sorted_snoc; [exact H5|].
          eapply Forall_impl; [|exact Hr]. intros nd Hnd. cbn beta in Hnd. cbn [snd]. lia.
        - apply Forall_app. split; [exact Hr|]. constructor; [|constructor].
          cbn [snd]. lia.
        - intros u x. rewrite dict_get_set_Z. destruct (w =? u)%Z.
          + intros E; injection E as <-. lia.
          + apply H6. }
      split; [exact J1|]. split; [eapply extiende_trans; eauto|].
      constructor; [|exact J3]. cbn [fst]. exists (S b). split; [|lia].
      apply J2. cbn [fst]. now rewrite dict_get_set_Z, Z.eqb_refl.
Qed.

Lemma bfs_niveles_cola (d : dict Z nat) (v : Z) (b : nat) (q : list (Z * nat)) :
  bfs_niveles enlaces source target d ((v, b) :: q) ->
  Forall (fun nd => b <= snd nd <= S b) q
  /\ Sorted (fun a c : Z * nat => snd a <= snd c) q
  /\ dict_get v d = Some b
  /\ Forall (fun nd => dict_get (fst nd) d = Some (snd nd)) q
  /\ (forall u x, dict_get u d = Some x -> x <= S b).
Proof.
  intros (H0 & H3 & H4 & H5 & H6). cbn [snd] in H6.
  inversion H4 as [|? ? Hv Hq]; subst. cbn [fst snd] in Hv.
  assert (Hss : StronglySorted (fun a c : Z * nat => snd a <= snd c) ((v, b) :: q)).
  { apply Sorted_StronglySorted; [|exact H5]. intros x y z. lia. }
  inversion Hss as [|? ? _ Hall]; subst.
  repeat split; auto.
  - rewrite Forall_forall in *. intros nd Hnd. split.
    + exact (Hall nd Hnd).
    + apply (H6 (fst nd)). now apply Hq.
  - now inversion H5.
Qed.

Lemma bfs_niveles_resto (d : dict Z nat) (v : Z) (b : nat) (q : list (Z * nat)) :
  bfs_niveles enlaces source target d ((v, b) :: q) ->
  v = target \/ cerrado enlaces d v b ->
  bfs_niveles enlaces source target d q.
Proof.
  intros Hinv Hv. pose proof (bfs_niveles_cola d v b q Hinv) as (Hr & Hs & Hvb & Hq & Hb).
  destruct Hinv as (H0 & H3 & _). unfold bfs_niveles.
  split; [exact H0|]. split; [|split; [exact Hq|split; [exact Hs|]]].
  - intros u x Hu. destruct (H3 u x Hu) as [Ht|[Hin|Hc]]; [now left| |now right; right].
    cbn [map fst] in Hin. destruct Hin as [<-|Hin]; [|now right; left].
    destruct Hv as [->|Hc]; [now left|].
    right. right. rewrite Hvb in Hu. injection Hu as <-. exact Hc.
  - intros u x Hu. destruct q as [|nd q]; [exact I|].
    inversion Hr as [|? ? Hnd _]; subst. specialize (Hb u x Hu). lia.
Qed.

Lemma bfs_niveles_fin (fuel : nat) (d' : dict Z nat) :
  bfs fuel (construir_grafo_adyacencia enlaces) target [(source, 0)] [(source, 0)] = Some d' ->
  bfs_niveles enlaces source target d' [].
Proof.
  intros Hbfs.
  apply (bfs_invariante (construir_grafo_adyacencia enlaces) target (bfs_niveles enlaces source target))
    with (fuel := fuel) (d := [(source, 0)]) (q := [(source, 0)]); [| | | |exact Hbfs].
  - intros d v b q Hinv Hv. apply (bfs_niveles_resto d v b q Hinv). now left.
  - intros d v b q Hinv _ Hg. apply (bfs_niveles_resto d v b q Hinv). right.
    intros e Hin Hs.
    destruct (construir_grafo_adyacencia_completo enlaces e Hin) as (vs & Hvs & _).
    rewrite Hs in Hvs. congruence.
  - intros d v b q vs Hinv Hne Hg.
    pose proof (bfs_niveles_cola d v b q Hinv) as (Hr & Hs & Hvb & Hq & Hb).
    destruct Hinv as (H0 & H3 & _).
    destruct (visitar_vecino_niveles v b vs (d, q)) as (J & Jext & Jvs).
    { unfold bfs_visitando. cbn [fst snd]. repeat split; auto. }
    destruct (fold_left (visitar_vecino b) vs (d, q)) as [d1 q1].
    destruct J as (J0 & J3 & J4 & Jv & J5 & Jr & J6). cbn [fst snd] in *.
    assert (Hc : cerrado enlaces d1 v b).
    { intros e Hin Hsrc.
      pose proof (vecinos_completos enlaces v vs e Hg Hin Hsrc) as Hve.
      rewrite Forall_forall in Jvs. exact (Jvs _ Hve). }
    unfold bfs_niveles. split; [exact J0|]. split; [|split; [exact J4|split; [exact J5|]]].
    + intros u x Hu. destruct (J3 u x Hu) as [Ht|[[<-|Hin]|Hcu]];
        [now left| |now right; left|now right; right].
      right. right. rewrite Jv in Hu. injection Hu as <-. exact Hc.
    + intros u x Hu. destruct q1 as [|nd q1]; [exact I|].
      inversion Jr as [|? ? Hnd _]; subst. specialize (J6 u x Hu). lia.
  - unfold bfs_niveles. cbn [dict_get]. rewrite py_eqb_Z, Z.eqb_refl.
    split; [reflexivity|]. split; [|split; [|split]].
    + intros v x. rewrite py_eqb_Z. destruct (source =? v)%Z eqn:E; [|discriminate].
      apply Z.eqb_eq in E. intros _. right. left. now left.
    + constructor; [|constructor]. cbn [fst snd dict_get].
      now rewrite py_eqb_Z, Z.eqb_refl.
    + repeat constructor.
    + intros v x. rewrite py_eqb_Z. destruct (source =? v)%Z; [|discriminate].
      intros E; injection E as <-. cbn [snd]. lia.
Qed.

(** After the traversal the distance recorded for a node is at most the
    length of any walk to it that does not leave [target]. *)
Lemma bfs_niveles_minimo (d : dict Z nat) :
  bfs_niveles enlaces source target d [] ->
  forall c u, camino_en enlaces source u c ->
              Forall (fun e => Enlace.source e <> target) c ->
              exists x, dict_get u d = Some x /\ x <= length c.
Proof.
  intros (H0 & H3 & _) c. induction c as [|e c IH] using rev_ind; intros u Hc Hav.
  - destruct Hc as [Hc _]. apply en_camino_vacio in Hc. subst u.
    exists 0. split; [exact H0|cbn; lia].
  - apply camino_en_inv in Hc. destruct Hc as (-> & Hin & Hc).
    apply Forall_app in Hav. destruct Hav as [Hav He]. inversion He as [|? ? Hne _]; subst.
    destruct (IH _ Hc Hav) as (x & Hx & Hle).
    destruct (H3 _ x Hx) as [Ht|[[]|Hcer]]; [contradiction|].
    destruct (Hcer e Hin eq_refl) as (x' & Hx' & Hle').
    exists x'. split; [exact Hx'|]. rewrite length_app. cbn [length]. lia.
Qed.
End BfsNiveles.

(** The breadth-first traversal records the hop distance of [target]: it is
    the length of a simple walk from [source], and no walk is shorter. *)
Lemma calcular_distancias_correcto (source target : Z) (enlaces : list Enlace.t) :
  source <> target ->
  exists distancias,
    calcular_distancias source target enlaces = Some distancias
    /\ (forall c, camino_en enlaces source target c ->
                  exists x, dict_get target distancias = Some x /\ x <= length c)
    /\ (forall x, dict_get target distancias = Some x ->
                  exists c, camino_en enlaces source target c /\ length c = x
                            /\ NoDup (map Enlace.source c ++ [target])).
Proof.
  intros Hst.
  destruct (calcular_distancias_spec source target enlaces) as (d & Ed & _).
  exists d. split; [exact Ed|]. unfold calcular_distancias in Ed. split.
  - intros c Hc.
    destruct (camino_hasta_target enlaces source target Hst c target Hc)
      as [(c1 & H1 & H2 & H3)|[_ Hne]]; [|now elim Hne].
    destruct (bfs_niveles_minimo enlaces source target d
                (bfs_niveles_fin enlaces source target _ d Ed) c1 target H1 H2)
      as (x & Hx & Hle).
    exists x. split; [exact Hx|lia].
  - intros x Hx.
    destruct (bfs_caminos_fin enlaces source target _ d Ed target x Hx)
      as (c & Hc & Hlen & Hnd & _).
    exists c. auto.
Qed.

(** ** The depth-first searches collect exactly the simple walks within the
    hop bound *)

Lemma en_camino_cons (nodo target : Z) (e : Enlace.t) (s : list Enlace.t) :
  en_camino nodo target (e :: s) <->
  Enlace.source e = nodo /\ en_camino (Enlace.target e) target s.
Proof.
  unfold en_camino. cbn [map app]. split.
  - intros E. injection E as E1 E2. auto.
  - intros [-> ->]. reflexivity.
Qed.

Lemma en_camino_ultimo (nodo target : Z) (s : list Enlace.t) :
  en_camino nodo target s -> s <> [] -> In target (map Enlace.target s).
Proof.
  revert nodo. induction s as [|e s IH]; intros nodo Hs Hne; [now elim Hne|].
  apply en_camino_cons in Hs. destruct Hs as [_ Hs]. cbn [map].
  destruct s as [|e' s'].
  - apply en_camino_vacio in Hs. left. congruence.
  - right. apply (IH (Enlace.target e)); [exact Hs|discriminate].
Qed.

Lemma NoDup_app_disjuntos {A : Type} (l1 l2 : list A) (a : A) :
  NoDup (l1 ++ l2) -> In a l1 -> ~ In a l2.
Proof.
  induction l1 as [|b l1 IH]; cbn [app]; intros Hnd Hin; [destruct Hin|].
  inversion Hnd as [|? ? Hb Hnd']; subst. destruct Hin as [->|Hin].
  - intros Ha. apply Hb. apply in_or_app. now right.
  - now apply IH.
Qed.

Lemma recorrer_vecinos_conserva {S : Type} (Q : S -> Prop)
  (paso : S -> Z * Enlace.t -> option S) :
  (forall st v st', Q st -> paso st v = Some st' -> Q st') ->
  forall vecinos st st', Q st -> recorrer_vecinos paso vecinos st = Some st' -> Q st'.
Proof.
  intros Hq vecinos. induction vecinos as [|v r IH]; intros st st' Hst;
    cbn [recorrer_vecinos].
  - intros E; now injection E as <-.
  - destruct (paso st v) as [st1|] eqn:E1; [|discriminate].
    apply IH. eapply Hq; eauto.
Qed.

Lemma recorrer_vecinos_alcanza {S : Type} (Inv Q : S -> Prop)
  (paso : S -> Z * Enlace.t -> option S) (ve : Z * Enlace.t) :
  (forall st v st', Inv st -> paso st v = Some st' -> Inv st') ->
  (forall st v st', Q st -> paso st v = Some st' -> Q st') ->
  (forall st st', Inv st -> paso st ve = Some st' -> Q st') ->
  forall vecinos st st',
    In ve vecinos -> Inv st -> recorrer_vecinos paso vecinos st = Some st' -> Q st'.
Proof.
  intros Hinv Hq Hve vecinos. induction vecinos as [|v r IH]; intros st st' Hin Hst;
    [destruct Hin|].
  cbn [recorrer_vecinos]. destruct (paso st v) as [st1|] eqn:E1; [|discriminate].
  intros Hrec. destruct Hin as [->|Hin].
  - apply (recorrer_vecinos_conserva Q paso Hq r st1 st'); [|exact Hrec].
    eapply Hve; eauto.
  - apply (IH st1); [exact Hin|eapply Hinv; eauto|exact Hrec].
Qed.

Section DfsCompleto.
Variable enlaces : list Enlace.t.
Variables source target : Z.

(** *** [dfs] of [encontrar_k_paths_mas_cortos] *)

Lemma dfs_mas_cortos_caminos (max_length_to_explore : nat) (fuel : nat) :
  let P := fun c : list Enlace.t =>
             camino_en enlaces source target c /\ length c <= max_length_to_explore in
  forall nodo camino todos todos',
    camino_en enlaces source nodo camino ->
    Forall P todos ->
    dfs_mas_cortos fuel (construir_grafo_adyacencia enlaces) target max_length_to_explore
      nodo camino (length camino) todos = Some todos' ->
    Forall P todos'.
Proof.
  intros P. induction fuel as [|fuel IH]; intros nodo camino todos todos' Hcam Htodos;
    cbn [dfs_mas_cortos]; [discriminate|].
  destruct (max_length_to_explore <? length camino) eqn:El;
    [intros E; now injection E as <-|].
  apply Nat.ltb_ge in El.
  destruct (nodo =? target)%Z eqn:En.
  - apply Z.eqb_eq in En. subst nodo. intros E; injection E as <-.
    apply Forall_app. split; [exact Htodos|]. constructor; [|constructor]. now split.
  - destruct (dict_get nodo (construir_grafo_adyacencia enlaces)) as [vs|] eqn:Eg;
      [|intros E; now injection E as <-].
    apply (recorrer_vecinos_inv (Forall P)
             (fun ve => In (snd ve) enlaces /\ Enlace.source (snd ve) = nodo
                        /\ Enlace.target (snd ve) = fst ve));
      [|exact (construir_grafo_adyacencia_spec enlaces nodo vs Eg)|exact Htodos].
    intros st [v e] st' (Hin & Hs & Ht) Hstp. cbn [fst snd] in *.
    destruct (existsb (Z.eqb v) (map Enlace.source camino));
      [intros E; now injection E as <-|].
    replace (S (length camino)) with (length (camino ++ [e]))
      by (rewrite length_app; cbn [length]; lia).
    apply IH; [|exact Hstp]. rewrite <- Ht.
    now apply (camino_en_paso enlaces source nodo).
Qed.

Lemma dfs_mas_cortos_crece (max_length_to_explore : nat) (fuel : nat) (c : list Enlace.t) :
  forall nodo camino longitud todos todos',
    dfs_mas_cortos fuel (construir_grafo_adyacencia enlaces) target max_length_to_explore
      nodo camino longitud todos = Some todos' ->
    In c todos -> In c todos'.
Proof.
  induction fuel as [|fuel IH]; intros nodo camino longitud todos todos';
    cbn [dfs_mas_cortos]; [discriminate|].
  destruct (max_length_to_explore <? longitud); [intros E; now injection E as <-|].
  destruct (nodo =? target)%Z.
  - intros E; injection E as <-. intros Hc. apply in_or_app. now left.
  - destruct (dict_get nodo (construir_grafo_adyacencia enlaces)) as [vs|];
      [|intros E; now injection E as <-].
    intros Hrec Hc. revert Hc Hrec.
    apply (recorrer_vecinos_conserva (fun st => In c st)).
    intros st [v e] st' Hst. destruct (existsb _ _); [intros E; now injection E as <-|].
    intros Hd. eapply IH; eauto.
Qed.

(** Every simple walk from [nodo] on that fits in the hop bound is
    collected. *)
Lemma dfs_mas_cortos_completo (max_length_to_explore : nat) (fuel : nat) :
  forall nodo camino longitud todos todos' sufijo,
    dfs_mas_cortos fuel (construir_grafo_adyacencia enlaces) target max_length_to_explore
      nodo camino longitud todos = Some todos' ->
    en_camino nodo target sufijo ->
    Forall (fun e => In e enlaces) sufijo ->
    longitud + length sufijo <= max_length_to_explore ->
    NoDup (map Enlace.source camino ++ nodo :: map Enlace.target sufijo) ->
    In (camino ++ sufijo) todos'.
Proof.
  induction fuel as [|fuel IH]; intros nodo camino longitud todos todos' sufijo;
    cbn [dfs_mas_cortos]; [discriminate|].
  intros Hdfs Hsuf Hin Hlen Hnd.
  replace (max_length_to_explore <? longitud) with false in Hdfs
    by (symmetry; apply Nat.ltb_ge; lia).
  destruct sufijo as [|e s].
  - apply en_camino_vacio in Hsuf. subst nodo. rewrite Z.eqb_refl in Hdfs.
    injection Hdfs as <-. rewrite app_nil_r. apply in_or_app. right. now left.
  - pose proof (en_camino_ultimo nodo target (e :: s) Hsuf ltac:(discriminate)) as Hult.
    apply en_camino_cons in Hsuf. destruct Hsuf as [Hs Hsuf]. subst nodo.
    inversion Hin as [|? ? He Hin']; subst.
    assert (Hne : (Enlace.source e =? target)%Z = false).
    { apply Z.eqb_neq. intros E. apply NoDup_remove_2 in Hnd. apply Hnd.
      apply in_or_app. right. now rewrite E. }
    rewrite Hne in Hdfs.
    destruct (construir_grafo_adyacencia_completo enlaces e He) as (vs & Hvs & Hve).
    rewrite Hvs in Hdfs. revert Hdfs.
    apply (recorrer_vecinos_alcanza (fun _ => True) (fun st => In (camino ++ e :: s) st)
             _ (Enlace.target e, e)); [auto| | |exact Hve|exact I].
    + intros st [v e'] st' Hst. destruct (existsb _ _); [intros E; now injection E as <-|].
      intros Hd. eapply dfs_mas_cortos_crece; eauto.
    + intros st st' _.
      assert (Hv : existsb (Z.eqb (Enlace.target e)) (map Enlace.source camino) = false).
      { destruct (existsb _ _) eqn:Ex; [|reflexivity]. exfalso.
        apply existsb_exists in Ex. destruct Ex as (x & Hx & E).
        apply Z.eqb_eq in E. subst x.
        apply (NoDup_app_disjuntos _ _ _ Hnd Hx). right. cbn [map]. now left. }
      rewrite Hv. intros Hd.
      replace (camino ++ e :: s) with ((camino ++ [e]) ++ s)
        by (rewrite <- app_assoc; reflexivity).
      cbn [length] in Hlen. apply (IH _ _ _ _ _ s Hd Hsuf Hin'); [lia|].
      rewrite map_app. cbn [map]. rewrite <- app_assoc. exact Hnd.
Qed.
End DfsCompleto.

Section DfsBfsCompleto.
Variable enlaces : list Enlace.t.
Variables source target : Z.

(** *** [dfs] of [encontrar_k_paths_bfs] *)

(** The set [visitados] is the same after a call as before it. *)
Lemma dfs_bfs_visitados (max_length : Z) (fuel : nat) :
  forall nodo camino st st',
    dfs_bfs fuel (construir_grafo_adyacencia enlaces) target max_length nodo camino st
    = Some st' ->
    forall x, In x (snd st') <-> In x (snd st).
Proof.
  induction fuel as [|fuel IH]; intros nodo camino st st'; cbn [dfs_bfs]; [discriminate|].
  destruct (max_length <? Z.of_nat (length camino))%Z;
    [intros E; injection E as <-; reflexivity|].
  destruct (nodo =? target)%Z; [intros E; injection E as <-; reflexivity|].
  destruct (dict_get nodo (construir_grafo_adyacencia enlaces)) as [vs|];
    [|intros E; injection E as <-; reflexivity].
  apply (recorrer_vecinos_conserva
           (fun st1 : list (list Enlace.t) * list Z =>
              forall x, In x (snd st1) <-> In x (snd st))); [|reflexivity].
  intros st1 [v e] st2 H1.
  destruct (existsb (Z.eqb v) (snd st1)) eqn:Ev; [intros E; now injection E as <-|].
  apply existsb_Z_false in Ev.
  destruct (dfs_bfs fuel _ target max_length v (camino ++ [e]) (fst st1, v :: snd st1))
    as [[t' v']|] eqn:Erec; [|discriminate].
  intros E; injection E as <-. cbn [snd].
  pose proof (IH _ _ _ _ Erec) as Hv'. cbn [snd] in Hv'.
  intros x. rewrite <- H1. split.
  - intros Hx. apply in_remove in Hx. destruct Hx as [Hx Hne].
    apply Hv' in Hx. destruct Hx as [Hx|Hx]; [congruence|exact Hx].
  - intros Hx. apply in_in_remove; [intros ->; contradiction|].
    apply Hv'. now right.
Qed.

Lemma dfs_bfs_caminos (max_length : Z) (fuel : nat) :
  let P := fun c : list Enlace.t =>
             camino_en enlaces source target c /\ (Z.of_nat (length c) <= max_length)%Z in
  forall nodo camino st st',
    camino_en enlaces source nodo camino ->
    Forall P (fst st) ->
    dfs_bfs fuel (construir_grafo_adyacencia enlaces) target max_length nodo camino st
    = Some st' ->
    Forall P (fst st').
Proof.
  intros P. induction fuel as [|fuel IH]; intros nodo camino st st' Hcam Htodos;
    cbn [dfs_bfs]; [discriminate|].
  destruct (max_length <? Z.of_nat (length camino))%Z eqn:El;
    [intros E; now injection E as <-|].
  apply Z.ltb_ge in El.
  destruct (nodo =? target)%Z eqn:En.
  - apply Z.eqb_eq in En. subst nodo. intros E; injection E as <-. cbn [fst].
    apply Forall_app. split; [exact Htodos|]. constructor; [|constructor]. now split.
  - destruct (dict_get nodo (construir_grafo_adyacencia enlaces)) as [vs|] eqn:Eg;
      [|intros E; now injection E as <-].
    apply (recorrer_vecinos_inv (fun st1 : list (list Enlace.t) * list Z => Forall P (fst st1))
             (fun ve => In (snd ve) enlaces /\ Enlace.source (snd ve) = nodo
                        /\ Enlace.target (snd ve) = fst ve));
      [|exact (construir_grafo_adyacencia_spec enlaces nodo vs Eg)|exact Htodos].
    intros st1 [v e] st2 (Hin & Hs & Ht) Hstp. cbn [fst snd] in *.
    destruct (existsb (Z.eqb v) (snd st1)); [intros E; now injection E as <-|].
    destruct (dfs_bfs fuel _ target max_length v (camino ++ [e]) (fst st1, v :: snd st1))
      as [[t' v']|] eqn:Erec; [|discriminate].
    intros E; injection E as <-. cbn [fst].
    apply (IH v (camino ++ [e]) (fst st1, v :: snd st1) (t', v')); [|exact Hstp|exact Erec].
    rewrite <- Ht. now apply (camino_en_paso enlaces source nodo).
Qed.

Lemma dfs_bfs_crece (max_length : Z) (fuel : nat) (c : list Enlace.t) :
  forall nodo camino st st',
    dfs_bfs fuel (construir_grafo_adyacencia enlaces) target max_length nodo camino st
    = Some st' ->
    In c (fst st) -> In c (fst st').
Proof.
  induction fuel as [|fuel IH]; intros nodo camino st st'; cbn [dfs_bfs]; [discriminate|].
  destruct (max_length <? Z.of_nat (length camino))%Z; [intros E; now injection E as <-|].
  destruct (nodo =? target)%Z.
  - intros E; injection E as <-. cbn [fst]. intros Hc. apply in_or_app. now left.
  - destruct (dict_get nodo (construir_grafo_adyacencia enlaces)) as [vs|];
      [|intros E; now injection E as <-].
    intros Hrec Hc. revert Hc Hrec.
    apply (recorrer_vecinos_conserva
             (fun st1 : list (list Enlace.t) * list Z => In c (fst st1))).
    intros st1 [v e] st2 Hst. destruct (existsb _ _); [intros E; now injection E as <-|].
    destruct (dfs_bfs fuel _ target max_length v (camino ++ [e]) (fst st1, v :: snd st1))
      as [[t' v']|] eqn:Erec; [|discriminate].
    intros E; injection E as <-. cbn [fst].
    apply (IH _ _ _ _ Erec). exact Hst.
Qed.

Lemma dfs_bfs_completo (max_length : Z) (fuel : nat) :
  forall nodo camino st st' sufijo,
    dfs_bfs fuel (construir_grafo_adyacencia enlaces) target max_length nodo camino st
    = Some st' ->
    en_camino nodo target sufijo ->
    Forall (fun e => In e enlaces) sufijo ->
    (Z.of_nat (length camino + length sufijo) <= max_length)%Z ->
    NoDup (map Enlace.source camino ++ nodo :: map Enlace.target sufijo) ->
    (forall x, In x (snd st) <-> In x (map Enlace.source camino ++ [nodo])) ->
    In (camino ++ sufijo) (fst st').
Proof.
  induction fuel as [|fuel IH]; intros nodo camino st st' sufijo;
    cbn [dfs_bfs]; [discriminate|].
  intros Hdfs Hsuf Hin Hlen Hnd Hvis.
  replace (max_length <? Z.of_nat (length camino))%Z with false in Hdfs
    by (symmetry; apply Z.ltb_ge; lia).
  destruct sufijo as [|e s].
  - apply en_camino_vacio in Hsuf. subst nodo. rewrite Z.eqb_refl in Hdfs.
    injection Hdfs as <-. cbn [fst]. rewrite app_nil_r. apply in_or_app. right. now left.
  - pose proof (en_camino_ultimo nodo target (e :: s) Hsuf ltac:(discriminate)) as Hult.
    apply en_camino_cons in Hsuf. destruct Hsuf as [Hs Hsuf]. subst nodo.
    inversion Hin as [|? ? He Hin']; subst.
    assert (Hne : (Enlace.source e =? target)%Z = false).
    { apply Z.eqb_neq. intros E. apply NoDup_remove_2 in Hnd. apply Hnd.
      apply in_or_app. right. now rewrite E. }
    rewrite Hne in Hdfs.
    destruct (construir_grafo_adyacencia_completo enlaces e He) as (vs & Hvs & Hve).
    rewrite Hvs in Hdfs. revert Hdfs.
    apply (recorrer_vecinos_alcanza
             (fun st1 : list (list Enlace.t) * list Z =>
                forall x, In x (snd st1) <-> In x (snd st))
             (fun st1 => In (camino ++ e :: s) (fst st1))
             _ (Enlace.target e, e)); [| | |exact Hve|reflexivity].
    + intros st1 [v e'] st2 H1.
      destruct (existsb (Z.eqb v) (snd st1)) eqn:Ev; [intros E; now injection E as <-|].
      apply existsb_Z_false in Ev.
      destruct (dfs_bfs fuel _ target max_length v (camino ++ [e']) (fst st1, v :: snd st1))
        as [[t' v']|] eqn:Erec; [|discriminate].
      intros E; injection E as <-. cbn [snd].
      pose proof (dfs_bfs_visitados _ _ _ _ _ _ Erec) as Hv'. cbn [snd] in Hv'.
      intros x. rewrite <- H1. split.
      * intros Hx. apply in_remove in Hx. destruct Hx as [Hx Hnx].
        apply Hv' in Hx. destruct Hx as [Hx|Hx]; [congruence|exact Hx].
      * intros Hx. apply in_in_remove; [intros ->; contradiction|].
        apply Hv'. now right.
    + intros st1 [v e'] st2 Hq.
      destruct (existsb _ _); [intros E; now injection E as <-|].
      destruct (dfs_bfs fuel _ target max_length v (camino ++ [e']) (fst st1, v :: snd st1))
        as [[t' v']|] eqn:Erec; [|discriminate].
      intros E; injection E as <-. cbn [fst].
      apply (dfs_bfs_crece _ _ _ _ _ _ _ Erec). exact Hq.
    + intros st1 st2 H1.
      assert (Hv : ~ In (Enlace.target e) (map Enlace.source camino ++ [Enlace.source e])).
      { intros Hx.
        replace (map Enlace.source camino ++ Enlace.source e :: map Enlace.target (e :: s))
          with ((map Enlace.source camino ++ [Enlace.source e]) ++ map Enlace.target (e :: s))
          in Hnd by (rewrite <- app_assoc; reflexivity).
        apply (NoDup_app_disjuntos _ _ _ Hnd Hx). cbn [map]. now left. }
      assert (Hex : existsb (Z.eqb (Enlace.target e)) (snd st1) = false).
      { destruct (existsb _ _) eqn:Ex; [|reflexivity]. exfalso.
        apply existsb_exists in Ex. destruct Ex as (x & Hx & E).
        apply Z.eqb_eq in E. subst x. apply Hv. apply Hvis. now apply H1. }
      rewrite Hex.
      destruct (dfs_bfs fuel _ target max_length (Enlace.target e) (camino ++ [e])
                  (fst st1, Enlace.target e :: snd st1)) as [[t' v']|] eqn:Erec;
        [|discriminate].
      intros E; injection E as <-. cbn [fst].
      replace (camino ++ e :: s) with ((camino ++ [e]) ++ s)
        by (rewrite <- app_assoc; reflexivity).
      apply (IH _ _ _ _ s Erec Hsuf Hin').
      * rewrite length_app. cbn [length] in *. lia.
      * rewrite map_app. cbn [map]. rewrite <- app_assoc. exact Hnd.
      * intros x. cbn [snd]. rewrite map_app. cbn [map].
        rewrite (in_app_iff (map Enlace.source camino ++ [Enlace.source e])).
        rewrite <- Hvis, <- H1. cbn [In]. tauto.
Qed.
End DfsBfsCompleto.

(** ** Sorting by length and slicing keep the shortest *)

Lemma ordenado_cabeza (x : list Enlace.t) (l : list (list Enlace.t)) :
  ordenado_por_longitud (x :: l) -> forall p, In p (x :: l) -> length x <= length p.
Proof.
  unfold ordenado_por_longitud. intros Hs.
  apply Sorted_StronglySorted in Hs; [|intros a b c Hab Hbc; cbn beta in *; lia].
  inversion Hs as [|? ? _ Hall]; subst. intros p [<-|Hp]; [lia|].
  rewrite Forall_forall in Hall. now apply Hall.
Qed.

Lemma firstn_mas_cortos (n : nat) (l : list (list Enlace.t)) (x : list Enlace.t) :
  ordenado_por_longitud l -> In x l ->
  In x (firstn n l)
  \/ (length (firstn n l) = n /\ forall p, In p (firstn n l) -> length p <= length x).
Proof.
  revert n. induction l as [|a l IH]; intros n Hs Hx; [destruct Hx|].
  destruct n as [|n]; cbn [firstn].
  - right. split; [reflexivity|intros p []].
  - destruct Hx as [<-|Hx]; [left; now left|].
    assert (Hs' : ordenado_por_longitud l) by (inversion Hs; assumption).
    destruct (IH n Hs' Hx) as [Hin|[Hlen Hall]]; [left; now right|].
    right. split; [cbn [length]; lia|].
    intros p [<-|Hp]; [|now apply Hall].
    apply (ordenado_cabeza a l Hs). now right.
Qed.

Lemma cortar_mas_cortos (todos : list (list Enlace.t)) (k : Z) (x : list Enlace.t) :
  In x todos ->
  let r := py_slice_hasta (ordenar_por_longitud todos) k in
  In x r
  \/ (((0 <= k)%Z -> Z.of_nat (length r) = k)
      /\ forall p, In p r -> length p <= length x).
Proof.
  intros Hx. cbv zeta.
  destruct (py_slice_hasta_firstn (ordenar_por_longitud todos) k) as (n & -> & Hn).
  destruct (firstn_mas_cortos n (ordenar_por_longitud todos) x) as [Hin|[Hlen Hall]].
  - apply ordenar_por_longitud_ordenado.
  - apply (Permutation_in x (Permutation_sym (ordenar_por_longitud_perm todos)) Hx).
  - now left.
  - right. split; [|exact Hall]. intros Hk. rewrite Hlen, (Hn Hk). lia.
Qed.

Lemma cortar_cabeza (todos : list (list Enlace.t)) (k : Z) (c0 : list Enlace.t) :
  (1 <= k)%Z -> In c0 todos ->
  exists p r,
    py_slice_hasta (ordenar_por_longitud todos) k = p :: r
    /\ In p todos
    /\ forall c, In c todos -> length p <= length c.
Proof.
  intros Hk Hc0.
  pose proof (ordenar_por_longitud_ordenado todos) as Hs.
  pose proof (ordenar_por_longitud_perm todos) as Hp.
  destruct (ordenar_por_longitud todos) as [|p l] eqn:El.
  - apply Permutation_nil in Hp. subst todos. destruct Hc0.
  - exists p, (firstn (Z.to_nat k - 1) l). split; [|split].
    + unfold py_slice_hasta. replace (k <? 0)%Z with false by (symmetry; apply Z.ltb_ge; lia).
      replace (Z.to_nat k) with (S (Z.to_nat k - 1)) at 1 by lia. reflexivity.
    + apply (Permutation_in p Hp). now left.
    + intros c Hc. apply (ordenado_cabeza p l Hs).
      apply (Permutation_in c (Permutation_sym Hp) Hc).
Qed.

Lemma simple_camino (source target : Z) (c : list Enlace.t) :
  source <> target -> en_camino source target c -> simple c ->
  NoDup (source :: map Enlace.target c).
Proof.
  intros Hst Hc Hs. destruct c as [|e s].
  - apply en_camino_vacio in Hc. congruence.
  - apply en_camino_cons in Hc. destruct Hc as [<- _]. exact Hs.
Qed.

(** ** What the two functions collect before they sort and slice *)

Lemma encontrar_k_paths_mas_cortos_todos (source target : Z) (enlaces : list Enlace.t)
  (k : Z) :
  source <> target ->
  (encontrar_k_paths_mas_cortos source target enlaces k = Some []
   /\ forall c, ~ camino_en enlaces source target c)
  \/ exists c0 todos,
       encontrar_k_paths_mas_cortos source target enlaces k
       = Some (py_slice_hasta (ordenar_por_longitud todos) k)
       /\ (forall c, camino_en enlaces source target c -> length c0 <= length c)
       /\ In c0 todos
       /\ Forall (fun c => camino_en enlaces source target c /\ length c <= length c0 + 2)
            todos
       /\ (forall c, camino_en enlaces source target c -> simple c ->
                     length c <= length c0 + 2 -> In c todos).
Proof.
  intros Hst.
  destruct (calcular_distancias_correcto source target enlaces Hst)
    as (distancias & Ed & Hmin & Hreal).
  unfold encontrar_k_paths_mas_cortos.
  replace (source =? target)%Z with false by (symmetry; now apply Z.eqb_neq).
  cbv zeta. rewrite Ed.
  destruct (dict_get target distancias) as [dist_min|] eqn:Et.
  - right. destruct (Hreal dist_min eq_refl) as (c0 & Hc0 & Hlen & Hnd).
    destruct (dfs_mas_cortos_termina (construir_grafo_adyacencia enlaces) target
                (dist_min + 2) (dist_min + 2 + 2) source [] 0 [])
      as (todos & Etodos); [lia|lia|].
    rewrite Etodos. exists c0, todos. rewrite Hlen.
    assert (Hcompleto : forall c, camino_en enlaces source target c -> simple c ->
                                  length c <= dist_min + 2 -> In c todos).
    { intros c [Hc Hin] Hs Hle.
      apply (dfs_mas_cortos_completo enlaces target (dist_min + 2) (dist_min + 2 + 2) source [] 0 []
               todos c Etodos Hc Hin); [lia|].
      cbn [map app]. exact (simple_camino source target c Hst Hc Hs). }
    split; [reflexivity|]. split; [|split; [|split]].
    + intros c Hc. destruct (Hmin c Hc) as (x & Hx & Hle). congruence.
    + apply Hcompleto; [exact Hc0| |lia].
      unfold simple. destruct Hc0 as [Hc0 _].
      rewrite (en_camino_nodos source target c0 Hc0); [exact Hnd|].
      intros ->. apply en_camino_vacio in Hc0. congruence.
    + apply (dfs_mas_cortos_caminos enlaces source target (dist_min + 2)
               (dist_min + 2 + 2) source [] [] todos); [|constructor|exact Etodos].
      split; [reflexivity|constructor].
    + exact Hcompleto.
  - left. split; [reflexivity|].
    intros c Hc. destruct (Hmin c Hc) as (x & Hx & _). discriminate.
Qed.

(** The hop limit of [encontrar_k_paths_bfs] when the shortest walk has
    [dist_min] links. *)
Lemma encontrar_k_paths_bfs_todos (source target : Z) (enlaces : list Enlace.t)
  (k : Z) (max_length : option Z) :
  source <> target ->
  (encontrar_k_paths_bfs source target enlaces k max_length = Some []
   /\ forall c, ~ camino_en enlaces source target c)
  \/ exists c0 todos,
       let limite := match max_length with
                     | None => (Z.of_nat (length c0) + 3)%Z
                     | Some n => n
                     end in
       encontrar_k_paths_bfs source target enlaces k max_length
       = Some (py_slice_hasta (ordenar_por_longitud todos) k)
       /\ camino_en enlaces source target c0
       /\ simple c0
       /\ (forall c, camino_en enlaces source target c -> length c0 <= length c)
       /\ Forall (fun c => camino_en enlaces source target c
                           /\ (Z.of_nat (length c) <= limite)%Z) todos
       /\ (forall c, camino_en enlaces source target c -> simple c ->
                     (Z.of_nat (length c) <= limite)%Z -> In c todos).
Proof.
  intros Hst.
  destruct (calcular_distancias_correcto source target enlaces Hst)
    as (distancias & Ed & Hmin & Hreal).
  unfold encontrar_k_paths_bfs.
  replace (source =? target)%Z with false by (symmetry; now apply Z.eqb_neq).
  cbv zeta. rewrite Ed.
  destruct (dict_get target distancias) as [dist_min|] eqn:Et.
  - right. destruct (Hreal dist_min eq_refl) as (c0 & Hc0 & Hlen & Hnd).
    exists c0. rewrite Hlen.
    set (ml := match max_length with
               | Some n => n
               | None => (Z.of_nat dist_min + 3)%Z
               end).
    destruct (dfs_bfs_termina (construir_grafo_adyacencia enlaces) target ml
                (Z.to_nat ml + 2) source [] ([], [source]))
      as ([todos vis] & Etodos); [lia|cbn [length]; lia|].
    rewrite Etodos. exists todos.
    split; [reflexivity|]. split; [exact Hc0|]. split; [|split; [|split]].
    + unfold simple. destruct Hc0 as [Hc0 _].
      rewrite (en_camino_nodos source target c0 Hc0); [exact Hnd|].
      intros ->. apply en_camino_vacio in Hc0. congruence.
    + intros c Hc. destruct (Hmin c Hc) as (x & Hx & Hle). congruence.
    + apply (dfs_bfs_caminos enlaces source target ml (Z.to_nat ml + 2) source []
               ([], [source]) (todos, vis)); [|constructor|exact Etodos].
      split; [reflexivity|constructor].
    + intros c [Hc Hin] Hs Hle.
      apply (dfs_bfs_completo enlaces target ml (Z.to_nat ml + 2) source []
               ([], [source]) (todos, vis) c Etodos Hc Hin); [cbn [length]; lia| |reflexivity].
      cbn [map app]. exact (simple_camino source target c Hst Hc Hs).
  - left. split; [reflexivity|].
    intros c Hc. destruct (Hmin c Hc) as (x & Hx & _). discriminate.
Qed.

Lemma simple_mismo_nodo (source : Z) (c : list Enlace.t) :
  en_camino source source c -> simple c -> c = [].
Proof.
  intros Hc Hs. destruct c as [|e s]; [reflexivity|]. exfalso.
  pose proof (en_camino_ultimo source source (e :: s) Hc ltac:(discriminate)) as Hin.
  apply en_camino_cons in Hc. destruct Hc as [Hs0 _].
  unfold simple in Hs. cbn [nodos_de] in Hs. rewrite Hs0 in Hs.
  inversion Hs as [|? ? Hn _]. now apply Hn.
Qed.

Lemma camino_en_vacio (enlaces : list Enlace.t) (source : Z) :
  camino_en enlaces source source [].
Proof. split; [reflexivity|constructor]. Qed.

(** ** [encontrar_k_paths_mas_cortos] *)

(** [encontrar_k_paths_mas_cortos] returns walks from [source] to [target]
    along links of [enlaces], and no returned path has over two links more
    than any walk from [source] to [target]. *)
Theorem encontrar_k_paths_mas_cortos_caminos (source target : Z)
  (enlaces : list Enlace.t) (k : Z) :
  exists r,
    encontrar_k_paths_mas_cortos source target enlaces k = Some r
    /\ Forall (camino_en enlaces source target) r
    /\ forall p c, In p r -> camino_en enlaces source target c ->
                   length p <= length c + 2.
Proof.
  destruct (Z.eq_dec source target) as [<-|Hst].
  - exists [[]]. unfold encontrar_k_paths_mas_cortos. rewrite Z.eqb_refl.
    split; [reflexivity|]. split.
    + constructor; [apply camino_en_vacio|constructor].
    + intros p c [<-|[]] _. cbn [length]. lia.
  - destruct (encontrar_k_paths_mas_cortos_todos source target enlaces k Hst)
      as [[E Hno]|(c0 & todos & E & Hmin & _ & Htodos & _)]; rewrite E.
    + exists []. split; [reflexivity|]. split; [constructor|intros p c []].
    + eexists. split; [reflexivity|].
      destruct (ordenar_y_cortar _ todos k Htodos) as (Hr & _ & _).
      rewrite Forall_forall in Hr. split.
      * apply Forall_forall. intros p Hp. now apply Hr.
      * intros p c Hp Hc. destruct (Hr p Hp) as [_ Hle].
        specialize (Hmin c Hc). lia.
Qed.

(** When [target] can be reached and [k >= 1], the result of
    [encontrar_k_paths_mas_cortos] has a first path, and no walk from
    [source] to [target] has fewer links than it. *)
Theorem encontrar_k_paths_mas_cortos_primero (source target : Z)
  (enlaces : list Enlace.t) (k : Z) :
  (1 <= k)%Z ->
  alcanzable enlaces source target ->
  exists p r,
    encontrar_k_paths_mas_cortos source target enlaces k = Some (p :: r)
    /\ forall c, camino_en enlaces source target c -> length p <= length c.
Proof.
  intros Hk Halc. destruct (Z.eq_dec source target) as [<-|Hst].
  - exists [], []. unfold encontrar_k_paths_mas_cortos. rewrite Z.eqb_refl.
    split; [reflexivity|]. intros c _. cbn [length]. lia.
  - destruct (encontrar_k_paths_mas_cortos_todos source target enlaces k Hst)
      as [[_ Hno]|(c0 & todos & E & Hmin & Hc0 & _ & _)].
    + apply alcanzable_camino in Halc. destruct Halc as (c & Hc). elim (Hno c Hc).
    + destruct (cortar_cabeza todos k c0 Hk Hc0) as (p & r & Er & _ & Hp).
      exists p, r. rewrite E, Er. split; [reflexivity|].
      intros c Hc. specialize (Hp c0 Hc0). specialize (Hmin c Hc). lia.
Qed.

(** The result of [encontrar_k_paths_mas_cortos] is made of the shortest
    simple walks: a simple walk from [source] to [target] that is at most
    two links longer than every walk is returned, unless [k] paths that are
    no longer than it are returned. *)
Theorem encontrar_k_paths_mas_cortos_k_mejores (source target : Z)
  (enlaces : list Enlace.t) (k : Z) (r : list (list Enlace.t)) (c : list Enlace.t) :
  encontrar_k_paths_mas_cortos source target enlaces k = Some r ->
  camino_en enlaces source target c ->
  simple c ->
  (forall c', camino_en enlaces source target c' -> length c <= length c' + 2) ->
  In c r
  \/ (((0 <= k)%Z -> Z.of_nat (length r) = k)
      /\ forall p, In p r -> length p <= length c).
Proof.
  intros Er Hc Hs Hle. destruct (Z.eq_dec source target) as [<-|Hst].
  - unfold encontrar_k_paths_mas_cortos in Er. rewrite Z.eqb_refl in Er.
    injection Er as <-. destruct Hc as [Hc _].
    rewrite (simple_mismo_nodo source c Hc Hs). left. now left.
  - destruct (encontrar_k_paths_mas_cortos_todos source target enlaces k Hst)
      as [[_ Hno]|(c0 & todos & E & _ & Hc0 & Htodos & Hcompleto)];
      [elim (Hno c Hc)|].
    rewrite E in Er. injection Er as <-.
    apply cortar_mas_cortos. apply Hcompleto; [exact Hc|exact Hs|].
    rewrite Forall_forall in Htodos. destruct (Htodos c0 Hc0) as [Hw _].
    now apply Hle.
Qed.

(** ** [encontrar_k_paths_bfs] *)

(** [encontrar_k_paths_bfs] returns walks from [source] to [target] along
    links of [enlaces].  Without [max_length] no returned path has over
    three links more than any walk from [source] to [target]; with
    [max_length] no returned path has more links than that, unless
    [source == target]. *)
Theorem encontrar_k_paths_bfs_caminos (source target : Z) (enlaces : list Enlace.t)
  (k : Z) (max_length : option Z) :
  exists r,
    encontrar_k_paths_bfs source target enlaces k max_length = Some r
    /\ Forall (camino_en enlaces source target) r
    /\ forall p, In p r ->
                 match max_length with
                 | None => forall c, camino_en enlaces source target c ->
                                     length p <= length c + 3
                 | Some n => source = target \/ (Z.of_nat (length p) <= n)%Z
                 end.
Proof.
  destruct (Z.eq_dec source target) as [<-|Hst].
  - exists [[]]. unfold encontrar_k_paths_bfs. rewrite Z.eqb_refl.
    split; [reflexivity|]. split.
    + constructor; [apply camino_en_vacio|constructor].
    + intros p [<-|[]]. destruct max_length; [now left|].
      intros c _. cbn [length]. lia.
  - destruct (encontrar_k_paths_bfs_todos source target enlaces k max_length Hst)
      as [[E Hno]|(c0 & todos & E & _ & _ & Hmin & Htodos & _)]; rewrite E.
    + exists []. split; [reflexivity|]. split; [constructor|intros p []].
    + eexists. split; [reflexivity|].
      destruct (ordenar_y_cortar _ todos k Htodos) as (Hr & _ & _).
      rewrite Forall_forall in Hr. split.
      * apply Forall_forall. intros p Hp. now apply Hr.
      * intros p Hp. destruct (Hr p Hp) as [_ Hle].
        destruct max_length as [n|]; [now right|].
        intros c Hc. specialize (Hmin c Hc). lia.
Qed.

(** When some walk from [source] to [target] is within [max_length], or
    [max_length] is not given and [target] can be reached, and [k >= 1], the
    result of [encontrar_k_paths_bfs] has a first path, and no walk from
    [source] to [target] has fewer links than it. *)
Theorem encontrar_k_paths_bfs_primero (source target : Z) (enlaces : list Enlace.t)
  (k : Z) (max_length : option Z) (c0 : list Enlace.t) :
  (1 <= k)%Z ->
  camino_en enlaces source target c0 ->
  (forall n, max_length = Some n -> (Z.of_nat (length c0) <= n)%Z) ->
  exists p r,
    encontrar_k_paths_bfs source target enlaces k max_length = Some (p :: r)
    /\ forall c, camino_en enlaces source target c -> length p <= length c.
Proof.
  intros Hk Hc0 Hlim. destruct (Z.eq_dec source target) as [<-|Hst].
  - exists [], []. unfold encontrar_k_paths_bfs. rewrite Z.eqb_refl.
    split; [reflexivity|]. intros c _. cbn [length]. lia.
  - destruct (encontrar_k_paths_bfs_todos source target enlaces k max_length Hst)
      as [[_ Hno]|(c1 & todos & E & Hc1 & Hs1 & Hmin & _ & Hcompleto)];
      [elim (Hno c0 Hc0)|].
    assert (Hin : In c1 todos).
    { apply Hcompleto; [exact Hc1|exact Hs1|].
      specialize (Hmin c0 Hc0).
      destruct max_length as [n|]; [specialize (Hlim n eq_refl)|]; lia. }
    destruct (cortar_cabeza todos k c1 Hk Hin) as (p & r & Er & _ & Hp).
    exists p, r. rewrite E, Er. split; [reflexivity|].
    intros c Hc. specialize (Hp c1 Hin). specialize (Hmin c Hc). lia.
Qed.

(** The result of [encontrar_k_paths_bfs] is made of the shortest simple
    walks: a simple walk from [source] to [target] within the hop limit
    ([max_length], or three links more than the shortest walk) is returned,
    unless [k] paths that are no longer than it are returned. *)
Theorem encontrar_k_paths_bfs_k_mejores (source target : Z) (enlaces : list Enlace.t)
  (k : Z) (max_length : option Z) (r : list (list Enlace.t)) (c : list Enlace.t) :
  encontrar_k_paths_bfs source target enlaces k max_length = Some r ->
  camino_en enlaces source target c ->
  simple c ->
  match max_length with
  | None => forall c', camino_en enlaces source target c' -> length c <= length c' + 3
  | Some n => (Z.of_nat (length c) <= n)%Z
  end ->
  In c r
  \/ (((0 <= k)%Z -> Z.of_nat (length r) = k)
      /\ forall p, In p r -> length p <= length c).
Proof.
  intros Er Hc Hs Hle. destruct (Z.eq_dec source target) as [<-|Hst].
  - unfold encontrar_k_paths_bfs in Er. rewrite Z.eqb_refl in Er.
    injection Er as <-. destruct Hc as [Hc _].
    rewrite (simple_mismo_nodo source c Hc Hs). left. now left.
  - destruct (encontrar_k_paths_bfs_todos source target enlaces k max_length Hst)
      as [[_ Hno]|(c0 & todos & E & Hc0 & _ & _ & _ & Hcompleto)];
      [elim (Hno c Hc)|].
    rewrite E in Er. injection Er as <-.
    apply cortar_mas_cortos. apply Hcompleto; [exact Hc|exact Hs|].
    destruct max_length as [n|]; [exact Hle|]. specialize (Hle c0 Hc0). lia.
Qed.

Lemma encontrar_k_paths_mas_cortos_primero_witness :
  exists p r,
    encontrar_k_paths_mas_cortos 1 4 red_referencia 2 = Some (p :: r)
    /\ forall c, camino_en red_referencia 1 4 c -> length p <= length c.
Proof.
  apply (encontrar_k_paths_mas_cortos_primero 1 4 red_referencia 2); [lia|].
  apply (alcanzable_paso red_referencia 1 e2); [constructor|].
  cbn. auto.
Defined.

Lemma encontrar_k_paths_mas_cortos_k_mejores_witness :
  In [e3; e5] [[e2]; [e1; e4]]
  \/ (((0 <= 2)%Z -> Z.of_nat (length [[e2]; [e1; e4]]) = 2%Z)
      /\ forall p, In p [[e2]; [e1; e4]] -> length p <= length [e3; e5]).
Proof.
  apply (encontrar_k_paths_mas_cortos_k_mejores 1 4 red_referencia 2).
  - vm_compute; reflexivity.
  - split; [reflexivity|]. repeat (apply Forall_cons; [cbn; auto 10|]). apply Forall_nil.
  - unfold simple.
    repeat (constructor;
            [cbn; intros H; repeat (destruct H as [H|H]; [discriminate|]); exact H|]).
    constructor.
  - intros c' _. cbn [length]. lia.
Defined.

Lemma encontrar_k_paths_bfs_primero_witness :
  exists p r,
    encontrar_k_paths_bfs 1 4 red_referencia 3 (Some 10%Z) = Some (p :: r)
    /\ forall c, camino_en red_referencia 1 4 c -> length p <= length c.
Proof.
  apply (encontrar_k_paths_bfs_primero 1 4 red_referencia 3 (Some 10%Z) [e2]); [lia| |].
  - split; [reflexivity|]. repeat (apply Forall_cons; [cbn; auto 10|]). apply Forall_nil.
  - intros n E. injection E as <-. cbn [length]. lia.
Defined.

Lemma encontrar_k_paths_bfs_k_mejores_witness :
  In [e3; e5] [[e2]; [e1; e4]]
  \/ (((0 <= 2)%Z -> Z.of_nat (length [[e2]; [e1; e4]]) = 2%Z)
      /\ forall p, In p [[e2]; [e1; e4]] -> length p <= length [e3; e5]).
Proof.
  apply (encontrar_k_paths_bfs_k_mejores 1 4 red_referencia 2 None).
  - vm_compute; reflexivity.
  - split; [reflexivity|]. repeat (apply Forall_cons; [cbn; auto 10|]). apply Forall_nil.
  - unfold simple.
    repeat (constructor;
            [cbn; intros H; repeat (destruct H as [H|H]; [discriminate|]); exact H|]).
    constructor.
  - intros c' _. cbn [length]. lia.
Defined.

(** ** The breadth-first phase *)

(** The breadth-first traversal of both functions returns, and what it
    records for [target] is the hop distance: nothing when no walk leads
    from [source] to [target], else the length of a simple walk that no
    walk from [source] to [target] is shorter than. *)
Theorem calcular_distancias_minima (source target : Z) (enlaces : list Enlace.t) :
  source <> target ->
  exists distancias,
    calcular_distancias source target enlaces = Some distancias
    /\ match dict_get target distancias with
       | None => forall c, ~ camino_en enlaces source target c
       | Some dist_min =>
         (exists c, camino_en enlaces source target c /\ simple c
                    /\ length c = dist_min)
         /\ forall c, camino_en enlaces source target c -> dist_min <= length c
       end.
Proof.
  intros Hst.
  destruct (calcular_distancias_correcto source target enlaces Hst)
    as (distancias & Ed & Hmin & Hreal).
  exists distancias. split; [exact Ed|].
  destruct (dict_get target distancias) as [dist_min|].
  - split.
    + destruct (Hreal dist_min eq_refl) as (c & Hc & Hlen & Hnd).
      exists c. split; [exact Hc|]. split; [|exact Hlen].
      unfold simple. destruct Hc as [Hc _].
      rewrite (en_camino_nodos source target c Hc); [exact Hnd|].
      intros ->. apply en_camino_vacio in Hc. congruence.
    + intros c Hc. destruct (Hmin c Hc) as (x & Hx & Hle). congruence.
  - intros c Hc. destruct (Hmin c Hc) as (x & Hx & _). discriminate.
Qed.

Lemma calcular_distancias_minima_witness :
  exists distancias,
    calcular_distancias 1 4 red_referencia = Some distancias
    /\ match dict_get 4%Z distancias with
       | None => forall c, ~ camino_en red_referencia 1 4 c
       | Some dist_min =>
         (exists c, camino_en red_referencia 1 4 c /\ simple c
                    /\ length c = dist_min)
         /\ forall c, camino_en red_referencia 1 4 c -> dist_min <= length c
       end.
Proof. apply (calcular_distancias_minima 1 4 red_referencia). discriminate. Defined.

(** ** The adjacency dict, entry by entry *)

Lemma construir_grafo_adyacencia_desde (nodo : Z) (enlaces : list Enlace.t) :
  forall grafo,
    dict_get nodo
      (fold_left
         (fun grafo enlace =>
            dict_set (Enlace.source enlace)
              (dict_get_or (Enlace.source enlace) [] grafo
               ++ [(Enlace.target enlace, enlace)])
              grafo)
         enlaces grafo)
    = match filter (fun e => (Enlace.source e =? nodo)%Z) enlaces with
      | [] => dict_get nodo grafo
      | salientes =>
        Some (dict_get_or nodo [] grafo ++ map (fun e => (Enlace.target e, e)) salientes)
      end.
Proof.
  induction enlaces as [|a l IH]; intros grafo; cbn [fold_left filter]; [reflexivity|].
  rewrite IH.
  pose proof (dict_get_set_Z nodo (Enlace.source a)
                (dict_get_or (Enlace.source a) [] grafo ++ [(Enlace.target a, a)])
                grafo) as Hget.
  destruct (Enlace.source a =? nodo)%Z eqn:E.
  - apply Z.eqb_eq in E. rewrite E in *.
    unfold dict_get_or in *. rewrite Hget.
    destruct (filter _ l) as [|x s]; cbn [map]; [reflexivity|].
    now rewrite <- app_assoc.
  - unfold dict_get_or in *. rewrite Hget. reflexivity.
Qed.

(** [construir_grafo_adyacencia] maps a node to the links that leave it, in
    the order of [enlaces], each with its target; a node that no link leaves
    is not a key. *)
Theorem construir_grafo_adyacencia_vecinos (enlaces : list Enlace.t) (nodo : Z) :
  dict_get nodo (construir_grafo_adyacencia enlaces)
  = match filter (fun e => (Enlace.source e =? nodo)%Z) enlaces with
    | [] => None
    | salientes => Some (map (fun e => (Enlace.target e, e)) salientes)
    end.
Proof.
  unfold construir_grafo_adyacencia. rewrite construir_grafo_adyacencia_desde.
  reflexivity.
Qed.

Local Open Scope Q_scope.

(** * More on the cost model *)










(** * The curvature sum *)










(** Two paths that use the same links, by value, have the curvature sum
    [0]: the update of the one against the other divides by it and raises
    [ZeroDivisionError]. *)
Theorem nuevo_trafico_de_mismos_enlaces (it : Iteraciones) (i : nat)
  (paths : list Path.t) (path_minimo_id : nat) (d_kbeta : Q) (path_id : nat)
  (coste_actual : Q) (path_actual mejor_path : Path.t) (flujo : dict Enlace.t Q) :
  py_index paths (Z.of_nat path_id - 1) = Ok path_actual ->
  py_index paths (Z.of_nat path_minimo_id - 1) = Ok mejor_path ->
  py_index (flujo_total it) (Z.of_nat i - 1) = Ok flujo ->
  (forall e, contiene path_actual e = contiene mejor_path e) ->
  calcular_H_kp path_actual mejor_path flujo = Ok 0
  /\ nuevo_trafico_de it i paths path_minimo_id d_kbeta path_id coste_actual
     = Raise ZeroDivisionError.
Proof.
  intros Ep Epm Ef Hmismos.
  assert (EH : calcular_H_kp path_actual mejor_path flujo = Ok 0).
  { unfold calcular_H_kp. cbv zeta.
    destruct (symmetric_difference_spec path_actual mejor_path) as [_ Hxor].
    cbv zeta in Hxor.
    destruct (symmetric_difference _ _) as [|x L]; [reflexivity|].
    specialize (Hxor x). rewrite Hmismos, xorb_nilpotent in Hxor.
    cbn [existsb] in Hxor. now rewrite py_eqb_refl in Hxor. }
  split; [exact EH|].
  unfold nuevo_trafico_de. rewrite Ep, Epm, Ef. cbn [bind]. rewrite EH. cbn [bind].
  apply calculo_del_trafico_division_por_cero. reflexivity.
Qed.

Lemma nuevo_trafico_de_mismos_enlaces_witness :
  calcular_H_kp (Path.mk [e1; e4] 2) (Path.mk [e4; e1] 2) [] = Ok 0
  /\ nuevo_trafico_de (mkIteraciones [[]] [[]] [[]]) 1
       [Path.mk [e1; e4] 2; Path.mk [e4; e1] 2] 2 1 1 1
     = Raise ZeroDivisionError.
Proof.
  apply (nuevo_trafico_de_mismos_enlaces (mkIteraciones [[]] [[]] [[]]) 1
           [Path.mk [e1; e4] 2; Path.mk [e4; e1] 2] 2 1 1 1
           (Path.mk [e1; e4] 2) (Path.mk [e4; e1] 2) []).
  - reflexivity.
  - reflexivity.
  - reflexivity.
  - intros e. unfold contiene. cbn [Path.enlaces existsb].
    destruct (py_eqb e1 e), (py_eqb e4 e); reflexivity.
Defined.

(** * The selection of the reference path *)

(** [min(d, key=d.get)] returns the first key of minimum value: the values
    before it are greater, the values after it are not smaller. *)
Lemma py_min_desde_primero (d : dict nat Q) :
  forall mejor,
    exists pre v post,
      mejor :: d = pre ++ (py_min_desde mejor d, v) :: post
      /\ Forall (fun kv => v < snd kv) pre
      /\ Forall (fun kv => v <= snd kv) post
      /\ v <= snd mejor.
Proof.
  induction d as [|kv r IH]; intros mejor; cbn [py_min_desde].
  - exists [], (snd mejor), []. destruct mejor as [k v]. cbn [fst snd app].
    split; [reflexivity|]. split; [constructor|]. split; [constructor|apply Qle_refl].
  - destruct (Qgt_bool (snd mejor) (snd kv)) eqn:E.
    + apply Qgt_bool_true in E.
      destruct (IH kv) as (pre & v & post & Hd & Hpre & Hpost & Hv).
      exists (mejor :: pre), v, post. cbn [app]. rewrite Hd.
      split; [reflexivity|]. split; [constructor; [lra|exact Hpre]|].
      split; [exact Hpost|lra].
    + apply Qgt_bool_false in E.
      destruct (IH mejor) as (pre & v & post & Hd & Hpre & Hpost & Hv).
      destruct pre as [|x pre]; cbn [app] in Hd.
      * injection Hd as Hm Hr. exists [], v, (kv :: post). cbn [app].
        assert (Hsnd : snd mejor = v) by (rewrite Hm; reflexivity).
        rewrite <- Hm, Hr. split; [reflexivity|]. split; [constructor|].
        split; [constructor; [rewrite <- Hsnd; exact E|exact Hpost]|exact Hv].
      * injection Hd as Hm Hr. subst x.
        inversion Hpre as [|? ? Hx Hpre']; subst.
        exists (mejor :: kv :: pre), v, post. cbn [app].
        split; [now rewrite <- Hr|].
        split; [constructor; [exact Hx|constructor; [lra|exact Hpre']]|].
        split; [exact Hpost|exact Hv].
Qed.

Lemma py_min_primero (d : dict nat Q) (m : nat) :
  py_min d = Some m ->
  exists pre v post,
    d = pre ++ (m, v) :: post
    /\ Forall (fun kv => v < snd kv) pre
    /\ Forall (fun kv => v <= snd kv) post.
Proof.
  destruct d as [|kv r]; cbn [py_min]; [discriminate|].
  intros E; injection E as <-.
  destruct (py_min_desde_primero r kv) as (pre & v & post & Hd & Hpre & Hpost & _).
  exists pre, v, post. auto.
Qed.

Lemma costes_del_commodity_wf (costes : dict (Commodity.t * nat) Q) (c : Commodity.t) :
  dict_wf (costes_del_commodity costes c).
Proof.
  unfold costes_del_commodity.
  assert (H0 : dict_wf (@nil (nat * Q))) by exact I.
  revert H0. generalize (@nil (nat * Q)).
  induction costes as [|kv r IH]; intros acc Hacc; cbn [fold_left]; [exact Hacc|].
  apply IH. destruct (py_eqb (fst (fst kv)) c); [now apply dict_set_wf|exact Hacc].
Qed.

Lemma dict_wf_In (d : dict nat Q) (id : nat) (v : Q) :
  dict_wf d -> In (id, v) d -> dict_get id d = Some v.
Proof.
  induction d as [|[k0 v0] r IH]; cbn [dict_wf dict_get]; [intros _ []|].
  intros [Hk Hr] [E|Hin].
  - injection E as -> ->. now rewrite py_eqb_refl.
  - rewrite py_eqb_nat. destruct (k0 =? id)%nat eqn:Ek; [|now apply IH].
    apply Nat.eqb_eq in Ek. subst k0. rewrite (IH Hr Hin) in Hk. discriminate.
Qed.

(** The path that [seleccionar_path_minimo_coste] records for a commodity
    has a cost in the map, no path of the commodity has a smaller one, and
    the paths whose cost was written before it have a greater one. *)
Theorem seleccionar_path_minimo_coste_minimo (commodities : list Commodity.t)
  (costes : dict (Commodity.t * nat) Q) (c : Commodity.t) (m : nat) :
  dict_wf costes ->
  dict_get c (seleccionar_path_minimo_coste commodities costes) = Some m ->
  exists d_kbeta antes despues,
    dict_get (c, m) costes = Some d_kbeta
    /\ claves (costes_del_commodity costes c) = antes ++ m :: despues
    /\ (forall id d, dict_get (c, id) costes = Some d ->
                     d_kbeta <= d /\ (In id antes -> d_kbeta < d)).
Proof.
  intros Hwf Hsel. unfold seleccionar_path_minimo_coste in Hsel.
  rewrite (seleccionar_desde costes commodities [] c) in Hsel.
  assert (Hmin : py_min (costes_del_commodity costes c) = Some m).
  { destruct (existsb _ commodities); [|discriminate].
    destruct (py_min _); [exact Hsel|discriminate]. }
  clear Hsel.
  pose proof (costes_del_commodity_wf costes c) as Hcc.
  destruct (py_min_primero _ m Hmin) as (pre & v & post & Hd & Hpre & Hpost).
  assert (Hget : forall id d, In (id, d) (costes_del_commodity costes c) ->
                              dict_get (c, id) costes = Some d).
  { intros id d Hin. rewrite <- (costes_del_commodity_get costes c id Hwf).
    now apply dict_wf_In. }
  exists v, (claves pre), (claves post). split; [|split].
  - apply Hget. rewrite Hd. apply in_or_app. right. now left.
  - rewrite Hd. unfold claves. rewrite map_app. reflexivity.
  - intros id d Hid.
    rewrite <- (costes_del_commodity_get costes c id Hwf) in Hid.
    pose proof (dict_get_In _ _ _ Hid) as Hin. rewrite Hd in Hin.
    rewrite Forall_forall in Hpre, Hpost.
    assert (Hunico : forall d', In (id, d') (costes_del_commodity costes c) -> d' = d).
    { intros d' Hd'. apply (dict_wf_In _ _ _ Hcc) in Hd'. congruence. }
    split.
    + apply in_app_or in Hin. destruct Hin as [Hin|[E|Hin]].
      * apply Qlt_le_weak. exact (Hpre _ Hin).
      * injection E as _ <-. apply Qle_refl.
      * exact (Hpost _ Hin).
    + intros Hantes. unfold claves in Hantes. apply in_map_iff in Hantes.
      destruct Hantes as ([id' d'] & E & Hin'). cbn [fst] in E. subst id'.
      assert (d' = d).
      { apply Hunico. rewrite Hd. apply in_or_app. now left. }
      subst d'. exact (Hpre _ Hin').
Qed.

Lemma seleccionar_path_minimo_coste_minimo_witness :
  exists d_kbeta antes despues,
    dict_get (k1, 2%nat) [((k1, 1%nat), 3); ((k1, 2%nat), 1); ((k1, 3%nat), 1)]
    = Some d_kbeta
    /\ claves (costes_del_commodity
                 [((k1, 1%nat), 3); ((k1, 2%nat), 1); ((k1, 3%nat), 1)] k1)
       = antes ++ 2%nat :: despues
    /\ (forall id d,
          dict_get (k1, id) [((k1, 1%nat), 3); ((k1, 2%nat), 1); ((k1, 3%nat), 1)]
          = Some d ->
          d_kbeta <= d /\ (In id antes -> d_kbeta < d)).
Proof.
  apply (seleccionar_path_minimo_coste_minimo [k1]
           [((k1, 1%nat), 3); ((k1, 2%nat), 1); ((k1, 3%nat), 1)] k1 2).
  - vm_compute. auto.
  - vm_compute. reflexivity.
Defined.

(** * The engine writes to [trafico] only *)

Lemma misma_estructura_refl (c : Commodity.t) : misma_estructura c c.
Proof. repeat split. Qed.

Lemma misma_estructura_trans (c1 c2 c3 : Commodity.t) :
  misma_estructura c1 c2 -> misma_estructura c2 c3 -> misma_estructura c1 c3.
Proof.
  intros (A1 & A2 & A3 & A4) (B1 & B2 & B3 & B4). repeat split; congruence.
Qed.

Lemma list_set_enlaces (paths : list Path.t) (j : nat) (x : Q) :
  map Path.enlaces (list_set paths j (Path.con_trafico x)) = map Path.enlaces paths.
Proof.
  revert j. induction paths as [|p r IH]; intros [|j]; cbn [list_set map]; auto.
  now rewrite IH.
Qed.

Lemma actualizar_path_enlaces (it : Iteraciones) (i m : nat) (d_kbeta : Q)
  (l : list (list Enlace.t)) (st : list Path.t * Q) (kv : nat * Q) :
  map Path.enlaces (fst st) = l ->
  map Path.enlaces (fst (estado (actualizar_path it i m d_kbeta st kv))) = l.
Proof.
  destruct st as [paths suma], kv as [path_id coste]. cbn [fst]. intros Hp.
  unfold actualizar_path.
  destruct (path_id =? m)%nat; [exact Hp|].
  destruct (nuevo_trafico_de _ _ _ _ _ _ _) as [v|e]; [|exact Hp].
  destruct (py_pos paths (Z.of_nat path_id - 1)); [|exact Hp].
  cbn [estado fst]. now rewrite list_set_enlaces.
Qed.

Lemma actualizar_commodity_estructura (it : Iteraciones) (i : nat) (c : Commodity.t) :
  misma_estructura c (estado (actualizar_commodity it i c)).
Proof.
  unfold actualizar_commodity.
  destruct (py_index (costes_path it) (Z.of_nat i - 1)) as [costes|e];
    [|apply misma_estructura_refl].
  destruct (py_min _) as [m|]; [|apply misma_estructura_refl].
  destruct (dict_item m _) as [d_kbeta|e]; [|apply misma_estructura_refl].
  pose proof (para_cada_ef_inv
                (fun st : list Path.t * Q =>
                   map Path.enlaces (fst st) = map Path.enlaces (Commodity.paths c))
                (actualizar_path it i m d_kbeta)
                (actualizar_path_enlaces it i m d_kbeta _)
                (costes_del_commodity costes c) (Commodity.paths c, 0) eq_refl) as Hl.
  destruct (para_cada_ef _ _ _) as [[paths suma]|e [paths suma]]; cbn [estado fst] in Hl.
  - destruct (py_pos paths (Z.of_nat m - 1)); cbn [estado].
    + repeat split. cbn [Commodity.con_paths Commodity.paths].
      now rewrite list_set_enlaces.
    + repeat split. exact Hl.
  - repeat split. exact Hl.
Qed.

Lemma distribuir_trafico_uniforme_estructura (c : Commodity.t) :
  misma_estructura c (estado (distribuir_trafico_uniforme c)).
Proof.
  unfold distribuir_trafico_uniforme.
  destruct (length (Commodity.paths c) =? 0)%nat; [apply misma_estructura_refl|].
  repeat split. cbn [estado Commodity.con_paths Commodity.paths].
  rewrite map_map. reflexivity.
Qed.

Lemma para_cada_commodity_estructura (f : Commodity.t -> efecto Commodity.t) :
  (forall c, misma_estructura c (estado (f c))) ->
  forall cs, Forall2 misma_estructura cs (estado (para_cada_commodity f cs)).
Proof.
  intros Hf cs. induction cs as [|c cs IH]; cbn [para_cada_commodity estado].
  - constructor.
  - specialize (Hf c). destruct (f c) as [c'|e c']; cbn [estado] in *.
    + destruct (para_cada_commodity f cs); cbn [estado] in *; constructor; auto.
    + constructor; [exact Hf|].
      clear. induction cs; constructor; [apply misma_estructura_refl|assumption].
Qed.

Lemma Forall2_estructura_refl (cs : list Commodity.t) : Forall2 misma_estructura cs cs.
Proof. induction cs; constructor; [apply misma_estructura_refl|assumption]. Qed.

Lemma Forall2_estructura_trans (l1 l2 l3 : list Commodity.t) :
  Forall2 misma_estructura l1 l2 -> Forall2 misma_estructura l2 l3 ->
  Forall2 misma_estructura l1 l3.
Proof.
  intros H12. revert l3. induction H12 as [|a b l1 l2 Hab _ IH]; intros l3 H23;
    inversion H23; subst; constructor.
  - eapply misma_estructura_trans; eauto.
  - now apply IH.
Qed.

Lemma iteracion_estructura (i : nat) (cs : list Commodity.t) (it : Iteraciones) :
  Forall2 misma_estructura cs (fst (estado (iteracion i (cs, it)))).
Proof.
  unfold iteracion.
  assert (H : Forall2 misma_estructura cs
                (estado (if (i =? 0)%nat
                         then para_cada_commodity distribuir_trafico_uniforme cs
                         else para_cada_commodity (actualizar_commodity it i) cs))).
  { destruct (i =? 0)%nat; apply para_cada_commodity_estructura.
    - apply distribuir_trafico_uniforme_estructura.
    - apply actualizar_commodity_estructura. }
  destruct (if (i =? 0)%nat then _ else _) as [cs'|e cs']; cbn [estado] in H;
    [|exact H].
  destruct (calcular_coste_total_por_path _ _); exact H.
Qed.

Lemma bucle_estructura (rango : list nat) (cs : list Commodity.t) (it : Iteraciones) :
  Forall2 misma_estructura cs (fst (estado (bucle rango (cs, it)))).
Proof.
  apply (para_cada_ef_inv
           (fun st : list Commodity.t * Iteraciones => Forall2 misma_estructura cs (fst st))
           (fun st i => iteracion i st)); [|apply Forall2_estructura_refl].
  intros [cs0 it0] i H0. cbn [fst] in H0.
  apply (Forall2_estructura_trans cs cs0 _ H0). apply iteracion_estructura.
Qed.

(** Whether [funcion_principal] returns or raises, the commodities it leaves
    are the ones it was given with other traffic: as many commodities, with
    the same source, target and requirement, and each with as many paths,
    over the same link sequences. *)
Theorem funcion_principal_estructura (commodities : list Commodity.t) :
  Forall2 misma_estructura commodities (fst (estado (funcion_principal commodities))).
Proof. apply bucle_estructura. Qed.

(** * The snapshot of the costs *)











(** * The traffic that a commodity carries in total *)















(** * The exceptions of a run *)

(** ** The keys of a snapshot of the costs *)




(** ** One pass over a commodity *)








(** ** Well-formed commodities stay well-formed *)






(** ** One pass of the loop, and the loop *)











(** * The ledger *)

Lemma ampliado_refl (it : Iteraciones) : ampliado it it.
Proof.
  exists [], [], []. rewrite !app_nil_r. repeat split.
Qed.

Lemma ampliado_trans (it1 it2 it3 : Iteraciones) :
  ampliado it1 it2 -> ampliado it2 it3 -> ampliado it1 it3.
Proof.
  intros (f & c & s & Ef & Ec & Es & H1 & H2) (f' & c' & s' & Ef' & Ec' & Es' & H1' & H2').
  exists (f ++ f'), (c ++ c'), (s ++ s').
  rewrite Ef', Ec', Es', Ef, Ec, Es, <- !app_assoc, !length_app.
  repeat split; lia.
Qed.

Lemma iteracion_ampliado (i : nat) (cs : list Commodity.t) (it : Iteraciones) :
  ampliado it (snd (estado (iteracion i (cs, it)))).
Proof.
  unfold iteracion.
  destruct (if (i =? 0)%nat then _ else _) as [cs'|e cs']; [|apply ampliado_refl].
  destruct (calcular_coste_total_por_path _ _) as [costes|]; [|apply ampliado_refl].
  cbn [estado snd]. unfold append_iteracion.
  do 3 eexists. cbn [flujo_total costes_path shortest_paths].
  repeat split.
Qed.

(** The loop only appends to the ledger: whether the passes return or one
    of them raises, the entries that were there are still there, unchanged
    and in the same places, and the three collections have grown by the
    same number of entries. *)
Theorem bucle_amplia_iteraciones (rango : list nat) (commodities : list Commodity.t)
  (it : Iteraciones) :
  ampliado it (snd (estado (bucle rango (commodities, it)))).
Proof.
  apply (para_cada_ef_inv
           (fun st : list Commodity.t * Iteraciones => ampliado it (snd st))
           (fun st i => iteracion i st)); [|apply ampliado_refl].
  intros [cs0 it0] i H0. cbn [snd] in H0.
  apply (ampliado_trans it it0 _ H0). apply iteracion_ampliado.
Qed.

Lemma bucle_registra_seleccion (n : nat) (cs cs' : list Commodity.t) (it : Iteraciones) :
  bucle (seq 0 (S n)) (cs, iteraciones_vacias) = Fin (cs', it) ->
  exists costes,
    nth_error (costes_path it) n = Some costes
    /\ nth_error (shortest_paths it) n = Some (seleccionar_path_minimo_coste cs' costes).
Proof.
  rewrite seq_S, bucle_app. cbn [Nat.add].
  assert (H0 : entradas iteraciones_vacias 0) by (repeat split).
  pose proof (bucle_entradas (seq 0 n) 0 cs _ H0) as Hb.
  destruct (bucle (seq 0 n) (cs, iteraciones_vacias)) as [[cs1 it1]|e [cs1 it1]];
    [|discriminate].
  rewrite length_seq in Hb. cbn [Nat.add] in Hb. destruct Hb as (_ & Hc & Hs).
  rewrite bucle_cons. unfold iteracion.
  destruct (if (n =? 0)%nat then _ else _) as [cs2|e cs2]; [|discriminate].
  destruct (calcular_coste_total_por_path cs2 _) as [costes|]; [|discriminate].
  cbn [para_cada_ef bucle]. intros E; injection E as <- <-.
  exists costes. cbn [append_iteracion costes_path shortest_paths].
  rewrite !nth_error_app2 by lia. rewrite Hc, Hs, Nat.sub_diag. cbn [nth_error].
  split; reflexivity.
Qed.

(** The reference path that an iteration records for a commodity is the
    one that the next iteration computes again and updates against: the
    first path of minimum cost among the costs that the snapshot holds for
    the commodity. *)
Theorem seleccion_registrada (n : nat) (cs cs_n : list Commodity.t) (it_n : Iteraciones) :
  bucle (seq 0 (S n)) (cs, iteraciones_vacias) = Fin (cs_n, it_n) ->
  exists costes seleccion,
    py_index (costes_path it_n) (Z.of_nat (S n) - 1) = Ok costes
    /\ nth_error (shortest_paths it_n) n = Some seleccion
    /\ forall c, In c cs_n ->
                 dict_get c seleccion = py_min (costes_del_commodity costes c).
Proof.
  intros Hrun.
  destruct (bucle_registra_seleccion n cs cs_n it_n Hrun) as (costes & Ec & Es).
  exists costes, (seleccionar_path_minimo_coste cs_n costes).
  split; [|split; [exact Es|]].
  - rewrite (py_index_ordinal _ (S n)) by lia.
    replace (S n - 1)%nat with n by lia. now rewrite Ec.
  - intros c Hc. unfold seleccionar_path_minimo_coste.
    rewrite (seleccionar_desde costes cs_n [] c).
    replace (existsb (fun c0 => py_eqb c0 c) cs_n) with true.
    + cbn [dict_get]. now destruct (py_min _).
    + symmetry. apply existsb_exists. exists c. split; [exact Hc|apply py_eqb_refl].
Qed.

Lemma seleccion_registrada_witness :
  exists costes seleccion,
    py_index (costes_path (snd ejemplo_estado)) (Z.of_nat 1 - 1) = Ok costes
    /\ nth_error (shortest_paths (snd ejemplo_estado)) 0 = Some seleccion
    /\ forall c, In c (fst ejemplo_estado) ->
                 dict_get c seleccion = py_min (costes_del_commodity costes c).
Proof.
  apply (seleccion_registrada 0 [k1; k2] (fst ejemplo_estado) (snd ejemplo_estado)).
  vm_compute; reflexivity.
Defined.

(** * The commodities that the two simulators build *)












(** * The ring *)

Lemma py_range_In (a b i : Z) : In i (py_range a b) <-> (a <= i < b)%Z.
Proof.
  unfold py_range. rewrite in_map_iff. split.
  - intros (k & <- & Hk). apply in_seq in Hk. lia.
  - intros Hi. exists (Z.to_nat (i - a)). split; [lia|]. apply in_seq. lia.
Qed.

Lemma py_range_length (a b : Z) : length (py_range a b) = Z.to_nat (b - a).
Proof. unfold py_range. now rewrite length_map, length_seq. Qed.

Lemma generar_anillo_desde (num_nodes node_offset : Z) (capacity : Q)
  (bidirectional : bool) (l : list Z) :
  (forall i, In i l -> (0 <= i < num_nodes)%Z) ->
  forall enlaces,
    para_cada (enlaces_del_nodo num_nodes node_offset capacity bidirectional) l enlaces
    = Ok (enlaces
          ++ flat_map (enlaces_de_anillo num_nodes node_offset capacity bidirectional) l).
Proof.
  induction l as [|i l IH]; intros Hl enlaces; cbn [para_cada flat_map].
  - now rewrite app_nil_r.
  - unfold enlaces_del_nodo at 1, py_mod.
    assert (Hi : (0 <= i < num_nodes)%Z) by (apply Hl; now left).
    replace (num_nodes =? 0)%Z with false by (symmetry; apply Z.eqb_neq; lia).
    cbn [bind]. rewrite IH by (intros j Hj; apply Hl; now right).
    f_equal. unfold enlaces_de_anillo. cbv zeta.
    destruct bidirectional; rewrite <- !app_assoc; reflexivity.
Qed.

Lemma generar_anillo_simple_lista (ring_id num_nodes node_offset : Z)
  (capacity : Q) (bidirectional : bool) :
  generar_anillo_simple ring_id num_nodes node_offset capacity bidirectional
  = Ok (flat_map (enlaces_de_anillo num_nodes node_offset capacity bidirectional)
          (py_range 0 num_nodes)).
Proof.
  unfold generar_anillo_simple.
  rewrite generar_anillo_desde by (intros i Hi; now apply py_range_In in Hi).
  reflexivity.
Qed.

Lemma anillo_length (num_nodes node_offset : Z) (capacity : Q) (bidirectional : bool) :
  length (flat_map (enlaces_de_anillo num_nodes node_offset capacity bidirectional)
            (py_range 0 num_nodes))
  = ((if bidirectional then 2 else 1) * Z.to_nat num_nodes)%nat.
Proof.
  pose proof (py_range_length 0 num_nodes) as Hlen.
  rewrite Z.sub_0_r in Hlen. rewrite <- Hlen. clear Hlen.
  induction (py_range 0 num_nodes) as [|i l IH]; cbn [flat_map length];
    [now rewrite Nat.mul_0_r|].
  rewrite length_app, IH. unfold enlaces_de_anillo. cbv zeta.
  destruct bidirectional; cbn [length]; lia.
Qed.

Lemma anillo_Forall (num_nodes node_offset : Z) (capacity : Q) (bidirectional : bool) :
  Forall (fun e => Enlace.capacity e = capacity
                   /\ (node_offset <= Enlace.source e < node_offset + num_nodes)%Z
                   /\ (node_offset <= Enlace.target e < node_offset + num_nodes)%Z)
    (flat_map (enlaces_de_anillo num_nodes node_offset capacity bidirectional)
       (py_range 0 num_nodes)).
Proof.
  apply Forall_flat_map, Forall_forall. intros i Hi. apply py_range_In in Hi.
  assert (Hm : (0 <= (i + 1) mod num_nodes < num_nodes)%Z)
    by (apply Z.mod_pos_bound; lia).
  unfold enlaces_de_anillo. cbv zeta.
  destruct bidirectional; repeat constructor;
    cbn [Enlace.source Enlace.target]; lia.
Qed.

(** [generar_anillo_simple] never raises; it returns, for each of the
    [num_nodes] positions in order, the link to the next position around the
    ring and, when bidirectional, the link back, all with the given
    capacity and between nodes of the ring: [num_nodes] or [2 * num_nodes]
    links, none for [num_nodes <= 0]. *)
Theorem generar_anillo_simple_enlaces (ring_id num_nodes node_offset : Z)
  (capacity : Q) (bidirectional : bool) :
  exists enlaces,
    generar_anillo_simple ring_id num_nodes node_offset capacity bidirectional
    = Ok enlaces
    /\ enlaces = flat_map (enlaces_de_anillo num_nodes node_offset capacity bidirectional)
                   (py_range 0 num_nodes)
    /\ length enlaces
       = ((if bidirectional then 2 else 1) * Z.to_nat num_nodes)%nat
    /\ Forall (fun e => Enlace.capacity e = capacity
                        /\ (node_offset <= Enlace.source e < node_offset + num_nodes)%Z
                        /\ (node_offset <= Enlace.target e < node_offset + num_nodes)%Z)
         enlaces.
Proof.
  eexists. split; [apply generar_anillo_simple_lista|]. split; [reflexivity|].
  split; [apply anillo_length|apply anillo_Forall].
Qed.

Lemma enlaces_de_anillo_In (num_nodes node_offset : Z) (capacity : Q)
  (bidirectional : bool) (j : Z) :
  (0 <= j < num_nodes)%Z ->
  In (Enlace.mk (node_offset + j) (node_offset + (j + 1) mod num_nodes) capacity)
    (flat_map (enlaces_de_anillo num_nodes node_offset capacity bidirectional)
       (py_range 0 num_nodes)).
Proof.
  intros Hj. apply in_flat_map. exists j. split; [now apply py_range_In|].
  unfold enlaces_de_anillo. cbv zeta. now left.
Qed.

(** Around the ring, [d] links lead from position [i] to position
    [(i + d) % num_nodes]. *)
Lemma anillo_camino (num_nodes node_offset : Z) (capacity : Q) (bidirectional : bool)
  (i : Z) (d : nat) :
  (0 <= i < num_nodes)%Z ->
  exists c,
    camino_en
      (flat_map (enlaces_de_anillo num_nodes node_offset capacity bidirectional)
         (py_range 0 num_nodes))
      (node_offset + i) (node_offset + (i + Z.of_nat d) mod num_nodes) c
    /\ length c = d.
Proof.
  intros Hi. induction d as [|d (c & Hc & Hlen)].
  - exists []. split; [|reflexivity].
    rewrite Z.add_0_r, Z.mod_small by lia. split; [reflexivity|constructor].
  - set (j := ((i + Z.of_nat d) mod num_nodes)%Z) in *.
    assert (Hj : (0 <= j < num_nodes)%Z) by (apply Z.mod_pos_bound; lia).
    exists (c ++ [Enlace.mk (node_offset + j) (node_offset + (j + 1) mod num_nodes)
                    capacity]).
    split; [|rewrite length_app; cbn [length]; lia].
    replace ((i + Z.of_nat (S d)) mod num_nodes)%Z with ((j + 1) mod num_nodes)%Z.
    + apply (camino_en_paso _ (node_offset + i) (node_offset + j) c
               (Enlace.mk (node_offset + j) (node_offset + (j + 1) mod num_nodes)
                  capacity) Hc); [|reflexivity].
      now apply enlaces_de_anillo_In.
    + unfold j. rewrite Zplus_mod_idemp_l. f_equal. lia.
Qed.

(** In a ring that [generar_anillo_simple] returns, every node reaches every
    other: for [k >= 1], and a [max_length] that is absent or at least
    [num_nodes - 1], [encontrar_k_paths_bfs] finds a path between any two
    positions of the ring, the first one a shortest one, of fewer than
    [num_nodes] links. *)
Theorem anillo_conectado (ring_id num_nodes node_offset : Z) (capacity : Q)
  (bidirectional : bool) (enlaces : list Enlace.t) (i j k : Z)
  (max_length : option Z) :
  generar_anillo_simple ring_id num_nodes node_offset capacity bidirectional
  = Ok enlaces ->
  (0 <= i < num_nodes)%Z -> (0 <= j < num_nodes)%Z -> (1 <= k)%Z ->
  (forall m, max_length = Some m -> (num_nodes - 1 <= m)%Z) ->
  exists p r,
    encontrar_k_paths_bfs (node_offset + i) (node_offset + j) enlaces k max_length
    = Some (p :: r)
    /\ camino_en enlaces (node_offset + i) (node_offset + j) p
    /\ (Z.of_nat (length p) < num_nodes)%Z
    /\ forall c, camino_en enlaces (node_offset + i) (node_offset + j) c ->
                 (length p <= length c)%nat.
Proof.
  intros Egen Hi Hj Hk Hmax.
  rewrite generar_anillo_simple_lista in Egen. injection Egen as <-.
  destruct (anillo_camino num_nodes node_offset capacity bidirectional i
              (Z.to_nat ((j - i) mod num_nodes)) Hi) as (c0 & Hc0 & Hlen0).
  assert (Hd : (0 <= (j - i) mod num_nodes < num_nodes)%Z)
    by (apply Z.mod_pos_bound; lia).
  rewrite Z2Nat.id in Hc0 by lia.
  rewrite Zplus_mod_idemp_r in Hc0.
  replace (i + (j - i))%Z with j in Hc0 by lia.
  rewrite (Z.mod_small j) in Hc0 by lia.
  set (enlaces := flat_map _ _) in *.
  destruct (Z.eq_dec (node_offset + i) (node_offset + j)) as [E|Hst].
  - rewrite <- E. exists [], []. unfold encontrar_k_paths_bfs. rewrite Z.eqb_refl.
    split; [reflexivity|]. split; [split; [reflexivity|constructor]|].
    split; [cbn [length]; lia|]. intros c _. cbn [length]. lia.
  - destruct (encontrar_k_paths_bfs_todos (node_offset + i) (node_offset + j) enlaces
                k max_length Hst)
      as [[_ Hno]|(c1 & todos & E & Hc1 & Hs1 & Hmin & Htodos & Hcompleto)];
      [elim (Hno c0 Hc0)|].
    pose proof (Hmin c0 Hc0) as Hle.
    assert (Hin : In c1 todos).
    { apply Hcompleto; [exact Hc1|exact Hs1|].
      destruct max_length as [m|]; [specialize (Hmax m eq_refl)|]; lia. }
    destruct (cortar_cabeza todos k c1 Hk Hin) as (p & r & Er & Hpin & Hp).
    exists p, r. rewrite E, Er. split; [reflexivity|].
    rewrite Forall_forall in Htodos. destruct (Htodos p Hpin) as [Hpw _].
    pose proof (Hp c1 Hin) as Hp1.
    split; [exact Hpw|]. split; [lia|].
    intros c Hc. specialize (Hmin c Hc). lia.
Qed.

Lemma anillo_conectado_witness :
  exists p r,
    encontrar_k_paths_bfs (10 + 3) (10 + 1)
      (flat_map (enlaces_de_anillo 4 10 5 false) (py_range 0 4)) 3 (Some 10%Z)
    = Some (p :: r)
    /\ camino_en (flat_map (enlaces_de_anillo 4 10 5 false) (py_range 0 4))
         (10 + 3) (10 + 1) p
    /\ (Z.of_nat (length p) < 4)%Z
    /\ forall c, camino_en (flat_map (enlaces_de_anillo 4 10 5 false) (py_range 0 4))
                   (10 + 3) (10 + 1) c ->
                 (length p <= length c)%nat.
Proof.
  apply (anillo_conectado 0 4 10 5 false
           (flat_map (enlaces_de_anillo 4 10 5 false) (py_range 0 4)) 3 1 3 (Some 10%Z)).
  - vm_compute; reflexivity.
  - lia.
  - lia.
  - lia.
  - intros m E. injection E as <-. lia.
Defined.

(** * The access and aggregation network *)

Lemma py_index_nil {A : Type} (i : Z) : py_index (@nil A) i = Raise IndexError.
Proof.
  unfold py_index. destruct (py_pos (@nil A) i) as [j|e] eqn:E; cbn [bind].
  - now destruct j.
  - unfold py_pos in E. cbv zeta in E.
    destruct (_ || _)%bool in E; [now injection E as <-|discriminate].
Qed.

Lemma py_index_en_rango {A : Type} (l : list A) (i : Z) :
  (0 <= i < Z.of_nat (length l))%Z -> exists a, py_index l i = Ok a /\ In a l.
Proof.
  intros Hi. unfold py_index, py_pos. cbv zeta.
  assert (H0 : (i <? 0)%Z = false) by (apply Z.ltb_ge; lia).
  assert (H1 : (Z.of_nat (length l) <=? i)%Z = false) by (apply Z.leb_gt; lia).
  rewrite H0. cbv iota. rewrite H0, H1. cbn [orb bind].
  destruct (nth_error l (Z.to_nat i)) as [a|] eqn:E.
  - exists a. split; [reflexivity|]. eapply nth_error_In; eauto.
  - apply nth_error_None in E. lia.
Qed.

Lemma py_range_cons (a b : Z) : (a < b)%Z -> py_range a b = a :: py_range (a + 1) b.
Proof.
  intros Hab. unfold py_range.
  replace (Z.to_nat (b - a)) with (S (Z.to_nat (b - (a + 1)))) by lia.
  cbn [seq map]. rewrite Z.add_0_r. f_equal.
  rewrite <- seq_shift, map_map. apply map_ext. intros i. lia.
Qed.

Lemma py_range_vacio (a b : Z) : (b <= a)%Z -> py_range a b = [].
Proof.
  intros Hab. unfold py_range. replace (Z.to_nat (b - a)) with 0%nat by lia. reflexivity.
Qed.

(** Step 1: the rings. *)
Lemma anillos_ok (nodes_per_ring : Z) (access_capacity : Q) (l : list Z) :
  forall enlaces,
    exists enlaces',
      para_cada (agregar_anillo nodes_per_ring access_capacity) l enlaces
      = Ok (enlaces ++ enlaces')
      /\ length enlaces' = (2 * length l * Z.to_nat nodes_per_ring)%nat
      /\ Forall (fun e => Enlace.capacity e = access_capacity) enlaces'.
Proof.
  induction l as [|ring_id l IH]; intros enlaces; cbn [para_cada].
  - exists []. rewrite app_nil_r. repeat split. constructor.
  - unfold agregar_anillo at 1. cbv zeta.
    rewrite generar_anillo_simple_lista. cbn [bind].
    set (anillo := flat_map _ _).
    destruct (IH (enlaces ++ anillo)) as (resto & -> & Hlen & Hcap).
    exists (anillo ++ resto). rewrite app_assoc. split; [reflexivity|]. split.
    + rewrite length_app, Hlen. unfold anillo. rewrite anillo_length.
      cbn [length]. lia.
    + apply Forall_app. split; [|exact Hcap].
      eapply Forall_impl; [|apply anillo_Forall]. intros e (He & _). exact He.
Qed.

(** Step 2, when there is an aggregation node. *)
Lemma conectar_gateway_ok (ring_id gateway_node connections_per_ring num_agg_nodes : Z)
  (agg_nodes : list Z) (uplink_capacity : Q) (l : list Z) :
  (1 <= num_agg_nodes)%Z -> Z.of_nat (length agg_nodes) = num_agg_nodes ->
  forall enlaces,
    exists enlaces',
      para_cada (conectar_gateway ring_id gateway_node connections_per_ring num_agg_nodes
                   agg_nodes uplink_capacity) l enlaces
      = Ok (enlaces ++ enlaces')
      /\ length enlaces' = (2 * length l)%nat
      /\ Forall (fun e => Enlace.capacity e = uplink_capacity) enlaces'.
Proof.
  intros Hagg Hlen. induction l as [|i l IH]; intros enlaces; cbn [para_cada].
  - exists []. rewrite app_nil_r. repeat split. constructor.
  - unfold conectar_gateway at 1, py_mod.
    replace (num_agg_nodes =? 0)%Z with false by (symmetry; apply Z.eqb_neq; lia).
    cbn [bind].
    destruct (py_index_en_rango agg_nodes
                ((ring_id * connections_per_ring + i) mod num_agg_nodes))
      as (agg_node & -> & _).
    { rewrite Hlen. apply Z.mod_pos_bound. lia. }
    cbn [bind].
    destruct (IH (enlaces ++ [Enlace.mk gateway_node agg_node uplink_capacity;
                              Enlace.mk agg_node gateway_node uplink_capacity]))
      as (resto & -> & Hl & Hcap).
    eexists. rewrite <- app_assoc. split; [reflexivity|]. split.
    + rewrite length_app, Hl. cbn [length]. lia.
    + apply Forall_app. split; [repeat constructor|exact Hcap].
Qed.

Lemma conectar_anillos_ok (nodes_per_ring connections_per_ring num_agg_nodes : Z)
  (agg_nodes : list Z) (uplink_capacity : Q) (l : list Z) :
  (1 <= num_agg_nodes)%Z \/ (connections_per_ring <= 0)%Z ->
  Z.of_nat (length agg_nodes) = Z.max 0 num_agg_nodes ->
  forall enlaces,
    exists enlaces',
      para_cada (conectar_anillo nodes_per_ring connections_per_ring num_agg_nodes
                   agg_nodes uplink_capacity) l enlaces
      = Ok (enlaces ++ enlaces')
      /\ length enlaces' = (2 * length l * Z.to_nat connections_per_ring)%nat
      /\ Forall (fun e => Enlace.capacity e = uplink_capacity) enlaces'.
Proof.
  intros Hcase Hlen. induction l as [|ring_id l IH]; intros enlaces; cbn [para_cada].
  - exists []. rewrite app_nil_r. repeat split. constructor.
  - unfold conectar_anillo at 1. cbv zeta.
    assert (Hstep : exists nuevos,
               para_cada (conectar_gateway ring_id (ring_id * nodes_per_ring)
                            connections_per_ring num_agg_nodes agg_nodes uplink_capacity)
                 (py_range 0 connections_per_ring) enlaces
               = Ok (enlaces ++ nuevos)
               /\ length nuevos = (2 * Z.to_nat connections_per_ring)%nat
               /\ Forall (fun e => Enlace.capacity e = uplink_capacity) nuevos).
    { destruct Hcase as [Hagg|Hcon].
      - destruct (conectar_gateway_ok ring_id (ring_id * nodes_per_ring)
                    connections_per_ring num_agg_nodes agg_nodes uplink_capacity
                    (py_range 0 connections_per_ring) Hagg) with (enlaces := enlaces)
          as (nuevos & E & Hl & Hcap); [lia|].
        exists nuevos. split; [exact E|]. split; [|exact Hcap].
        rewrite Hl, py_range_length. f_equal. lia.
      - rewrite py_range_vacio by lia. exists []. cbn [para_cada].
        rewrite app_nil_r. split; [reflexivity|]. split; [cbn [length]; lia|constructor]. }
    destruct Hstep as (nuevos & -> & Hl & Hcap). cbn [bind].
    destruct (IH (enlaces ++ nuevos)) as (resto & -> & Hl' & Hcap').
    exists (nuevos ++ resto). rewrite app_assoc. split; [reflexivity|]. split.
    + rewrite length_app, Hl, Hl'. cbn [length]. lia.
    + apply Forall_app. now split.
Qed.

(** Step 3: the full mesh. *)
Lemma malla_interior (a : Z) (agg_capacity : Q) (l : list Z) :
  forall enlaces,
    exists nuevos,
      fold_left
        (fun enlaces agg_node_j =>
           enlaces ++ [Enlace.mk a agg_node_j agg_capacity;
                       Enlace.mk agg_node_j a agg_capacity])
        l enlaces
      = enlaces ++ nuevos
      /\ length nuevos = (2 * length l)%nat
      /\ Forall (fun e => Enlace.capacity e = agg_capacity) nuevos.
Proof.
  induction l as [|j l IH]; intros enlaces; cbn [fold_left].
  - exists []. rewrite app_nil_r. repeat split. constructor.
  - destruct (IH (enlaces ++ [Enlace.mk a j agg_capacity; Enlace.mk j a agg_capacity]))
      as (resto & -> & Hl & Hcap).
    eexists. rewrite <- app_assoc. split; [reflexivity|]. split.
    + rewrite length_app, Hl. cbn [length]. lia.
    + apply Forall_app. split; [repeat constructor|exact Hcap].
Qed.

Lemma malla_ok (agg_nodes : list Z) (agg_capacity : Q) (sufijo : list Z) :
  forall s enlaces,
    skipn s agg_nodes = sufijo ->
    exists nuevos,
      fold_left (malla_desde agg_nodes agg_capacity) (enumerate sufijo s) enlaces
      = enlaces ++ nuevos
      /\ length nuevos = (length sufijo * (length sufijo - 1))%nat
      /\ Forall (fun e => Enlace.capacity e = agg_capacity) nuevos.
Proof.
  induction sufijo as [|a suf IH]; intros s enlaces Hs; cbn [enumerate fold_left].
  - exists []. rewrite app_nil_r. repeat split. constructor.
  - unfold malla_desde at 2.
    assert (Hs' : skipn (S s) agg_nodes = suf).
    { clear - Hs. revert s Hs. induction agg_nodes as [|x l IHl]; intros s Hs.
      - destruct s; discriminate.
      - destruct s as [|s]; cbn [skipn] in *; [now injection Hs|]. now apply IHl. }
    replace (s + 1)%nat with (S s) by lia. rewrite Hs'.
    destruct (malla_interior a agg_capacity suf enlaces) as (n1 & -> & Hl1 & Hc1).
    destruct (IH (S s) (enlaces ++ n1) Hs') as (n2 & -> & Hl2 & Hc2).
    exists (n1 ++ n2). rewrite app_assoc. split; [reflexivity|]. split.
    + rewrite length_app, Hl1, Hl2. cbn [length]. nia.
    + apply Forall_app. now split.
Qed.

(** [generar_red_acceso_agregacion] raises exactly when there is a ring to
    connect ([num_access_rings >= 1] and [connections_per_ring >= 1]) and no
    aggregation node: [ZeroDivisionError] from [% num_agg_nodes] when
    [num_agg_nodes == 0], [IndexError] from [agg_nodes[agg_idx]] when it is
    negative.  Otherwise it returns [2 * nodes_per_ring] links for each
    ring, [2 * connections_per_ring] uplinks for each ring and
    [num_agg_nodes * (num_agg_nodes - 1)] mesh links (negative counts read
    as [0]), each with the capacity of its kind, and [info['num_enlaces']]
    is their number. *)
Theorem generar_red_acceso_agregacion_resultado
  (num_access_rings nodes_per_ring num_agg_nodes : Z)
  (access_capacity uplink_capacity agg_capacity : Q) (connections_per_ring : Z) :
  if ((1 <=? num_access_rings) && (1 <=? connections_per_ring)
      && (num_agg_nodes <=? 0))%Z
  then
    generar_red_acceso_agregacion num_access_rings nodes_per_ring num_agg_nodes
      access_capacity uplink_capacity agg_capacity connections_per_ring
    = Raise (if (num_agg_nodes =? 0)%Z then ZeroDivisionError else IndexError)
  else
    exists enlaces info,
      generar_red_acceso_agregacion num_access_rings nodes_per_ring num_agg_nodes
        access_capacity uplink_capacity agg_capacity connections_per_ring
      = Ok (enlaces, info)
      /\ length enlaces
         = (2 * Z.to_nat num_access_rings * Z.to_nat nodes_per_ring
            + 2 * Z.to_nat num_access_rings * Z.to_nat connections_per_ring
            + Z.to_nat num_agg_nodes * (Z.to_nat num_agg_nodes - 1))%nat
      /\ InfoRed.num_enlaces info = length enlaces
      /\ Forall (fun e => Enlace.capacity e = access_capacity
                          \/ Enlace.capacity e = uplink_capacity
                          \/ Enlace.capacity e = agg_capacity) enlaces.
Proof.
  unfold generar_red_acceso_agregacion. cbv zeta.
  set (offset := (num_access_rings * nodes_per_ring)%Z).
  set (agg_nodes := py_range offset (offset + num_agg_nodes)).
  assert (Hagg : length agg_nodes = Z.to_nat num_agg_nodes).
  { unfold agg_nodes. rewrite py_range_length. f_equal. lia. }
  destruct (anillos_ok nodes_per_ring access_capacity (py_range 0 num_access_rings) [])
    as (l1 & -> & Hl1 & Hc1).
  cbn [app bind]. rewrite py_range_length, Z.sub_0_r in Hl1.
  destruct ((1 <=? num_access_rings) && (1 <=? connections_per_ring)
            && (num_agg_nodes <=? 0))%Z eqn:Ecase.
  - rewrite !andb_true_iff, !Z.leb_le in Ecase. destruct Ecase as [[Hr Hc] Ha].
    rewrite (py_range_cons 0 num_access_rings) by lia. cbn [para_cada].
    unfold conectar_anillo at 1. cbv zeta.
    rewrite (py_range_cons 0 connections_per_ring) by lia. cbn [para_cada].
    unfold conectar_gateway at 1, py_mod.
    destruct (num_agg_nodes =? 0)%Z eqn:E0; cbn [bind]; [reflexivity|].
    apply Z.eqb_neq in E0.
    assert (Hnil : agg_nodes = []) by (unfold agg_nodes; apply py_range_vacio; lia).
    rewrite Hnil, py_index_nil. reflexivity.
  - assert (Hcase : (1 <= num_agg_nodes)%Z \/ (connections_per_ring <= 0)%Z
                    \/ (num_access_rings <= 0)%Z).
    { rewrite !andb_false_iff, !Z.leb_gt in Ecase. lia. }
    assert (Hstep2 : exists l2,
               para_cada (conectar_anillo nodes_per_ring connections_per_ring
                            num_agg_nodes agg_nodes uplink_capacity)
                 (py_range 0 num_access_rings) l1 = Ok (l1 ++ l2)
               /\ length l2 = (2 * Z.to_nat num_access_rings
                               * Z.to_nat connections_per_ring)%nat
               /\ Forall (fun e => Enlace.capacity e = uplink_capacity) l2).
    { destruct Hcase as [Ha|[Hc|Hr]].
      - destruct (conectar_anillos_ok nodes_per_ring connections_per_ring num_agg_nodes
                    agg_nodes uplink_capacity (py_range 0 num_access_rings))
          with (enlaces := l1) as (l2 & E & Hl2 & Hc2); [now left|lia|].
        exists l2. rewrite py_range_length, Z.sub_0_r in Hl2. auto.
      - destruct (conectar_anillos_ok nodes_per_ring connections_per_ring num_agg_nodes
                    agg_nodes uplink_capacity (py_range 0 num_access_rings))
          with (enlaces := l1) as (l2 & E & Hl2 & Hc2); [now right|lia|].
        exists l2. rewrite py_range_length, Z.sub_0_r in Hl2. auto.
      - rewrite py_range_vacio by lia. exists []. cbn [para_cada].
        rewrite app_nil_r. split; [reflexivity|].
        split; [cbn [length]; lia|constructor]. }
    destruct Hstep2 as (l2 & -> & Hl2 & Hc2). cbn [bind].
    destruct (malla_ok agg_nodes agg_capacity agg_nodes 0 (l1 ++ l2) eq_refl)
      as (l3 & E3 & Hl3 & Hc3).
    rewrite E3. do 2 eexists. split; [reflexivity|]. split; [|split].
    + rewrite !length_app, Hl1, Hl2, Hl3, Hagg. lia.
    + reflexivity.
    + repeat (apply Forall_app; split).
      * eapply Forall_impl; [|exact Hc1]. auto.
      * eapply Forall_impl; [|exact Hc2]. auto.
      * eapply Forall_impl; [|exact Hc3]. auto.
Qed.

(** * The random pairs *)

Lemma randint_rango (azar : nat -> Z) (n : nat) (a b : Z) :
  (a <= b)%Z -> exists x, randint azar n a b = Ok x /\ (a <= x <= b)%Z.
Proof.
  intros Hab. unfold randint.
  replace (b <? a)%Z with false by (symmetry; apply Z.ltb_ge; lia).
  eexists. split; [reflexivity|].
  pose proof (Z.mod_pos_bound (azar n) (b - a + 1)). lia.
Qed.

Lemma existsb_par_false (p : Z * Z) (l : list (Z * Z)) :
  existsb (py_eqb p) l = false -> ~ In p l.
Proof.
  intros E Hin. assert (Ht : existsb (py_eqb p) l = true).
  { apply existsb_exists. exists p. split; [exact Hin|apply py_eqb_refl]. }
  congruence.
Qed.

Lemma generar_pares_bucle_validos (azar : nat -> Z) (num_hosts num_flows max_intentos : Z)
  (fuel : nat) :
  (1 <= num_hosts)%Z ->
  forall pares intentos n,
    (max_intentos - intentos <= Z.of_nat fuel)%Z ->
    pares_validos num_hosts num_flows pares ->
    exists pares',
      generar_pares_bucle fuel azar num_hosts num_flows max_intentos pares intentos n
      = Some (Ok pares')
      /\ pares_validos num_hosts num_flows pares'.
Proof.
  intros Hh. induction fuel as [|fuel IH]; intros pares intentos n Hfuel Hval;
    cbn [generar_pares_bucle].
  - replace (intentos <? max_intentos)%Z with false by (symmetry; apply Z.ltb_ge; lia).
    rewrite andb_false_r. eauto.
  - destruct ((Z.of_nat (length pares) <? num_flows)
              && (intentos <? max_intentos))%Z eqn:Econd; [|eauto].
    apply andb_true_iff in Econd. destruct Econd as [Hlen _]. apply Z.ltb_lt in Hlen.
    destruct (randint_rango azar n 0 (num_hosts - 1)) as (s & -> & Hs); [lia|].
    destruct (randint_rango azar (S n) 0 (num_hosts - 1)) as (t & -> & Ht); [lia|].
    apply IH; [lia|].
    destruct (negb (s =? t)%Z && negb (existsb (py_eqb (s, t)) pares)) eqn:Enuevo;
      [|exact Hval].
    apply andb_true_iff in Enuevo. destruct Enuevo as [Hst Hnew].
    apply negb_true_iff in Hst, Hnew. apply Z.eqb_neq in Hst.
    apply existsb_par_false in Hnew.
    destruct Hval as (Hnd & Hmax & Hall). split; [|split].
    + now apply NoDup_snoc.
    + rewrite length_app. cbn [length]. lia.
    + apply Forall_app. split; [exact Hall|].
      constructor; [|constructor]. cbn [fst snd]. lia.
Qed.

(** [generar_pares_aleatorios] leaves its loop, whatever the random
    generator yields, after at most [100 * num_flows] attempts.  When a pair
    is asked for and there is no host it raises the [ValueError] of
    [randint(0, -1)]; otherwise it returns at most [num_flows] pairs, no
    pair twice, each of two different hosts in [0 .. num_hosts - 1]. *)
Theorem generar_pares_aleatorios_validos (azar : nat -> Z) (num_hosts num_flows : Z) :
  if ((1 <=? num_flows) && (num_hosts <=? 0))%Z
  then generar_pares_aleatorios azar num_hosts num_flows = Some (Raise ValueError)
  else exists pares,
         generar_pares_aleatorios azar num_hosts num_flows = Some (Ok pares)
         /\ pares_validos num_hosts num_flows pares.
Proof.
  unfold generar_pares_aleatorios. cbv zeta.
  assert (H0 : pares_validos num_hosts num_flows []).
  { split; [constructor|]. split; [cbn [length]; lia|constructor]. }
  destruct ((1 <=? num_flows) && (num_hosts <=? 0))%Z eqn:Ecase.
  - rewrite andb_true_iff, !Z.leb_le in Ecase. destruct Ecase as [Hf Hh].
    destruct (Z.to_nat (num_flows * 100)) as [|fuel] eqn:Efuel; [lia|].
    cbn [generar_pares_bucle length].
    replace (Z.of_nat 0 <? num_flows)%Z with true by (symmetry; apply Z.ltb_lt; lia).
    replace (0 <? num_flows * 100)%Z with true by (symmetry; apply Z.ltb_lt; lia).
    cbn [andb]. unfold randint at 1.
    replace (num_hosts - 1 <? 0)%Z with true by (symmetry; apply Z.ltb_lt; lia).
    reflexivity.
  - rewrite andb_false_iff, !Z.leb_gt in Ecase. destruct Ecase as [Hf|Hh].
    + exists []. split; [|exact H0].
      destruct (Z.to_nat (num_flows * 100)); cbn [generar_pares_bucle length];
        replace (Z.of_nat 0 <? num_flows)%Z with false
          by (symmetry; apply Z.ltb_ge; lia); reflexivity.
    + apply generar_pares_bucle_validos; [lia|lia|exact H0].
Qed.

(** * The fat tree *)

Lemma para_cada_agrega {A : Type} (f : list Enlace.t -> A -> resultado (list Enlace.t))
  (m : nat) (P : Enlace.t -> Prop) (l : list A) :
  (forall x, In x l -> forall e,
      exists n, f e x = Ok (e ++ n) /\ length n = m /\ Forall P n) ->
  forall e,
    exists n, para_cada f l e = Ok (e ++ n)
              /\ length n = (length l * m)%nat /\ Forall P n.
Proof.
  induction l as [|x l IH]; intros Hf e; cbn [para_cada].
  - exists []. rewrite app_nil_r. repeat split. constructor.
  - destruct (Hf x (or_introl eq_refl) e) as (n1 & -> & Hl1 & Hp1). cbn [bind].
    destruct (IH (fun y Hy => Hf y (or_intror Hy)) (e ++ n1)) as (n2 & -> & Hl2 & Hp2).
    exists (n1 ++ n2). rewrite app_assoc. split; [reflexivity|]. split.
    + rewrite length_app, Hl1, Hl2. cbn [length]. lia.
    + apply Forall_app. now split.
Qed.

Lemma fold_left_agrega {A : Type} (f : list Enlace.t -> A -> list Enlace.t)
  (m : nat) (P : Enlace.t -> Prop) (l : list A) :
  (forall x, In x l -> forall e,
      exists n, f e x = e ++ n /\ length n = m /\ Forall P n) ->
  forall e,
    exists n, fold_left f l e = e ++ n
              /\ length n = (length l * m)%nat /\ Forall P n.
Proof.
  induction l as [|x l IH]; intros Hf e; cbn [fold_left].
  - exists []. rewrite app_nil_r. repeat split. constructor.
  - destruct (Hf x (or_introl eq_refl) e) as (n1 & -> & Hl1 & Hp1).
    destruct (IH (fun y Hy => Hf y (or_intror Hy)) (e ++ n1)) as (n2 & -> & Hl2 & Hp2).
    exists (n1 ++ n2). rewrite app_assoc. split; [reflexivity|]. split.
    + rewrite length_app, Hl1, Hl2. cbn [length]. lia.
    + apply Forall_app. now split.
Qed.

Lemma agregar_bidireccional_agrega (capacity : Q) (a : Z) (l : list Z) :
  forall e,
    exists n, fold_left (agregar_bidireccional capacity a) l e = e ++ n
              /\ length n = (length l * 2)%nat
              /\ Forall (fun x => Enlace.capacity x = capacity) n.
Proof.
  apply fold_left_agrega. intros b _ e. eexists. split; [reflexivity|].
  split; [reflexivity|repeat constructor].
Qed.

Lemma py_slice_length {A : Type} (l : list A) (a b : Z) :
  (0 <= a <= b)%Z -> (b <= Z.of_nat (length l))%Z ->
  length (py_slice l a b) = Z.to_nat (b - a).
Proof.
  intros Hab Hb. unfold py_slice. cbv zeta.
  replace (a <? 0)%Z with false by (symmetry; apply Z.ltb_ge; lia).
  replace (b <? 0)%Z with false by (symmetry; apply Z.ltb_ge; lia).
  rewrite !Z.min_l by lia.
  rewrite length_firstn, length_skipn. lia.
Qed.

Lemma enumerate_In {A : Type} (l : list A) (s i : nat) (a : A) :
  In (i, a) (enumerate l s) -> (s <= i < s + length l)%nat.
Proof.
  revert s. induction l as [|x l IH]; intros s; cbn [enumerate length]; [intros []|].
  intros [E|Hin]; [injection E as <- _; lia|]. apply IH in Hin. lia.
Qed.

Lemma enumerate_length {A : Type} (l : list A) (s : nat) :
  length (enumerate l s) = length l.
Proof. revert s. induction l as [|x l IH]; intros s; cbn [enumerate length]; auto. Qed.

Section FatTree.
Variable h : Z.
Hypothesis Hh : (0 <= h)%Z.
Variable capacity : Q.
Variables hosts edge_switches agg_switches core_switches : list Z.
Hypothesis Hhosts : Z.of_nat (length hosts) = (2 * (h * h * h))%Z.
Hypothesis Hedge : Z.of_nat (length edge_switches) = (2 * (h * h))%Z.
Hypothesis Hagg : Z.of_nat (length agg_switches) = (2 * (h * h))%Z.
Hypothesis Hcore : Z.of_nat (length core_switches) = (h * h)%Z.

Lemma conectar_hosts_agrega (pod : Z) (i : nat) (edge_sw : Z) :
  (0 <= pod < 2 * h)%Z -> (Z.of_nat i < h)%Z ->
  forall e,
    exists n,
      conectar_hosts hosts pod h h capacity e (i, edge_sw) = Ok (e ++ n)
      /\ length n = (Z.to_nat h * 2)%nat
      /\ Forall (fun x => Enlace.capacity x = capacity) n.
Proof.
  intros Hpod Hi e. unfold conectar_hosts. cbv zeta.
  destruct (para_cada_agrega
              (conectar_host hosts (pod * h * h + Z.of_nat i * h) edge_sw capacity)
              2 (fun x => Enlace.capacity x = capacity) (py_range 0 h))
    with (e := e) as (n & E & Hl & Hp).
  - intros j Hj e0. apply py_range_In in Hj. unfold conectar_host.
    destruct (py_index_en_rango hosts (pod * h * h + Z.of_nat i * h + j))
      as (host & -> & _); [rewrite Hhosts; nia|].
    cbn [bind]. eexists. split; [reflexivity|].
    split; [reflexivity|repeat constructor].
  - exists n. split; [exact E|]. split; [|exact Hp].
    rewrite Hl, py_range_length. f_equal. lia.
Qed.

Lemma enlaces_del_pod_agrega (pod : Z) :
  (0 <= pod < 2 * h)%Z ->
  forall e,
    exists n,
      enlaces_del_pod hosts edge_switches agg_switches h h capacity e pod = Ok (e ++ n)
      /\ length n = (4 * (Z.to_nat h * Z.to_nat h))%nat
      /\ Forall (fun x => Enlace.capacity x = capacity) n.
Proof.
  intros Hpod e. unfold enlaces_del_pod. cbv zeta.
  assert (Hle : length (py_slice edge_switches (pod * h) (pod * h + h)) = Z.to_nat h).
  { rewrite py_slice_length by nia. f_equal. lia. }
  assert (Hla : length (py_slice agg_switches (pod * h) (pod * h + h)) = Z.to_nat h).
  { rewrite py_slice_length by nia. f_equal. lia. }
  set (pod_edge := py_slice edge_switches (pod * h) (pod * h + h)) in *.
  set (pod_agg := py_slice agg_switches (pod * h) (pod * h + h)) in *.
  destruct (para_cada_agrega (conectar_hosts hosts pod h h capacity)
              (Z.to_nat h * 2) (fun x => Enlace.capacity x = capacity)
              (enumerate pod_edge 0)) with (e := e) as (n1 & -> & Hl1 & Hp1).
  { intros [i edge_sw] Hin e0. apply enumerate_In in Hin.
    apply conectar_hosts_agrega; [exact Hpod|lia]. }
  cbn [bind].
  destruct (fold_left_agrega
              (fun enlaces edge_sw =>
                 fold_left (agregar_bidireccional capacity edge_sw) pod_agg enlaces)
              (Z.to_nat h * 2) (fun x => Enlace.capacity x = capacity) pod_edge)
    with (e := e ++ n1) as (n2 & -> & Hl2 & Hp2).
  { intros edge_sw _ e0.
    destruct (agregar_bidireccional_agrega capacity edge_sw pod_agg e0)
      as (n & E & Hl & Hp).
    exists n. rewrite Hla in Hl. auto. }
  exists (n1 ++ n2). rewrite app_assoc. split; [reflexivity|]. split.
  - rewrite length_app, Hl1, Hl2, enumerate_length, Hle. lia.
  - apply Forall_app. now split.
Qed.

Lemma enlaces_al_core_agrega (pod : Z) :
  (0 <= pod < 2 * h)%Z ->
  forall e,
    exists n,
      enlaces_al_core agg_switches core_switches h capacity e pod = Ok (e ++ n)
      /\ length n = (2 * (Z.to_nat h * Z.to_nat h))%nat
      /\ Forall (fun x => Enlace.capacity x = capacity) n.
Proof.
  intros Hpod e. unfold enlaces_al_core. cbv zeta.
  destruct (para_cada_agrega
              (conectar_core agg_switches core_switches (pod * h) h capacity)
              (Z.to_nat h * 2) (fun x => Enlace.capacity x = capacity) (py_range 0 h))
    with (e := e) as (n & E & Hl & Hp).
  - intros j Hj e0. apply py_range_In in Hj. unfold conectar_core.
    destruct (py_index_en_rango agg_switches (pod * h + j))
      as (agg_sw & -> & _); [rewrite Hagg; nia|].
    cbn [bind].
    destruct (agregar_bidireccional_agrega capacity agg_sw
                (py_slice core_switches (j * h) (j * h + h)) e0) as (n & -> & Hl & Hp).
    exists n. split; [reflexivity|]. split; [|exact Hp].
    rewrite Hl, py_slice_length by nia. f_equal. lia.
  - exists n. split; [exact E|]. split; [|exact Hp].
    rewrite Hl, py_range_length, Z.sub_0_r. nia.
Qed.

Lemma pods_agrega :
  exists enlaces,
    (enlaces <- para_cada (enlaces_del_pod hosts edge_switches agg_switches h h capacity)
                  (py_range 0 (2 * h)) [] ;;
     para_cada (enlaces_al_core agg_switches core_switches h capacity)
       (py_range 0 (2 * h)) enlaces)
    = Ok enlaces
    /\ Z.of_nat (length enlaces) = (12 * (h * h * h))%Z
    /\ Forall (fun x => Enlace.capacity x = capacity) enlaces.
Proof.
  destruct (para_cada_agrega
              (enlaces_del_pod hosts edge_switches agg_switches h h capacity)
              (4 * (Z.to_nat h * Z.to_nat h)) (fun x => Enlace.capacity x = capacity)
              (py_range 0 (2 * h))) with (e := @nil Enlace.t) as (n1 & -> & Hl1 & Hp1).
  { intros pod Hpod e. apply py_range_In in Hpod. now apply enlaces_del_pod_agrega. }
  cbn [app bind].
  destruct (para_cada_agrega
              (enlaces_al_core agg_switches core_switches h capacity)
              (2 * (Z.to_nat h * Z.to_nat h)) (fun x => Enlace.capacity x = capacity)
              (py_range 0 (2 * h))) with (e := n1) as (n2 & -> & Hl2 & Hp2).
  { intros pod Hpod e. apply py_range_In in Hpod. now apply enlaces_al_core_agrega. }
  exists (n1 ++ n2). split; [reflexivity|]. split.
  - rewrite length_app, Hl1, Hl2, py_range_length. nia.
  - apply Forall_app. now split.
Qed.
End FatTree.

Lemma cubo_par (h : Z) :
  ((2 * h) ^ 3 / 4 = 2 * (h * h * h)
   /\ (2 * h) ^ 2 / 2 = 2 * (h * h)
   /\ (2 * h) ^ 2 / 4 = h * h
   /\ 3 * (2 * h) ^ 3 / 2 = 12 * (h * h * h)
   /\ 2 * h / 2 = h)%Z.
Proof.
  repeat split.
  - replace ((2 * h) ^ 3)%Z with (2 * (h * h * h) * 4)%Z by ring. apply Z.div_mul. lia.
  - replace ((2 * h) ^ 2)%Z with (2 * (h * h) * 2)%Z by ring. apply Z.div_mul. lia.
  - replace ((2 * h) ^ 2)%Z with (h * h * 4)%Z by ring. apply Z.div_mul. lia.
  - replace (3 * (2 * h) ^ 3)%Z with (12 * (h * h * h) * 2)%Z by ring.
    apply Z.div_mul. lia.
  - rewrite Z.mul_comm. apply Z.div_mul. lia.
Qed.

(** [generar_fat_tree] raises [ValueError] exactly when [k] is odd.  For an
    even [k] it returns, raising no [IndexError], [3 * k^3 / 2] links (none
    for [k <= 0]), all with the given capacity, and [info] holds their
    number and the [k^3 / 4] hosts. *)
Theorem generar_fat_tree_resultado (k : Z) (capacity : Q) :
  if (k mod 2 =? 0)%Z
  then exists enlaces info,
         generar_fat_tree k capacity = Ok (enlaces, info)
         /\ Z.of_nat (length enlaces) = Z.max 0 (3 * k ^ 3 / 2)
         /\ InfoFatTree.num_enlaces info = length enlaces
         /\ Z.of_nat (InfoFatTree.num_hosts info) = Z.max 0 (k ^ 3 / 4)
         /\ Forall (fun e => Enlace.capacity e = capacity) enlaces
  else generar_fat_tree k capacity = Raise ValueError.
Proof.
  unfold generar_fat_tree.
  destruct (k mod 2 =? 0)%Z eqn:Epar; cbn [negb]; [|reflexivity].
  apply Z.eqb_eq in Epar.
  assert (Hk : k = (2 * (k / 2))%Z) by (apply Z_div_exact_2; [lia|exact Epar]).
  set (h := (k / 2)%Z) in *. cbv zeta.
  destruct (cubo_par h) as (H3 & H2 & H4 & H32 & Hdiv).
  unfold numerar_nodos_fat_tree. cbv zeta.
  cbn [NodosFatTree.hosts NodosFatTree.edge NodosFatTree.agg NodosFatTree.core].
  rewrite Hk. rewrite H3, H2, H4, H32.
  destruct (Z_le_gt_dec 0 h) as [Hh|Hh].
  - destruct (pods_agrega h Hh capacity
                (py_range 0 (2 * (h * h * h)))
                (py_range (2 * (h * h * h)) (2 * (h * h * h) + 2 * (h * h)))
                (py_range (2 * (h * h * h) + 2 * (h * h))
                   (2 * (h * h * h) + 2 * (h * h) + 2 * (h * h)))
                (py_range (2 * (h * h * h) + 2 * (h * h) + 2 * (h * h))
                   (2 * (h * h * h) + 2 * (h * h) + 2 * (h * h) + h * h)))
      as (enlaces & E & Hlen & Hcap);
      try (rewrite py_range_length; nia).
    destruct (para_cada _ (py_range 0 (2 * h)) []) as [e1|] eqn:E1; cbn [bind] in *;
      [|discriminate].
    rewrite E. cbn [bind]. do 2 eexists. split; [reflexivity|].
    cbn [InfoFatTree.num_enlaces InfoFatTree.num_hosts].
    split; [rewrite Hlen; nia|]. split; [reflexivity|].
    split; [rewrite py_range_length; nia|exact Hcap].
  - rewrite (py_range_vacio 0 (2 * h)) by lia. cbn [para_cada bind].
    do 2 eexists. split; [reflexivity|].
    cbn [InfoFatTree.num_enlaces InfoFatTree.num_hosts length].
    split; [nia|]. split; [reflexivity|].
    split; [rewrite py_range_length; nia|constructor].
Qed.

(** * The strategic pairs *)

Lemma anillo_de_rango (nodes_per_ring ring_id x : Z) :
  (1 <= nodes_per_ring)%Z ->
  (ring_id * nodes_per_ring <= x <= ring_id * nodes_per_ring + nodes_per_ring - 1)%Z ->
  anillo_de nodes_per_ring x = ring_id.
Proof.
  intros Hn Hx. unfold anillo_de. symmetry.
  apply (Z.div_unique x nodes_per_ring ring_id (x - ring_id * nodes_per_ring)); lia.
Qed.

Lemma nodo_de_acceso (num_access_rings nodes_per_ring ring_id x : Z) :
  (1 <= nodes_per_ring)%Z -> (0 <= ring_id <= num_access_rings - 1)%Z ->
  (ring_id * nodes_per_ring <= x <= ring_id * nodes_per_ring + nodes_per_ring - 1)%Z ->
  (0 <= x < num_access_rings * nodes_per_ring)%Z.
Proof. intros Hn Hr Hx. nia. Qed.

Lemma intra_ring_bucle_validos (azar : nat -> Z)
  (num_access_rings nodes_per_ring num_intra_ring max_intentos : Z) (fuel : nat) :
  (1 <= num_access_rings)%Z -> (1 <= nodes_per_ring)%Z ->
  forall pares intentos n,
    (max_intentos - intentos <= Z.of_nat fuel)%Z ->
    NoDup pares ->
    (Z.of_nat (length pares) <= Z.max 0 num_intra_ring)%Z ->
    Forall (fun p => fst p <> snd p
                     /\ par_de_acceso num_access_rings nodes_per_ring p
                     /\ anillo_de nodes_per_ring (fst p)
                        = anillo_de nodes_per_ring (snd p)) pares ->
    exists pares' n',
      intra_ring_bucle fuel azar num_access_rings nodes_per_ring num_intra_ring
        max_intentos pares intentos n = Some (Ok (pares', n'))
      /\ NoDup pares'
      /\ (Z.of_nat (length pares') <= Z.max 0 num_intra_ring)%Z
      /\ Forall (fun p => fst p <> snd p
                          /\ par_de_acceso num_access_rings nodes_per_ring p
                          /\ anillo_de nodes_per_ring (fst p)
                             = anillo_de nodes_per_ring (snd p)) pares'.
Proof.
  intros Hr Hn. induction fuel as [|fuel IH]; intros pares intentos n Hfuel Hnd Hmax Hall;
    cbn [intra_ring_bucle].
  - replace (intentos <? max_intentos)%Z with false by (symmetry; apply Z.ltb_ge; lia).
    rewrite andb_false_r. eauto 6.
  - destruct ((Z.of_nat (length pares) <? num_intra_ring)
              && (intentos <? max_intentos))%Z eqn:Econd; [|eauto 6].
    apply andb_true_iff in Econd. destruct Econd as [Hlen _]. apply Z.ltb_lt in Hlen.
    destruct (randint_rango azar n 0 (num_access_rings - 1)) as (ring & -> & Hring);
      [lia|].
    cbv zeta.
    destruct (randint_rango azar (S n) (ring * nodes_per_ring)
                (ring * nodes_per_ring + nodes_per_ring - 1)) as (s & -> & Hs); [lia|].
    destruct (randint_rango azar (S (S n)) (ring * nodes_per_ring)
                (ring * nodes_per_ring + nodes_per_ring - 1)) as (t & -> & Ht); [lia|].
    apply IH; [lia| | |];
      destruct (negb (s =? t)%Z && negb (existsb (py_eqb (s, t)) pares)) eqn:Enuevo;
      try assumption;
      apply andb_true_iff in Enuevo; destruct Enuevo as [Hst Hnew];
      apply negb_true_iff in Hst, Hnew; apply Z.eqb_neq in Hst;
      apply existsb_par_false in Hnew.
    + now apply NoDup_snoc.
    + rewrite length_app. cbn [length]. lia.
    + apply Forall_app. split; [exact Hall|].
      constructor; [|constructor]. cbn [fst snd]. split; [exact Hst|]. split.
      * unfold par_de_acceso. cbn [fst snd].
        split; [exact (nodo_de_acceso _ _ ring s Hn Hring Hs)
               |exact (nodo_de_acceso _ _ ring t Hn Hring Ht)].
      * rewrite (anillo_de_rango nodes_per_ring ring s Hn Hs).
        now rewrite (anillo_de_rango nodes_per_ring ring t Hn Ht).
Qed.

Lemma inter_ring_bucle_validos (azar : nat -> Z)
  (num_access_rings nodes_per_ring num_commodities max_intentos : Z)
  (intra : list (Z * Z)) (fuel : nat) :
  (1 <= num_access_rings)%Z -> (1 <= nodes_per_ring)%Z ->
  forall inter intentos n,
    (max_intentos - intentos <= Z.of_nat fuel)%Z ->
    NoDup (intra ++ inter) ->
    (Z.of_nat (length (intra ++ inter))
     <= Z.max (Z.of_nat (length intra)) num_commodities)%Z ->
    Forall (fun p => par_de_acceso num_access_rings nodes_per_ring p
                     /\ anillo_de nodes_per_ring (fst p)
                        <> anillo_de nodes_per_ring (snd p)) inter ->
    exists inter',
      inter_ring_bucle fuel azar num_access_rings nodes_per_ring num_commodities
        max_intentos (intra ++ inter) intentos n = Some (Ok (intra ++ inter'))
      /\ NoDup (intra ++ inter')
      /\ (Z.of_nat (length (intra ++ inter'))
          <= Z.max (Z.of_nat (length intra)) num_commodities)%Z
      /\ Forall (fun p => par_de_acceso num_access_rings nodes_per_ring p
                          /\ anillo_de nodes_per_ring (fst p)
                             <> anillo_de nodes_per_ring (snd p)) inter'.
Proof.
  intros Hr Hn. induction fuel as [|fuel IH]; intros inter intentos n Hfuel Hnd Hmax Hall;
    cbn [inter_ring_bucle].
  - replace (intentos <? max_intentos)%Z with false by (symmetry; apply Z.ltb_ge; lia).
    rewrite andb_false_r. eauto 6.
  - destruct ((Z.of_nat (length (intra ++ inter)) <? num_commodities)
              && (intentos <? max_intentos))%Z eqn:Econd; [|eauto 6].
    apply andb_true_iff in Econd. destruct Econd as [Hlen _]. apply Z.ltb_lt in Hlen.
    destruct (randint_rango azar n 0 (num_access_rings - 1)) as (r1 & -> & Hr1); [lia|].
    destruct (randint_rango azar (S n) 0 (num_access_rings - 1)) as (r2 & -> & Hr2);
      [lia|].
    destruct (r1 =? r2)%Z eqn:E12; [apply IH; [lia|assumption..]|].
    apply Z.eqb_neq in E12. cbv zeta.
    destruct (randint_rango azar (S (S n)) (r1 * nodes_per_ring)
                (r1 * nodes_per_ring + nodes_per_ring - 1)) as (s & -> & Hs); [lia|].
    destruct (randint_rango azar (S (S (S n))) (r2 * nodes_per_ring)
                (r2 * nodes_per_ring + nodes_per_ring - 1)) as (t & -> & Ht); [lia|].
    destruct (negb (existsb (py_eqb (s, t)) (intra ++ inter))) eqn:Enuevo.
    + apply negb_true_iff in Enuevo. apply existsb_par_false in Enuevo.
      rewrite <- app_assoc. apply IH; [lia| | |].
      * rewrite app_assoc. now apply NoDup_snoc.
      * rewrite app_assoc, length_app. cbn [length]. lia.
      * apply Forall_app. split; [exact Hall|].
        constructor; [|constructor]. cbn [fst snd]. split.
        -- unfold par_de_acceso. cbn [fst snd].
           split; [exact (nodo_de_acceso _ _ r1 s Hn Hr1 Hs)
                  |exact (nodo_de_acceso _ _ r2 t Hn Hr2 Ht)].
        -- rewrite (anillo_de_rango nodes_per_ring r1 s Hn Hs).
           now rewrite (anillo_de_rango nodes_per_ring r2 t Hn Ht).
    + apply IH; [lia|assumption..].
Qed.

(** In a network of at least one ring of at least one node,
    [generar_commodities_estrategicos] leaves both loops, whatever the
    random generator yields, and raises nothing.  No pair is returned
    twice; the pairs of the first loop, at most
    [int(num_commodities * intra_ring_ratio)], join two different access
    nodes of one ring, and the pairs that the second loop adds, up to
    [num_commodities] pairs in all, join access nodes of different
    rings. *)
Theorem generar_commodities_estrategicos_validos (azar : nat -> Z)
  (num_commodities : Z) (info : InfoRed.t) (requirement intra_ring_ratio : Q) :
  (1 <= InfoRed.num_access_rings info)%Z -> (1 <= InfoRed.nodes_per_ring info)%Z ->
  exists intra inter,
    generar_commodities_estrategicos azar num_commodities info requirement
      intra_ring_ratio = Some (Ok (intra ++ inter))
    /\ NoDup (intra ++ inter)
    /\ (Z.of_nat (length intra)
        <= Z.max 0 (py_int (inject_Z num_commodities * intra_ring_ratio)))%Z
    /\ (Z.of_nat (length (intra ++ inter))
        <= Z.max (Z.of_nat (length intra)) num_commodities)%Z
    /\ Forall (fun p => fst p <> snd p
                        /\ par_de_acceso (InfoRed.num_access_rings info)
                             (InfoRed.nodes_per_ring info) p
                        /\ anillo_de (InfoRed.nodes_per_ring info) (fst p)
                           = anillo_de (InfoRed.nodes_per_ring info) (snd p)) intra
    /\ Forall (fun p => par_de_acceso (InfoRed.num_access_rings info)
                          (InfoRed.nodes_per_ring info) p
                        /\ anillo_de (InfoRed.nodes_per_ring info) (fst p)
                           <> anillo_de (InfoRed.nodes_per_ring info) (snd p)) inter.
Proof.
  intros Hr Hn. unfold generar_commodities_estrategicos. cbv zeta.
  set (num_intra_ring := py_int (inject_Z num_commodities * intra_ring_ratio)).
  destruct (intra_ring_bucle_validos azar (InfoRed.num_access_rings info)
              (InfoRed.nodes_per_ring info) num_intra_ring (num_intra_ring * 100)
              (Z.to_nat (num_intra_ring * 100)) Hr Hn [] 0%Z 0%nat)
    as (intra & n & -> & Hnd & Hmax & Hintra);
    [lia|constructor|cbn [length]; lia|constructor|].
  destruct (inter_ring_bucle_validos azar (InfoRed.num_access_rings info)
              (InfoRed.nodes_per_ring info) num_commodities
              ((num_commodities - num_intra_ring) * 100) intra
              (Z.to_nat ((num_commodities - num_intra_ring) * 100)) Hr Hn [] 0%Z n)
    as (inter & E & Hnd' & Hmax' & Hinter);
    [lia|now rewrite app_nil_r|rewrite app_nil_r; lia|constructor|].
  rewrite app_nil_r in E. exists intra, inter. rewrite E. repeat split; assumption.
Qed.

Lemma generar_commodities_estrategicos_validos_witness :
  exists intra inter,
    generar_commodities_estrategicos (fun n => Z.of_nat (n * n)) 6
      (InfoRed.mk 3 4 12 2 (py_range 0 12) (py_range 12 14) 34 10 40 100) 10 (1 # 2)
    = Some (Ok (intra ++ inter))
    /\ NoDup (intra ++ inter)
    /\ (Z.of_nat (length intra) <= Z.max 0 (py_int (inject_Z 6 * (1 # 2))))%Z
    /\ (Z.of_nat (length (intra ++ inter)) <= Z.max (Z.of_nat (length intra)) 6)%Z
    /\ Forall (fun p => fst p <> snd p
                        /\ par_de_acceso 3 4 p
                        /\ anillo_de 4 (fst p) = anillo_de 4 (snd p)) intra
    /\ Forall (fun p => par_de_acceso 3 4 p
                        /\ anillo_de 4 (fst p) <> anillo_de 4 (snd p)) inter.
Proof.
  apply (generar_commodities_estrategicos_validos (fun n => Z.of_nat (n * n)) 6
           (InfoRed.mk 3 4 12 2 (py_range 0 12) (py_range 12 14) 34 10 40 100)
           10 (1 # 2)); cbn [InfoRed.num_access_rings InfoRed.nodes_per_ring]; lia.
Defined.

(** * The cost of each link *)

















